(** * Aircraft-Tire-Selector: physics oracle, feasibility gates and search strategies

    A shallow embedding of [models.py] (class [Tire]) and of the search
    strategies in [optimizations/] ([randSearch.py], [genAlg.py], [pso.py],
    [bayesOps.py], [gradients.py]).  The strategies import the tire class as
    [_models.Tire]; its code is the [Tire] class of [models.py].

    Numbers.  Python floats are modelled by [fl]: a real number, the two
    infinities or NaN.  Rounding errors of IEEE arithmetic are not modelled
    (arithmetic on [Num] is exact real arithmetic) and signed zeros are
    identified.  Two divisions are distinguished, as in the code:
    - [pydiv]/[pydivR]: division of Python floats, which raises
      [ZeroDivisionError] on a zero divisor;
    - [npdiv]: division where an operand is a numpy scalar ([np.sqrt],
      [np.round], [np.ceil], [np.cos] results), giving an infinity or NaN.
    [np.sqrt] of a negative number is NaN, and every comparison with NaN is
    [False].  Tire dimensions are finite ([R]).

    Effects.  [M] is the error monad of raised Python exceptions.  The
    strategies run in [SM], a state-and-error monad over the position in a
    stream of [np.random.rand()] draws and in a stream of [time.time()]
    readings.  [while] loops take fuel; running out of it is reported as the
    pseudo-exception [NoFuel] ("the loop has not returned yet"). *)

From Stdlib Require Import Reals Psatz Lra ZArith List String Bool.
From Stdlib Require Import Sorting.Sorted Sorting.Permutation.
Import ListNotations.
Open Scope R_scope.

(* ------------------------------------------------------------------ *)
(** ** Python floats *)

Inductive fl : Type :=
| Num (x : R)
| PInf
| NInf
| NaN.

Definition Rltb (x y : R) : bool := if Rlt_dec x y then true else false.
Definition Rleb (x y : R) : bool := if Rle_dec x y then true else false.
Definition Reqb (x y : R) : bool := if Req_dec_T x y then true else false.

(** [x == 0] for a finite float: Python's [not x]. *)
Definition is_zero (x : R) : bool := Reqb x 0.

Definition fneg (a : fl) : fl :=
  match a with
  | Num x => Num (- x)
  | PInf => NInf
  | NInf => PInf
  | NaN => NaN
  end.

Definition fadd (a b : fl) : fl :=
  match a, b with
  | Num x, Num y => Num (x + y)
  | NaN, _ => NaN
  | _, NaN => NaN
  | PInf, NInf => NaN
  | NInf, PInf => NaN
  | PInf, _ => PInf
  | _, PInf => PInf
  | NInf, _ => NInf
  | _, NInf => NInf
  end.

Definition fsub (a b : fl) : fl := fadd a (fneg b).

(** Infinity times a finite number [x]. *)
Definition inf_times (pos : bool) (x : R) : fl :=
  if Reqb x 0 then NaN
  else if Rltb 0 x then (if pos then PInf else NInf)
  else (if pos then NInf else PInf).

Definition fmul (a b : fl) : fl :=
  match a, b with
  | Num x, Num y => Num (x * y)
  | NaN, _ => NaN
  | _, NaN => NaN
  | Num x, PInf => inf_times true x
  | PInf, Num x => inf_times true x
  | Num x, NInf => inf_times false x
  | NInf, Num x => inf_times false x
  | PInf, PInf => PInf
  | NInf, NInf => PInf
  | PInf, NInf => NInf
  | NInf, PInf => NInf
  end.

(** Division with numpy semantics: [x / 0] is an infinity, [0 / 0] is NaN. *)
Definition npdiv (a b : fl) : fl :=
  match a, b with
  | Num x, Num y =>
      if Reqb y 0 then
        (if Reqb x 0 then NaN else if Rltb 0 x then PInf else NInf)
      else Num (x / y)
  | NaN, _ => NaN
  | _, NaN => NaN
  | Num _, PInf => Num 0
  | Num _, NInf => Num 0
  | PInf, Num y => if Rleb 0 y then PInf else NInf
  | NInf, Num y => if Rleb 0 y then NInf else PInf
  | _, _ => NaN
  end.

Definition fsqrt (a : fl) : fl :=
  match a with
  | Num x => if Rltb x 0 then NaN else Num (sqrt x)
  | PInf => PInf
  | NInf => NaN
  | NaN => NaN
  end.

Definition flt (a b : fl) : bool :=
  match a, b with
  | Num x, Num y => Rltb x y
  | NInf, Num _ => true
  | NInf, PInf => true
  | Num _, PInf => true
  | _, _ => false
  end.

Definition fle (a b : fl) : bool :=
  match a, b with
  | Num x, Num y => Rleb x y
  | NInf, Num _ => true
  | NInf, PInf => true
  | NInf, NInf => true
  | Num _, PInf => true
  | PInf, PInf => true
  | _, _ => false
  end.

Definition feqb (a b : fl) : bool :=
  match a, b with
  | Num x, Num y => Reqb x y
  | PInf, PInf => true
  | NInf, NInf => true
  | _, _ => false
  end.

(** [math.floor] and [math.ceil] on reals. *)
Definition Rfloor (x : R) : Z := (up x - 1)%Z.
Definition Rceil (x : R) : Z := (- Rfloor (- x))%Z.

(** [np.round] to an integer: round half to even. *)
Definition round_half_even (x : R) : Z :=
  let f := Rfloor x in
  let r := x - IZR f in
  if Rltb r (1 / 2) then f
  else if Rltb (1 / 2) r then (f + 1)%Z
  else if Z.even f then f else (f + 1)%Z.

Definition fround (a : fl) : fl :=
  match a with
  | Num x => Num (IZR (round_half_even x))
  | other => other
  end.

Definition fceil (a : fl) : fl :=
  match a with
  | Num x => Num (IZR (Rceil x))
  | other => other
  end.

(** [x ** n] for a natural exponent [n]. *)
Definition fpow (a : fl) (n : nat) : fl :=
  match n, a with
  | O, _ => Num 1
  | _, Num x => Num (x ^ n)
  | _, PInf => PInf
  | _, NInf => if Nat.even n then PInf else NInf
  | _, NaN => NaN
  end.

(* ------------------------------------------------------------------ *)
(** ** Raised exceptions *)

Inductive exn : Type :=
| ZeroDivisionError
| ValueError
| IndexError
| NameError
| NoFuel.

Inductive M (A : Type) : Type :=
| Ok (a : A)
| Raise (e : exn).
Arguments Ok {A} a.
Arguments Raise {A} e.

Definition ret {A} (a : A) : M A := Ok a.
Definition bind {A B} (m : M A) (k : A -> M B) : M B :=
  match m with
  | Ok a => k a
  | Raise e => Raise e
  end.

Notation "x <- m ;; k" := (bind m (fun x => k))
  (at level 61, m at next level, right associativity).

(** Division of Python floats. *)
Definition pydivR (x y : R) : M R :=
  if Reqb y 0 then Raise ZeroDivisionError else Ok (x / y).

Definition pydiv (a b : fl) : M fl :=
  match b with
  | Num y => if Reqb y 0 then Raise ZeroDivisionError else Ok (npdiv a b)
  | _ => Ok (npdiv a b)
  end.

(** [lst[i]] *)
Definition idx {A} (l : list A) (i : nat) : M A :=
  match nth_error l i with
  | Some a => Ok a
  | None => Raise IndexError
  end.

(* ------------------------------------------------------------------ *)
(** ** [scipy.constants] *)

Module constants.
Definition pi : R := PI.
Definition inch : R := 0.0254.
Definition pound : R := 0.45359237.
Definition g : R := 9.80665.
Definition lbf : R := pound * g.
Definition psi : R := lbf / (inch * inch).
Definition R_gas : R := 6.02214076e23 * 1.380649e-23.
Definition mile : R := 1609.344.
Definition hour : R := 3600.
Definition degree : R := PI / 180.
End constants.

(* ------------------------------------------------------------------ *)
(** ** [class Tire] (models.py) *)

(** The attributes of a [Tire] that the code reads; all other attributes
    keep their defaults in every [Tire] built by the strategies. *)
Record Tire : Type := mkTire {
  Pre : string;
  SI : R;
  PR : R;
  Dm : R;
  Wm : R;
  D : R;
  DF : R;
  Lr : R
}.

(** [Tire(...)] with the keyword arguments [Pre], [SI], [PR], [Dm], [Wm], [D],
    [DF], [RD] and [FH]:  [if not self.D: self.D = self.RD],
    [if not self.DF: self.DF = self.D + 2 * self.FH], [self.Lr = self.Dm/self.D]. *)
Definition Tire_init (Pre0 : string) (SI0 PR0 Dm0 Wm0 D0 DF0 RD0 FH0 : R) : M Tire :=
  let D1 := if is_zero D0 then RD0 else D0 in
  let DF1 := if is_zero DF0 then D1 + 2 * FH0 else DF0 in
  Lr0 <- pydivR Dm0 D1 ;;
  ret (mkTire Pre0 SI0 PR0 Dm0 Wm0 D1 DF1 Lr0).

(** [Tire(PR=PR, Dm=Dm, Wm=Wm, D=D, DF=DF)] *)
Definition new_tire (PR0 Dm0 Wm0 D0 DF0 : R) : M Tire :=
  Tire_init EmptyString 0 PR0 Dm0 Wm0 D0 DF0 0 0.

(** [get_key_dim] *)
Definition get_key_dim (t : Tire) : list R := [t.(PR); t.(Dm); t.(Wm); t.(D); t.(DF)].

(** [ground_contact_area(b)] *)
Definition ground_contact_area (t : Tire) (b : R) : fl :=
  let d := b * (t.(Dm) - t.(DF)) / 2 in
  fmul (Num (0.77 * constants.pi * d)) (fsqrt (Num ((t.(Dm) - d) * (t.(Wm) - d)))).

(** [ratio_of_ends_per_inch] *)
Definition ratio_of_ends_per_inch (t : Tire) : R :=
  let Lr := t.(Lr) in
  if Rltb 1.5 Lr && Rltb Lr 2.2 then 1.475 - 0.331 * Lr
  else if Rleb 2.2 Lr && Rltb Lr 5 then
    -0.007651 * Lr ^ 5
    + 0.14362 * Lr ^ 4
    - 1.0668308 * Lr ^ 3
    + 3.9519228 * Lr ^ 2
    - 7.4168297 * Lr
    + 6.3261135
  else if Rleb Lr 1.5 then 1.475 - 0.331 * Lr
  else
    -0.007651 * 5 ^ 5
    + 0.14362 * 5 ^ 4
    - 1.0668308 * 5 ^ 3
    + 3.9519228 * 5 ^ 2
    - 7.4168297 * 5
    + 6.3261135.

(** The operating factor [F0] of [pressure_index], a polynomial in [D]. *)
Definition F0_poly (D : R) : R :=
  -1.623104e-7 * D ^ 5
  + 1.463062e-5 * D ^ 4
  - 5.607522e-4 * D ^ 3
  + 0.01288401 * D ^ 2
  - 0.197904 * D
  + 2.567982.

(** [pressure_index] *)
Definition pressure_index (t : Tire) : M R :=
  let Re := ratio_of_ends_per_inch t in
  let Ne := t.(PR) - 0.4 in
  let T0 := 4.4 in
  let a := (t.(Dm) - t.(D)) / 4 in
  q <- pydivR t.(D) (2 * t.(Dm)) ;;
  let Q := 2.5 + q in
  let S := a * Q in
  let F0 := F0_poly t.(D) in
  pydivR (40 * Re * T0 * Ne) (S * F0).

(** [load_supporting_capability] *)
Definition load_supporting_capability (t : Tire) : M R :=
  if Rltb t.(Wm) 5.5 then ret t.(PR)
  else pydivR (10.4 * t.(PR) ^ 2) (t.(Wm) ^ 2).

(** [max_load_capacity(exact)] *)
Definition max_load_capacity (t : Tire) (exact : bool) : M fl :=
  let A := ground_contact_area t 0.32 in
  P <- pressure_index t ;;
  Pc <- load_supporting_capability t ;;
  let Lm := fmul A (Num (P + Pc)) in
  if exact then ret Lm
  else ret (fmul (fround (npdiv Lm (Num 25))) (Num 25)).

(** [inflation_pressure].  On the 35% branch the value is a numpy scalar
    (it divides [max_load_capacity()] by [ground_contact_area(b)]). *)
Definition inflation_pressure (t : Tire) : M fl :=
  Pc <- load_supporting_capability t ;;
  P <- (if String.eqb t.(Pre) "B" || String.eqb t.(Pre) "H"
           || (negb (is_zero t.(SI)) && Rleb t.(SI) 160)
        then
          let b := 0.35 in
          L <- max_load_capacity t false ;;
          ret (fsub (npdiv (npdiv L (Num (b + 0.45))) (ground_contact_area t b)) (Num Pc))
        else
          P <- pressure_index t ;;
          ret (Num P)) ;;
  let X := if flt (Num 100) P then Num 0.5 else fsub (fmul (Num 0.01) P) (Num 0.5) in
  ret (fadd (fadd P (fmul X (Num Pc))) (Num 3)).

(** [inflation_medium_mass()] with its default arguments
    ([P_gas=0.0, P_amb=14.7, T=298.15, M_gas=28.0134]). *)
Definition inflation_medium_mass (t : Tire) : M fl :=
  let P_amb := 14.7 in
  let T := 298.15 in
  let M_gas := 28.0134 in
  P_gas <- inflation_pressure t ;;
  let P_abs := fmul (fadd P_gas (Num P_amb)) (Num constants.psi) in
  let H := (t.(Dm) - t.(D)) / 2 in
  let V := constants.pi ^ 2 * t.(Wm) * H * (t.(D) + H) / 4 * constants.inch ^ 3 in
  ret (npdiv (npdiv (npdiv (fmul (fmul P_abs (Num V)) (Num M_gas))
                           (Num constants.R_gas)) (Num T)) (Num 1000)).

(** [psi] inside [cord_tension_walter].  [x ** (2/3)] is written with
    [Rpower], which agrees with it for a positive base; [psi] is only called
    with the defaults [rho = 0.9] and [1] and [beta_c = 30] degrees, where
    the base is positive. *)
Definition psi_w (rho beta_c : R) : R :=
  (2 * rho * Rpower (1 - rho ^ 2 * sin beta_c ^ 2) (2 / 3)
   - rho * Rpower (1 - rho ^ 2 * sin beta_c ^ 2) (1 / 2)
   - asin (rho * sin beta_c) / sin beta_c) / (4 * sin beta_c ^ 2).

(** [cord_tension_walter()] with its default arguments
    ([N=0, n_ply=0, beta_c=30.0, m_1=71e-6, rho=0.9, beta_s=45.00]).
    [Omega] divides by the Python float of [inflation_pressure()] (the
    32%-deflection branch, the one of every [Tire] the strategies build). *)
Definition cord_tension_walter (t : Tire) : M fl :=
  let n_ply := IZR (Rceil (t.(PR) / 8)) in
  let N := 1360 in
  let m_1 := 71e-6 in
  let rho := 0.9 in
  let beta_c := 30 * constants.degree in
  let beta_s := 45 * constants.degree in
  let r_c := t.(Dm) / 2 in
  let r_w := t.(Dm) / 2 - (t.(Dm) - t.(D)) / 4 in
  rho_w <- pydivR r_w r_c ;;
  omega <- pydivR (t.(SI) * (constants.mile / constants.inch / constants.hour)) r_c ;;
  Ip <- inflation_pressure t ;;
  Omega <- pydiv (Num (r_c * omega ^ 2)) Ip ;;
  Ip' <- inflation_pressure t ;;
  let num :=
    fmul (fmul (fmul (Num constants.pi) Ip') (Num (r_c ^ 2)))
         (fadd (Num ((1 - rho_w ^ 2) * cos beta_c))
               (fmul (fmul (Num m_1) Omega) (Num (psi_w rho beta_c - psi_w 1 beta_c)))) in
  let tt := npdiv num (Num (N * n_ply * (1 - rho ^ 2 * sin beta_s ^ 2))) in
  ret (fmul tt (Num constants.lbf)).

(** [cord_tension_netting()] with its default arguments
    ([N=0, n_ply=0, alpha=30.0, phi=90.0]). *)
Definition cord_tension_netting (t : Tire) : M fl :=
  let n_ply := IZR (Rceil (t.(PR) / 8)) in
  let N := 1540 in
  let alpha := 30 in
  let phi := 90 in
  Ip <- inflation_pressure t ;;
  let tt :=
    npdiv (npdiv (fmul (npdiv (fmul (Num constants.pi) Ip) (Num (N * n_ply)))
                       (Num ((t.(Dm) / 2) ^ 2 - (t.(Dm) / 2 - (t.(Dm) - t.(D)) / 4) ^ 2)))
                 (Num (sin (alpha * constants.degree))))
          (Num (sin (phi * constants.degree))) in
  ret (fmul tt (Num constants.lbf)).

(** [is_mech_feasible(model)] with [N=0, n_ply=0, break_load=338.0]. *)
Definition is_mech_feasible (t : Tire) (model : string) : M bool :=
  tt <- (if String.eqb model "walter" then cord_tension_walter t
         else if String.eqb model "netting" then cord_tension_netting t
         else Raise ValueError) ;;
  ret (flt tt (Num 338.0)).

(* ------------------------------------------------------------------ *)
(** ** Feasibility gates *)

(** [is_geo_valid(dim, req_Lm)] (randSearch.py): [Some tire] for the
    returned [Tire], [None] for [False]. *)
Definition is_geo_valid (dim : list R) (req_Lm : R) : M (option Tire) :=
  match dim with
  | [PR0; Dm0; Wm0; D0; DF0] =>
      asp <- pydivR ((Dm0 - D0) / 2) Wm0 ;;
      if Rleb Dm0 DF0 || Rleb DF0 D0 || Rltb asp 0.5 || Rltb 1 asp then ret None
      else
        t <- new_tire PR0 Dm0 Wm0 D0 DF0 ;;
        L <- max_load_capacity t true ;;
        if flt L (Num req_Lm) then ret None
        else
          ok <- is_mech_feasible t "walter" ;;
          if ok then ret (Some t) else ret None
  | _ => Raise ValueError
  end.

(** [GA_Individual.cal_fitness()] (genAlg.py), on the chromosome
    [[PR, Dm, Wm, D, DF, req_Lm]]. *)
Definition cal_fitness (chromosome : list R) : M fl :=
  c1 <- idx chromosome 1 ;;
  c3 <- idx chromosome 3 ;;
  c2 <- idx chromosome 2 ;;
  asp_ratio <- pydivR ((c1 - c3) / 2) c2 ;;
  c4 <- idx chromosome 4 ;;
  if Rleb c1 c4 || Rleb c4 c3 || Rltb asp_ratio 0.5 || Rltb 1 asp_ratio then ret PInf
  else
    c0 <- idx chromosome 0 ;;
    t <- new_tire c0 c1 c2 c3 c4 ;;
    L <- max_load_capacity t true ;;
    c5 <- idx chromosome 5 ;;
    if flt L (Num c5) then ret PInf
    else
      ok <- is_mech_feasible t "walter" ;;
      if negb ok then ret PInf
      else inflation_medium_mass t.

(** The penalty [-1e24] of the Bayesian objective. *)
Definition bayes_penalty : R := - 1e24.

(* ------------------------------------------------------------------ *)
(** ** [class Tire] on numpy scalars

    The dimensions of the tires that [rs_discrete] draws and reaches by its
    moves are elements of numpy arrays ([scopes[var][i]]), the positions of
    [pso.py] are numpy arrays, and [bayes_opt] and [openMDAO] report numpy
    [float64] values.  The methods of [Tire] run the same code on such
    values, but every division is a numpy division: [Dm/D] with [D = 0] is
    an infinity (or NaN) instead of a [ZeroDivisionError], so [Lr] is a
    float that may be infinite or NaN, and no method raises.  [Pre] and
    [SI] keep their Python defaults. *)
Module np_models.

Record Tire : Type := mkTire {
  Pre : string;
  SI : R;
  PR : R;
  Dm : R;
  Wm : R;
  D : R;
  DF : R;
  Lr : fl
}.

(** [Tire(...)] with the keyword arguments [Pre], [SI], [PR], [Dm], [Wm], [D],
    [DF], [RD] and [FH]. *)
Definition Tire_init (Pre0 : string) (SI0 PR0 Dm0 Wm0 D0 DF0 RD0 FH0 : R) : Tire :=
  let D1 := if is_zero D0 then RD0 else D0 in
  let DF1 := if is_zero DF0 then D1 + 2 * FH0 else DF0 in
  mkTire Pre0 SI0 PR0 Dm0 Wm0 D1 DF1 (npdiv (Num Dm0) (Num D1)).

(** [Tire(PR=PR, Dm=Dm, Wm=Wm, D=D, DF=DF)] *)
Definition new_tire (PR0 Dm0 Wm0 D0 DF0 : R) : Tire :=
  Tire_init EmptyString 0 PR0 Dm0 Wm0 D0 DF0 0 0.

(** [get_key_dim] *)
Definition get_key_dim (t : Tire) : list R := [t.(PR); t.(Dm); t.(Wm); t.(D); t.(DF)].

(** [Tire.__eq__]: all attributes equal ([nan == nan] is [False]). *)
Definition tire_eqb (t1 t2 : Tire) : bool :=
  String.eqb t1.(Pre) t2.(Pre) && Reqb t1.(SI) t2.(SI) && Reqb t1.(PR) t2.(PR)
  && Reqb t1.(Dm) t2.(Dm) && Reqb t1.(Wm) t2.(Wm) && Reqb t1.(D) t2.(D)
  && Reqb t1.(DF) t2.(DF) && feqb t1.(Lr) t2.(Lr).

(** [ground_contact_area(b)] *)
Definition ground_contact_area (t : Tire) (b : R) : fl :=
  let d := b * (t.(Dm) - t.(DF)) / 2 in
  fmul (Num (0.77 * constants.pi * d)) (fsqrt (Num ((t.(Dm) - d) * (t.(Wm) - d)))).

(** [ratio_of_ends_per_inch] *)
Definition ratio_of_ends_per_inch (t : Tire) : fl :=
  let Lr := t.(Lr) in
  if flt (Num 1.5) Lr && flt Lr (Num 2.2) then fsub (Num 1.475) (fmul (Num 0.331) Lr)
  else if fle (Num 2.2) Lr && flt Lr (Num 5) then
    fadd (fsub (fadd (fsub (fadd (fmul (Num (-0.007651)) (fpow Lr 5))
                                 (fmul (Num 0.14362) (fpow Lr 4)))
                           (fmul (Num 1.0668308) (fpow Lr 3)))
                     (fmul (Num 3.9519228) (fpow Lr 2)))
               (fmul (Num 7.4168297) Lr))
         (Num 6.3261135)
  else if fle Lr (Num 1.5) then fsub (Num 1.475) (fmul (Num 0.331) Lr)
  else
    Num (-0.007651 * 5 ^ 5
         + 0.14362 * 5 ^ 4
         - 1.0668308 * 5 ^ 3
         + 3.9519228 * 5 ^ 2
         - 7.4168297 * 5
         + 6.3261135).

(** [pressure_index] *)
Definition pressure_index (t : Tire) : fl :=
  let Re := ratio_of_ends_per_inch t in
  let Ne := t.(PR) - 0.4 in
  let T0 := 4.4 in
  let a := (t.(Dm) - t.(D)) / 4 in
  let Q := fadd (Num 2.5) (npdiv (Num t.(D)) (Num (2 * t.(Dm)))) in
  let S := fmul (Num a) Q in
  let F0 := F0_poly t.(D) in
  npdiv (fmul (fmul (fmul (Num 40) Re) (Num T0)) (Num Ne)) (fmul S (Num F0)).

(** [load_supporting_capability] *)
Definition load_supporting_capability (t : Tire) : fl :=
  if Rltb t.(Wm) 5.5 then Num t.(PR)
  else npdiv (Num (10.4 * t.(PR) ^ 2)) (Num (t.(Wm) ^ 2)).

(** [max_load_capacity(exact)] *)
Definition max_load_capacity (t : Tire) (exact : bool) : fl :=
  let A := ground_contact_area t 0.32 in
  let Lm := fmul A (fadd (pressure_index t) (load_supporting_capability t)) in
  if exact then Lm
  else fmul (fround (npdiv Lm (Num 25))) (Num 25).

(** [inflation_pressure] *)
Definition inflation_pressure (t : Tire) : fl :=
  let Pc := load_supporting_capability t in
  let P := if String.eqb t.(Pre) "B" || String.eqb t.(Pre) "H"
              || (negb (is_zero t.(SI)) && Rleb t.(SI) 160)
           then
             let b := 0.35 in
             fsub (npdiv (npdiv (max_load_capacity t false) (Num (b + 0.45)))
                         (ground_contact_area t b)) Pc
           else pressure_index t in
  let X := if flt (Num 100) P then Num 0.5 else fsub (fmul (Num 0.01) P) (Num 0.5) in
  fadd (fadd P (fmul X Pc)) (Num 3).

(** [inflation_medium_mass()] with its default arguments. *)
Definition inflation_medium_mass (t : Tire) : fl :=
  let P_amb := 14.7 in
  let T := 298.15 in
  let M_gas := 28.0134 in
  let P_gas := inflation_pressure t in
  let P_abs := fmul (fadd P_gas (Num P_amb)) (Num constants.psi) in
  let H := (t.(Dm) - t.(D)) / 2 in
  let V := constants.pi ^ 2 * t.(Wm) * H * (t.(D) + H) / 4 * constants.inch ^ 3 in
  npdiv (npdiv (npdiv (fmul (fmul P_abs (Num V)) (Num M_gas))
                      (Num constants.R_gas)) (Num T)) (Num 1000).

(** [cord_tension_walter()] with its default arguments. *)
Definition cord_tension_walter (t : Tire) : fl :=
  let n_ply := fceil (Num (t.(PR) / 8)) in
  let N := 1360 in
  let m_1 := 71e-6 in
  let rho := 0.9 in
  let beta_c := 30 * constants.degree in
  let beta_s := 45 * constants.degree in
  let r_c := t.(Dm) / 2 in
  let r_w := t.(Dm) / 2 - (t.(Dm) - t.(D)) / 4 in
  let rho_w := npdiv (Num r_w) (Num r_c) in
  let omega := npdiv (Num (t.(SI) * (constants.mile / constants.inch / constants.hour)))
                     (Num r_c) in
  let Omega := npdiv (fmul (Num r_c) (fpow omega 2)) (inflation_pressure t) in
  let num :=
    fmul (fmul (fmul (Num constants.pi) (inflation_pressure t)) (Num (r_c ^ 2)))
         (fadd (fmul (fsub (Num 1) (fpow rho_w 2)) (Num (cos beta_c)))
               (fmul (fmul (Num m_1) Omega) (Num (psi_w rho beta_c - psi_w 1 beta_c)))) in
  let tt := npdiv num (fmul (fmul (Num N) n_ply) (Num (1 - rho ^ 2 * sin beta_s ^ 2))) in
  fmul tt (Num constants.lbf).

(** [cord_tension_netting()] with its default arguments. *)
Definition cord_tension_netting (t : Tire) : fl :=
  let n_ply := fceil (Num (t.(PR) / 8)) in
  let N := 1540 in
  let alpha := 30 in
  let phi := 90 in
  let tt :=
    npdiv (npdiv (fmul (npdiv (fmul (Num constants.pi) (inflation_pressure t))
                              (fmul (Num N) n_ply))
                       (Num ((t.(Dm) / 2) ^ 2 - (t.(Dm) / 2 - (t.(Dm) - t.(D)) / 4) ^ 2)))
                 (Num (sin (alpha * constants.degree))))
          (Num (sin (phi * constants.degree))) in
  fmul tt (Num constants.lbf).

(** [is_mech_feasible(model)] with [N=0, n_ply=0, break_load=338.0]. *)
Definition is_mech_feasible (t : Tire) (model : string) : M bool :=
  tt <- (if String.eqb model "walter" then ret (cord_tension_walter t)
         else if String.eqb model "netting" then ret (cord_tension_netting t)
         else Raise ValueError) ;;
  ret (flt tt (Num 338.0)).

(** [is_geo_valid(dim, req_Lm)] (randSearch.py) on numpy dimensions. *)
Definition is_geo_valid (dim : list R) (req_Lm : R) : M (option Tire) :=
  match dim with
  | [PR0; Dm0; Wm0; D0; DF0] =>
      let asp := npdiv (Num ((Dm0 - D0) / 2)) (Num Wm0) in
      if Rleb Dm0 DF0 || Rleb DF0 D0 || flt asp (Num 0.5) || flt (Num 1) asp then ret None
      else
        let t := new_tire PR0 Dm0 Wm0 D0 DF0 in
        if flt (max_load_capacity t true) (Num req_Lm) then ret None
        else
          ok <- is_mech_feasible t "walter" ;;
          if ok then ret (Some t) else ret None
  | _ => Raise ValueError
  end.

(** [PSO_Particle.calc_obj()] (pso.py), on the particle's position
    [[PR, Dm, Wm, D, DF]] and its [req_Lm]. *)
Definition calc_obj (position : list R) (req_Lm : R) : M fl :=
  p1 <- idx position 1 ;;
  p3 <- idx position 3 ;;
  p2 <- idx position 2 ;;
  let asp_ratio := npdiv (Num ((p1 - p3) / 2)) (Num p2) in
  p4 <- idx position 4 ;;
  if Rleb p1 p4 || Rleb p4 p3 || flt asp_ratio (Num 0.5) || flt (Num 1) asp_ratio then ret PInf
  else
    p0 <- idx position 0 ;;
    let t := new_tire p0 p1 p2 p3 p4 in
    if flt (max_load_capacity t true) (Num req_Lm) then ret PInf
    else
      ok <- is_mech_feasible t "walter" ;;
      if negb ok then ret PInf
      else ret (inflation_medium_mass t).

(** [objective_func(Dm, Wm, D, DF, PR)] inside [_bayesOps_opt] (bayesOps.py). *)
Definition objective_func (req_Lm : R) (Dm0 Wm0 D0 DF0 PR0 : R) : M fl :=
  let asp := npdiv (Num ((Dm0 - D0) / 2)) (Num Wm0) in
  if Rleb Dm0 DF0 || Rleb DF0 D0 || flt asp (Num 0.5) || flt (Num 1) asp
  then ret (Num bayes_penalty)
  else
    let t := new_tire PR0 Dm0 Wm0 D0 DF0 in
    if flt (max_load_capacity t false) (Num req_Lm) then ret (Num bayes_penalty)
    else
      ok <- is_mech_feasible t "walter" ;;
      if negb ok then ret (Num bayes_penalty)
      else ret (fneg (inflation_medium_mass t)).

End np_models.

(** A tire of Python floats seen as one of numpy scalars. *)
Definition to_np (t : Tire) : np_models.Tire :=
  np_models.mkTire t.(Pre) t.(SI) t.(PR) t.(Dm) t.(Wm) t.(D) t.(DF) (Num t.(Lr)).

(** A [Tire] of the random search: built from Python floats ([init_dim],
    and every tire of [rs_continuous]) or from numpy scalars (the draws and
    moves of [rs_discrete]). *)
Inductive ATire : Type :=
| PyT (t : Tire)
| NpT (t : np_models.Tire).

Definition a_np (t : ATire) : np_models.Tire :=
  match t with PyT t => to_np t | NpT t => t end.

Definition a_is_np (t : ATire) : bool :=
  match t with PyT _ => false | NpT _ => true end.

Definition a_key_dim (t : ATire) : list R :=
  match t with PyT t => get_key_dim t | NpT t => np_models.get_key_dim t end.

Definition a_mass (t : ATire) : M fl :=
  match t with
  | PyT t => inflation_medium_mass t
  | NpT t => ret (np_models.inflation_medium_mass t)
  end.

(** [Tire.__eq__]: [==] compares a Python float and a numpy scalar by value. *)
Definition atire_eqb (t1 t2 : ATire) : bool := np_models.tire_eqb (a_np t1) (a_np t2).

(** A division [a / b] of masses: a numpy division as soon as one of them
    comes from a numpy tire, else a division of Python floats. *)
Definition a_div (numpy : bool) (a b : fl) : M fl :=
  if numpy then ret (npdiv a b) else pydiv a b.

(** [is_geo_valid] on numpy or on Python dimensions. *)
Definition a_is_geo_valid (numpy : bool) (dim : list R) (req_Lm : R) : M (option ATire) :=
  if numpy then (o <- np_models.is_geo_valid dim req_Lm ;; ret (option_map NpT o))
  else (o <- is_geo_valid dim req_Lm ;; ret (option_map PyT o)).

(* ------------------------------------------------------------------ *)
(** ** Randomness, clock and the strategy monad *)

(** Positions in the stream of [np.random.rand()] draws and in the stream
    of [time.time()] readings. *)
Record St : Type := mkSt { rng_pos : nat; clk_pos : nat }.

Definition SM (A : Type) : Type := St -> M (A * St).

Definition sret {A} (a : A) : SM A := fun s => Ok (a, s).
Definition sbind {A B} (m : SM A) (k : A -> SM B) : SM B :=
  fun s => match m s with
           | Ok (a, s') => k a s'
           | Raise e => Raise e
           end.
Definition lift {A} (m : M A) : SM A :=
  fun s => match m with
           | Ok a => Ok (a, s)
           | Raise e => Raise e
           end.
Definition sraise {A} (e : exn) : SM A := fun _ => Raise e.

Notation "x <-- m ;; k" := (sbind m (fun x => k))
  (at level 61, m at next level, right associativity).

Fixpoint smapM {A B} (f : A -> SM B) (l : list A) : SM (list B) :=
  match l with
  | [] => sret []
  | a :: l' => b <-- f a ;; bs <-- smapM f l' ;; sret (b :: bs)
  end.

(** The design variables, in the order of [design_var] and of the keys the
    strategies read from [scopes]. *)
Inductive var : Type := vPR | vDm | vWm | vD | vDF.

Definition design_var : list var := [vPR; vDm; vWm; vD; vDF].

(** [itertools.product([-1, 0, 1], repeat=n)], in its lexicographic order. *)
Fixpoint product_moves (n : nat) : list (list Z) :=
  match n with
  | O => [[]]
  | S k => flat_map (fun x => map (cons x) (product_moves k)) [(-1)%Z; 0%Z; 1%Z]
  end.

Definition move_options : list (list Z) := product_moves (List.length design_var).

(** [np.where(arr == x)[0][0]] *)
Fixpoint np_where_first (arr : list R) (x : R) : M nat :=
  match arr with
  | [] => Raise IndexError
  | y :: arr' => if Reqb y x then ret O else (i <- np_where_first arr' x ;; ret (S i))
  end.

(** The new coordinates of a move in the continuous space ([rs_continuous]):
    [None] when a coordinate leaves its scope ([valid_move = False]). *)
Fixpoint cont_move_dim (scopes : var -> R * R) (step_size : R) (vars : list var)
    (ind : nat) (curr_best_dim : list R) (move : list Z) : M (option (list R)) :=
  match vars with
  | [] => ret (Some [])
  | v :: vs =>
      c <- idx curr_best_dim ind ;;
      m <- idx move ind ;;
      let move_val := c + IZR m * step_size in
      if Rleb (fst (scopes v)) move_val && Rltb move_val (snd (scopes v)) then
        rest <- cont_move_dim scopes step_size vs (S ind) curr_best_dim move ;;
        ret (option_map (cons move_val) rest)
      else ret None
  end.

(** The same for the discrete space ([rs_discrete]): moves are array-index
    steps of [step_size]. *)
Fixpoint disc_move_dim (scopes : var -> list R) (step_size : Z) (vars : list var)
    (ind : nat) (curr_best_dim : list R) (move : list Z) : M (option (list R)) :=
  match vars with
  | [] => ret (Some [])
  | v :: vs =>
      c <- idx curr_best_dim ind ;;
      scope_ind <- np_where_first (scopes v) c ;;
      m <- idx move ind ;;
      let move_ind := (Z.of_nat scope_ind + m * step_size)%Z in
      if (0 <=? move_ind)%Z && (move_ind <? Z.of_nat (List.length (scopes v)))%Z then
        val <- idx (scopes v) (Z.to_nat move_ind) ;;
        rest <- disc_move_dim scopes step_size vs (S ind) curr_best_dim move ;;
        ret (option_map (cons val) rest)
      else ret None
  end.

(** The inner [for move in move_options] loop: the best tire of the
    hypersphere, starting from [iter_best_tire = curr_best_tire].  The
    dimensions of the moves are numpy scalars when [numpy] is set
    ([rs_discrete]) and Python floats otherwise ([rs_continuous]). *)
Fixpoint explore (numpy : bool) (move_dim : list Z -> M (option (list R))) (req_Lm : R)
    (iter_best : ATire) (moves : list (list Z)) : M ATire :=
  match moves with
  | [] => ret iter_best
  | move :: rest =>
      od <- move_dim move ;;
      match od with
      | None => explore numpy move_dim req_Lm iter_best rest
      | Some temp_dim =>
          tt <- a_is_geo_valid numpy temp_dim req_Lm ;;
          match tt with
          | None => explore numpy move_dim req_Lm iter_best rest
          | Some temp_tire =>
              m1 <- a_mass temp_tire ;;
              m2 <- a_mass iter_best ;;
              if flt m1 m2 then explore numpy move_dim req_Lm temp_tire rest
              else explore numpy move_dim req_Lm iter_best rest
          end
      end
  end.

(** Outcome of one iteration of the random-search loop. *)
Inductive rs_step : Type :=
| Stop (t : ATire)
| Continue (t : ATire).

Section Strategies.

(** The successive values returned by [np.random.rand()] and by
    [time.time()]. *)
Variable urand : nat -> R.
Variable clock : nat -> R.

Definition rand : SM R :=
  fun s => Ok (urand s.(rng_pos), mkSt (S s.(rng_pos)) s.(clk_pos)).

Definition time_now : SM R :=
  fun s => Ok (clock s.(clk_pos), mkSt s.(rng_pos) (S s.(clk_pos))).

(** [np.random.randint(0, n)] *)
Definition randint (n : nat) : SM nat :=
  match n with
  | O => sraise ValueError
  | _ => u <-- rand ;; sret (Z.to_nat (Rfloor (u * INR n)))
  end.

(** [np.random.choice(lst)] *)
Definition choice {A} (l : list A) : SM A :=
  match l with
  | [] => sraise ValueError
  | _ => i <-- randint (List.length l) ;; lift (idx l i)
  end.

(** ** Local random search (randSearch.py) *)

(** Random initial dimensions of [rs_continuous]:
    [np.random.rand() * (scopes[var][1] - scopes[var][0]) + scopes[var][0]]. *)
Definition cont_draw (scopes : var -> R * R) : SM (list R) :=
  smapM (fun v => u <-- rand ;; sret (u * (snd (scopes v) - fst (scopes v)) + fst (scopes v)))
        design_var.

(** Random initial dimensions of [rs_discrete]:
    [scopes[var][np.random.randint(0, len(scopes[var]))]]. *)
Definition disc_draw (scopes : var -> list R) : SM (list R) :=
  smapM (fun v => i <-- randint (List.length (scopes v)) ;; lift (idx (scopes v) i)) design_var.

(** The [while True] loop looking for a valid random starting point:
    [Some tire] on [break], [None] for [return None].  The drawn
    dimensions are numpy scalars when [numpy] is set. *)
Fixpoint rs_init_loop (draw : SM (list R)) (numpy : bool) (fuel : nat)
    (req_Lm runtime start_time : R) : SM (option ATire) :=
  match fuel with
  | O => sraise NoFuel
  | S f =>
      geo_dim <-- draw ;;
      init_tire <-- lift (a_is_geo_valid numpy geo_dim req_Lm) ;;
      match init_tire with
      | Some t => sret (Some t)
      | None =>
          tnow <-- time_now ;;
          if Rleb runtime (tnow - start_time) then sret None
          else rs_init_loop draw numpy f req_Lm runtime start_time
      end
  end.

(** One iteration of [for i in range(n_iter)]. *)
Definition rs_iteration (numpy : bool) (move_dim : list R -> list Z -> M (option (list R)))
    (req_Lm runtime fitness start_time : R) (curr_best_tire : ATire) : SM rs_step :=
  let curr_best_dim := a_key_dim curr_best_tire in
  iter_best_tire <-- lift (explore numpy (move_dim curr_best_dim) req_Lm curr_best_tire
                                   move_options) ;;
  if atire_eqb iter_best_tire curr_best_tire then sret (Stop curr_best_tire)
  else
    mc <-- lift (a_mass curr_best_tire) ;;
    mi <-- lift (a_mass iter_best_tire) ;;
    mc' <-- lift (a_mass curr_best_tire) ;;
    rel <-- lift (a_div (a_is_np curr_best_tire || a_is_np iter_best_tire) (fsub mc mi) mc') ;;
    if fle rel (Num fitness) then sret (Stop iter_best_tire)
    else
      tnow <-- time_now ;;
      if Rleb runtime (tnow - start_time) then sret (Stop iter_best_tire)
      else sret (Continue iter_best_tire).

Fixpoint rs_main_loop (numpy : bool) (move_dim : list R -> list Z -> M (option (list R)))
    (req_Lm runtime fitness start_time : R) (n : nat) (curr_best_tire : ATire) : SM ATire :=
  match n with
  | O => sret curr_best_tire
  | S k =>
      r <-- rs_iteration numpy move_dim req_Lm runtime fitness start_time curr_best_tire ;;
      match r with
      | Stop t => sret t
      | Continue t => rs_main_loop numpy move_dim req_Lm runtime fitness start_time k t
      end
  end.

(** The body shared by [rs_discrete] and [rs_continuous]; [init_dim] is a
    list of Python floats.  After a loop of zero iterations the final
    [print(... .format(i))] raises [NameError]. *)
Definition rs_search (draw : SM (list R)) (numpy : bool)
    (move_dim : list R -> list Z -> M (option (list R)))
    (fuel : nat) (req_Lm : R) (n_iter : nat) (runtime fitness : R) (init_dim : list R)
    : SM (option ATire) :=
  start_time <-- time_now ;;
  init_tire <-- (match init_dim with
                 | [] => sret None
                 | _ => lift (a_is_geo_valid false init_dim req_Lm)
                 end) ;;
  start <-- (match init_tire with
             | Some t => sret (Some t)
             | None => rs_init_loop draw numpy fuel req_Lm runtime start_time
             end) ;;
  match start with
  | None => sret None
  | Some t0 =>
      t <-- rs_main_loop numpy move_dim req_Lm runtime fitness start_time n_iter t0 ;;
      match n_iter with
      | O => sraise NameError
      | _ => sret (Some t)
      end
  end.



(** ** Genetic algorithm (genAlg.py) *)

Record GA_Individual : Type := mkInd { chromosome : list R; fitness : fl }.

(** [GA_Individual(chromosome)] *)
Definition GA_Individual_new (ch : list R) : M GA_Individual :=
  f <- cal_fitness ch ;; ret (mkInd ch f).

Definition mutated_gene (scope : R * R) : SM R :=
  u <-- rand ;; sret (fst scope + u * (snd scope - fst scope)).

Definition create_gnome (req_Lm : R) (scopes : var -> R * R) : SM (list R) :=
  genes <-- smapM (fun v => mutated_gene (scopes v)) design_var ;;
  sret (genes ++ [req_Lm]).

(** [self.chromosome[-1]] *)
Definition last_gene (ch : list R) : M R :=
  match rev ch with
  | [] => Raise IndexError
  | x :: _ => ret x
  end.

(** The loop over [zip(self.chromosome[:-1], par2.chromosome[:-1])]. *)
Fixpoint mate_genes (scopes : var -> R * R) (prob_mutate : R) (i : nat)
    (g1 g2 : list R) : SM (list R) :=
  match g1, g2 with
  | gp1 :: r1, gp2 :: r2 =>
      prob <-- rand ;;
      g <-- (if Rltb prob ((1 - prob_mutate) / 2) then sret gp1
             else if Rltb prob (1 - prob_mutate) then sret gp2
             else (v <-- lift (idx design_var i) ;; mutated_gene (scopes v))) ;;
      rest <-- mate_genes scopes prob_mutate (S i) r1 r2 ;;
      sret (g :: rest)
  | _, _ => sret []
  end.

(** [par1.mate(par2, scopes, prob_mutate)] *)
Definition mate (par1 par2 : GA_Individual) (scopes : var -> R * R) (prob_mutate : R)
    : SM GA_Individual :=
  if Rltb 1 prob_mutate || Rltb prob_mutate 0 then sraise ValueError
  else
    child <-- mate_genes scopes prob_mutate O (removelast par1.(chromosome))
                          (removelast par2.(chromosome)) ;;
    l <-- lift (last_gene par1.(chromosome)) ;;
    lift (GA_Individual_new (child ++ [l])).

(** [sorted(population, key=lambda x: x.fitness)]: a stable sort. *)
Fixpoint insert_by_fitness (x : GA_Individual) (l : list GA_Individual) : list GA_Individual :=
  match l with
  | [] => [x]
  | y :: l' => if flt x.(fitness) y.(fitness) then x :: l else y :: insert_by_fitness x l'
  end.

Definition sort_by_fitness (l : list GA_Individual) : list GA_Individual :=
  fold_left (fun acc x => insert_by_fitness x acc) l [].

(** [while gnome.fitness == float('inf')]: draw fresh chromosomes. *)
Fixpoint ga_init_while (fuel : nat) (req_Lm : R) (scopes : var -> R * R)
    (gnome : GA_Individual) : SM GA_Individual :=
  if feqb gnome.(fitness) PInf then
    match fuel with
    | O => sraise NoFuel
    | S f =>
        ch <-- create_gnome req_Lm scopes ;;
        g <-- lift (GA_Individual_new ch) ;;
        ga_init_while f req_Lm scopes g
    end
  else sret gnome.

(** [for _ in range(pop_size)]: the initial population. *)
Fixpoint ga_init_population (fuel : nat) (req_Lm : R) (scopes : var -> R * R)
    (init_gene : list R) (k : nat) : SM (list GA_Individual) :=
  match k with
  | O => sret []
  | S k' =>
      gnome <-- (match init_gene with
                 | [] => g0 <-- lift (GA_Individual_new [0.01; 0.01; 0.01; 0.01; 0.01; req_Lm]) ;;
                         ga_init_while fuel req_Lm scopes g0
                 | _ => lift (GA_Individual_new init_gene)
                 end) ;;
      rest <-- ga_init_population fuel req_Lm scopes init_gene k' ;;
      sret (gnome :: rest)
  end.

(** [for _ in range(s)]: children of parents drawn from the fitter half. *)
Fixpoint ga_children (n : nat) (population : list GA_Individual) (pop_size : Z)
    (scopes : var -> R * R) (prob_mutate : R) : SM (list GA_Individual) :=
  match n with
  | O => sret []
  | S n' =>
      parent1 <-- choice (firstn (Z.to_nat (pop_size / 2)) population) ;;
      parent2 <-- choice (firstn (Z.to_nat (pop_size / 2)) population) ;;
      child <-- mate parent1 parent2 scopes prob_mutate ;;
      rest <-- ga_children n' population pop_size scopes prob_mutate ;;
      sret (child :: rest)
  end.

(** [Tire(PR=c[0], Dm=c[1], Wm=c[2], D=c[3], DF=c[4])] for the chromosome [c]. *)
Definition tire_of_ind (ind : GA_Individual) : M Tire :=
  c0 <- idx ind.(chromosome) 0 ;; c1 <- idx ind.(chromosome) 1 ;;
  c2 <- idx ind.(chromosome) 2 ;; c3 <- idx ind.(chromosome) 3 ;;
  c4 <- idx ind.(chromosome) 4 ;;
  new_tire c0 c1 c2 c3 c4.

Inductive ga_step : Type :=
| GDone (t : Tire)
| GNext (population : list GA_Individual) (curr_best : fl).

(** One generation of [for i in range(n_iter)]. *)
Definition ga_generation (pop_size : Z) (scopes : var -> R * R)
    (prob_mutate runtime conv_fitness start_time : R)
    (population : list GA_Individual) (curr_best : fl) : SM ga_step :=
  let s := if (pop_size <=? 10)%Z then 1%Z else (pop_size / 10)%Z in
  let elite := firstn (Z.to_nat s) population in
  children <-- ga_children (Z.to_nat (pop_size - s)) population pop_size scopes prob_mutate ;;
  let population' := sort_by_fitness (elite ++ children) in
  best <-- lift (idx population' 0) ;;
  r <-- (if flt best.(fitness) curr_best then
           rel <-- lift (pydiv (fsub curr_best best.(fitness)) curr_best) ;;
           if fle rel (Num conv_fitness) && negb (feqb curr_best PInf) then
             (t <-- lift (tire_of_ind best) ;; sret (inl t))
           else sret (inr best.(fitness))
         else sret (inr curr_best)) ;;
  match r with
  | inl t => sret (GDone t)
  | inr cb =>
      tnow <-- time_now ;;
      if Rleb runtime (tnow - start_time) then
        (t <-- lift (tire_of_ind best) ;; sret (GDone t))
      else sret (GNext population' cb)
  end.

Fixpoint ga_loop (n : nat) (pop_size : Z) (scopes : var -> R * R)
    (prob_mutate runtime conv_fitness start_time : R)
    (population : list GA_Individual) (curr_best : fl) : SM Tire :=
  match n with
  | O => best <-- lift (idx population 0) ;; lift (tire_of_ind best)
  | S k =>
      r <-- ga_generation pop_size scopes prob_mutate runtime conv_fitness start_time
                          population curr_best ;;
      match r with
      | GDone t => sret t
      | GNext p cb => ga_loop k pop_size scopes prob_mutate runtime conv_fitness start_time p cb
      end
  end.

(** [ga_opt(req_Lm, speed_index, scopes, pop_size, prob_mutate, init_gene,
    n_iter, runtime, conv_fitness)]; [fuel] bounds the [while] loop of the
    initialisation. *)
Definition ga_opt (fuel : nat) (req_Lm speed_index : R) (scopes : var -> R * R)
    (pop_size : Z) (prob_mutate : R) (init_gene : list R) (n_iter : nat)
    (runtime conv_fitness : R) : SM Tire :=
  if (pop_size <? 3)%Z then sraise ValueError
  else
    start_time <-- time_now ;;
    population <-- ga_init_population fuel req_Lm scopes init_gene (Z.to_nat pop_size) ;;
    let population := sort_by_fitness population in
    best <-- lift (idx population 0) ;;
    ga_loop n_iter pop_size scopes prob_mutate runtime conv_fitness start_time
            population best.(fitness).

End Strategies.

(** ** Bayesian optimisation (bayesOps.py) *)

(** A design point [{PR, Dm, Wm, D, DF}] reported by an external optimiser
    ([optimizer.max['params']] of [bayes_opt], or the values of the
    [openMDAO] problem after [run_driver]). *)
Record DesignPoint : Type := mkPoint { x_PR : R; x_Dm : R; x_Wm : R; x_D : R; x_DF : R }.

(** The part of [_bayesOps_opt] after [optimizer.maximize]: the tire at
    [optimizer.max['params']] (numpy scalars) is returned if
    [max_load_capacity() >= req_Lm]. *)
Definition bayesOps_final (req_Lm : R) (opt_tire : DesignPoint) : option np_models.Tire :=
  let t := np_models.new_tire opt_tire.(x_PR) opt_tire.(x_Dm) opt_tire.(x_Wm)
                              opt_tire.(x_D) opt_tire.(x_DF) in
  if fle (Num req_Lm) (np_models.max_load_capacity t false) then Some t else None.

(** [while not tire: ... tire = _bayesOps_opt(...)]; [attempt counter] is the
    best point of the optimiser run of that attempt, and [fuel] bounds the
    number of attempts. *)
Fixpoint bayesOps_loop (fuel : nat) (attempt : nat -> DesignPoint) (req_Lm : R)
    (counter : nat) : M np_models.Tire :=
  match fuel with
  | O => Raise NoFuel
  | S f =>
      match bayesOps_final req_Lm (attempt (S counter)) with
      | Some t => ret t
      | None => bayesOps_loop f attempt req_Lm (S counter)
      end
  end.

Definition bayesOps_opt (fuel : nat) (attempt : nat -> DesignPoint) (req_Lm : R)
    : M np_models.Tire :=
  bayesOps_loop fuel attempt req_Lm O.

(** ** Gradient-based optimisation (gradients.py) *)





(** ** Particle swarm optimisation (pso.py) *)

(** [numpy] operations on 1-D arrays of floats: elementwise, with a
    length-1 operand broadcast, and [ValueError] on any other mismatch of
    lengths. *)
Fixpoint zip_with (f : R -> R -> R) (a b : list R) : list R :=
  match a, b with
  | x :: a', y :: b' => f x y :: zip_with f a' b'
  | _, _ => []
  end.

Definition np_binop (f : R -> R -> R) (a b : list R) : M (list R) :=
  if Nat.eqb (List.length a) (List.length b) then ret (zip_with f a b)
  else if Nat.eqb (List.length a) 1 then ret (map (f (hd 0 a)) b)
  else if Nat.eqb (List.length b) 1 then ret (map (fun x => f x (hd 0 b)) a)
  else Raise ValueError.

(** [k * arr] for a scalar [k]. *)
Definition np_scale (k : R) (a : list R) : list R := map (Rmult k) a.

Definition is_nan (x : fl) : bool := match x with NaN => true | _ => false end.

(** [np.argmin]: the index of the first minimum, or of the first NaN;
    [ValueError] on an empty sequence. *)
Fixpoint argmin_from (l : list fl) (i bi : nat) (bv : fl) : nat :=
  match l with
  | [] => bi
  | x :: r => if negb (is_nan bv) && (is_nan x || flt x bv) then argmin_from r (S i) i x
              else argmin_from r (S i) bi bv
  end.

Definition np_argmin (l : list fl) : M nat :=
  match l with
  | [] => Raise ValueError
  | x :: r => ret (argmin_from r 1 O x)
  end.

(** A [PSO_Particle]: its [position], [velocity], [best_position] and
    [best_obj]; its [req_Lm] is part of the objective below. *)
Record PSO_Particle : Type :=
  mkParticle { position : list R; velocity : list R; best_position : list R; best_obj : fl }.

Section PSO.

Variable urand : nat -> R.
Variable clock : nat -> R.

(** [PSO_Particle.calc_obj()] at a position, and the [Tire(PR=pos[0],
    Dm=pos[1], Wm=pos[2], D=pos[3], DF=pos[4])] that [pso_opt] returns;
    [pso_opt_numpy] below instantiates them with [np_models.calc_obj] and
    [position_tire]. *)
Context {TT : Type}.
Variable obj : list R -> M fl.
Variable to_tire : list R -> M TT.

(** [np.random.rand(n)] *)
Definition rand_vec (n : nat) : SM (list R) := smapM (fun _ => rand urand) (seq 0 n).

(** [PSO_Particle(req_Lm, scopes)] *)
Definition PSO_Particle_new (scopes : var -> R * R) : SM PSO_Particle :=
  pos <-- smapM (fun v => u <-- rand urand ;;
                          sret (fst (scopes v) + u * (snd (scopes v) - fst (scopes v)))) design_var ;;
  vel <-- rand_vec (List.length pos) ;;
  b <-- lift (obj pos) ;;
  sret (mkParticle pos vel pos b).

(** [p.update_position(c1, c2, w, gbest_pos)]: the new objective value and
    the updated particle. *)
Definition update_position (c1 c2 w : R) (gbest_pos : list R) (p : PSO_Particle)
    : SM (fl * PSO_Particle) :=
  r1 <-- rand urand ;;
  d1 <-- lift (np_binop Rminus p.(best_position) p.(position)) ;;
  a1 <-- lift (np_binop Rplus (np_scale w p.(velocity)) (np_scale (c1 * r1) d1)) ;;
  r2 <-- rand urand ;;
  d2 <-- lift (np_binop Rminus gbest_pos p.(position)) ;;
  vel <-- lift (np_binop Rplus a1 (np_scale (c2 * r2) d2)) ;;
  pos <-- lift (np_binop Rplus p.(position) vel) ;;
  new_obj <-- lift (obj pos) ;;
  if fle new_obj p.(best_obj) then sret (new_obj, mkParticle pos vel pos new_obj)
  else sret (new_obj, mkParticle pos vel p.(best_position) p.(best_obj)).

(** [while True: p = PSO_Particle(...); if p.best_obj < float('inf'): break] *)
Fixpoint pso_init_while (fuel : nat) (scopes : var -> R * R) : SM PSO_Particle :=
  match fuel with
  | O => sraise NoFuel
  | S f => p <-- PSO_Particle_new scopes ;;
           if flt p.(best_obj) PInf then sret p else pso_init_while f scopes
  end.

(** [for _ in range(n_particles)]: the initial particles. *)
Fixpoint pso_init (fuel : nat) (scopes : var -> R * R) (n : nat) : SM (list PSO_Particle) :=
  match n with
  | O => sret []
  | S k => p <-- pso_init_while fuel scopes ;;
           rest <-- pso_init fuel scopes k ;;
           sret (p :: rest)
  end.

(** [for p in particles]: [inl tire] on [return], else the updated
    particles with the global best position and objective.
    [global_best_obj] is a numpy scalar or [float('inf')], so the relative
    improvement is an [npdiv]. *)
Fixpoint pso_sweep (c1 c2 w runtime conv_fitness st : R) (todo done : list PSO_Particle)
    (gpos : list R) (gobj : fl) : SM (TT + (list PSO_Particle * list R * fl)) :=
  match todo with
  | [] => sret (inr (rev done, gpos, gobj))
  | p :: rest =>
      r <-- update_position c1 c2 w gpos p ;;
      let (pbest, p') := r in
      g <-- (if flt pbest gobj then
               if fle (npdiv (fsub gobj pbest) gobj) (Num conv_fitness) then
                 (t <-- lift (to_tire p'.(position)) ;; sret (inl t))
               else sret (inr (p'.(position), pbest))
             else sret (inr (gpos, gobj))) ;;
      match g with
      | inl t => sret (inl t)
      | inr (gpos', gobj') =>
          tnow <-- time_now clock ;;
          if Rleb runtime (tnow - st) then (t <-- lift (to_tire p'.(position)) ;; sret (inl t))
          else pso_sweep c1 c2 w runtime conv_fitness st rest (p' :: done) gpos' gobj'
      end
  end.

(** [for i in range(n_iter)], then the tire at [global_best_position]. *)
Fixpoint pso_loop (c1 c2 w runtime conv_fitness st : R) (n : nat)
    (particles : list PSO_Particle) (gpos : list R) (gobj : fl) : SM TT :=
  match n with
  | O => lift (to_tire gpos)
  | S k =>
      r <-- pso_sweep c1 c2 w runtime conv_fitness st particles [] gpos gobj ;;
      match r with
      | inl t => sret t
      | inr (ps, gp, go) => pso_loop c1 c2 w runtime conv_fitness st k ps gp go
      end
  end.

(** [pso_opt(req_Lm, speed_index, scopes, n_particles, c1, c2, w, n_iter,
    runtime, conv_fitness)]; [fuel] bounds each [while] loop of the
    initialisation. *)
Definition pso_opt (fuel : nat) (scopes : var -> R * R) (n_particles : Z) (c1 c2 w : R)
    (n_iter : nat) (runtime conv_fitness : R) : SM TT :=
  particles <-- pso_init fuel scopes (Z.to_nat n_particles) ;;
  ind_best <-- lift (np_argmin (map best_obj particles)) ;;
  gb <-- lift (idx particles ind_best) ;;
  st <-- time_now clock ;;
  pso_loop c1 c2 w runtime conv_fitness st n_iter particles gb.(position) gb.(best_obj).

End PSO.



(** ** Invariants of the strategies *)

(** [b] does not come before [a] in [sorted(..., key=lambda x: x.fitness)]. *)
Definition fit_le (a b : GA_Individual) : Prop := flt b.(fitness) a.(fitness) = false.

(** A [GA_Individual] as its constructor builds it: its [fitness] is the
    [cal_fitness()] of its [chromosome]. *)
Definition ind_ok (c : GA_Individual) : Prop := cal_fitness c.(chromosome) = Ok c.(fitness).

(** [t] is [c], or its inflation medium is strictly lighter. *)
Definition no_heavier (t c : ATire) : Prop :=
  t = c \/ exists mt mc, a_mass t = Ok mt /\ a_mass c = Ok mc /\ flt mt mc = true.

(** A position with a finite objective value [v]. *)
Definition pso_ok (obj : list R -> M fl) (pos : list R) (v : fl) : Prop :=
  obj pos = Ok v /\ flt v PInf = true.

(** A tire returned by [pso_opt] started at [st]: built from a position of
    finite objective, or returned once the runtime limit was reached. *)
Definition pso_result {TT : Type} (obj : list R -> M fl) (to_tire : list R -> M TT)
    (clock : nat -> R) (runtime st : R) (t : TT) : Prop :=
  exists pos, to_tire pos = Ok t /\
    ((exists v, pso_ok obj pos v) \/ (exists k, runtime <= clock k - st)).

(* ================================================================== *)
(** * Concrete inputs

    Data of the concrete runs used below: tires, scopes and the points
    reported by the external optimisers. *)

(** [Tire(PR=PR, Dm=21, Wm=7, D=10, DF=12)], with [Lr = 2.1]. *)
Definition T21 (PR0 : R) : Tire := mkTire EmptyString 0 PR0 21 7 10 12 (21 / 10).

(** Its [pressure_index], [load_supporting_capability], [inflation_pressure]
    and [inflation_medium_mass], as the code computes them. *)
Definition P21 (PR0 : R) : R :=
  40 * (1.475 - 0.331 * (21 / 10)) * 4.4 * (PR0 - 0.4) /
  ((21 - 10) / 4 * (2.5 + 10 / (2 * 21)) * F0_poly 10).

Definition Pc21 (PR0 : R) : R := 10.4 * PR0 ^ 2 / 7 ^ 2.

Definition Ip21 (PR0 : R) : R := P21 PR0 + 0.5 * Pc21 PR0 + 3.

Definition mass21 (PR0 : R) : R :=
  (Ip21 PR0 + 14.7) * constants.psi *
  (constants.pi ^ 2 * 7 * ((21 - 10) / 2) * (10 + (21 - 10) / 2) / 4 * constants.inch ^ 3) *
  28.0134 / constants.R_gas / 298.15 / 1000.

(** Scopes of a continuous random search around [T21 11] with step 1: only
    [PR] can move, and only down. *)
Definition scopes9 (v : var) : R * R :=
  match v with
  | vPR => (10, 11.5)
  | vDm => (21, 21.5)
  | vWm => (7, 7.5)
  | vD => (10, 10.5)
  | vDF => (12, 12.5)
  end.




(** The dimensions each move reaches from [[11; 21; 7; 10; 12]] in [scopes9]. *)
Definition expected9 (m : list Z) : option (list R) :=
  if list_eq_dec Z.eq_dec m [(-1)%Z; 0%Z; 0%Z; 0%Z; 0%Z] then Some [10; 21; 7; 10; 12]
  else if list_eq_dec Z.eq_dec m [0%Z; 0%Z; 0%Z; 0%Z; 0%Z] then Some [11; 21; 7; 10; 12]
  else None.

(** A tire of negative dimensions that passes the geometry checks:
    [Tire(PR=10, Dm=-1, Wm=1, D=-3, DF=-2)]. *)
Definition Tneg : Tire := mkTire EmptyString 0 10 (-1) 1 (-3) (-2) (-1 / -3).

(** A design whose flanges reach the mean diameter ([DF = Dm]): its contact
    area, hence its load capacity, is 0. *)
Definition pflat : DesignPoint := mkPoint 10 21 7 10 21.



(** The point [T21 10]. *)
Definition p21 : DesignPoint := mkPoint 10 21 7 10 12.

(** A tire that only carries a rim ratio [Lr]. *)
Definition tire_with_Lr (x : R) : Tire := mkTire EmptyString 0 0 0 0 0 0 x.

(** The move generator of [rs_continuous] on [scopes9] with step size 1. *)
Definition md9 := cont_move_dim scopes9 1 design_var O.

(** A GA chromosome [[PR, Dm, Wm, D, DF, req_Lm]] with [DF >= Dm]. *)
Definition gene25 : list R := [10; 21; 7; 10; 25; 1000].



(** The candidates of a Bayesian optimisation whose first [B] attempts end
    on [pflat] and whose later attempts end on [p21]. *)
Definition late21 (B : nat) (k : nat) : DesignPoint := if (k <=? B)%nat then pflat else p21.

(** [Tire(PR=10, Dm=21, Wm=7, D=10, DF=21)]: flanges at the mean diameter. *)
Definition Tflat : Tire := mkTire EmptyString 0 10 21 7 10 21 (21 / 10).

(** A [GA_Individual] of chromosome [gene25]. *)
Definition ind25 : GA_Individual := mkInd gene25 PInf.

(** A particle at the origin of a one-dimensional space. *)
Definition particle0 : PSO_Particle := mkParticle [0] [0] [0] (Num 1).

(* ================================================================== *)
(** * Lemmas *)

(** ** Real comparisons and float operations *)

Lemma Rltb_t (a b : R) : a < b -> Rltb a b = true.
Proof. intro H. unfold Rltb. destruct (Rlt_dec a b); [reflexivity | contradiction]. Qed.

Lemma Rltb_f (a b : R) : b <= a -> Rltb a b = false.
Proof. intro H. unfold Rltb. destruct (Rlt_dec a b); [lra | reflexivity]. Qed.

Lemma Rleb_t (a b : R) : a <= b -> Rleb a b = true.
Proof. intro H. unfold Rleb. destruct (Rle_dec a b); [reflexivity | contradiction]. Qed.

Lemma Rleb_f (a b : R) : b < a -> Rleb a b = false.
Proof. intro H. unfold Rleb. destruct (Rle_dec a b); [lra | reflexivity]. Qed.

Lemma Reqb_t (a b : R) : a = b -> Reqb a b = true.
Proof. intro H. unfold Reqb. destruct (Req_dec_T a b); [reflexivity | contradiction]. Qed.

Lemma Reqb_f (a b : R) : a <> b -> Reqb a b = false.
Proof. intro H. unfold Reqb. destruct (Req_dec_T a b); [contradiction | reflexivity]. Qed.

Lemma Rltb_spec (a b : R) : Rltb a b = true <-> a < b.
Proof. unfold Rltb. destruct (Rlt_dec a b); split; intro; (reflexivity || lra || discriminate). Qed.

Lemma Rleb_spec (a b : R) : Rleb a b = true <-> a <= b.
Proof. unfold Rleb. destruct (Rle_dec a b); split; intro; (reflexivity || lra || discriminate). Qed.

(** Decide the closed comparisons of a goal that [lra] settles. *)
Ltac rtest :=
  repeat first
    [ rewrite Rltb_t by lra | rewrite Rltb_f by lra
    | rewrite Rleb_t by lra | rewrite Rleb_f by lra
    | rewrite Reqb_t by lra | rewrite Reqb_f by lra ].

Lemma pydivR_ok (x y : R) : y <> 0 -> pydivR x y = Ok (x / y).
Proof. intro H. unfold pydivR. rewrite Reqb_f by exact H. reflexivity. Qed.

Lemma pydivR_zero (x : R) : pydivR x 0 = Raise ZeroDivisionError.
Proof. unfold pydivR. rewrite Reqb_t by reflexivity. reflexivity. Qed.

Lemma pydiv_num (x y : R) : y <> 0 -> pydiv (Num x) (Num y) = Ok (Num (x / y)).
Proof. intro H. unfold pydiv, npdiv. rewrite Reqb_f by exact H. reflexivity. Qed.

Lemma npdiv_num (x y : R) : y <> 0 -> npdiv (Num x) (Num y) = Num (x / y).
Proof. intro H. unfold npdiv. rewrite Reqb_f by exact H. reflexivity. Qed.

Lemma fsqrt_nonneg (x : R) : 0 <= x -> fsqrt (Num x) = Num (sqrt x).
Proof. intro H. unfold fsqrt. rewrite Rltb_f by exact H. reflexivity. Qed.

Lemma fsqrt_neg (x : R) : x < 0 -> fsqrt (Num x) = NaN.
Proof. intro H. unfold fsqrt. rewrite Rltb_t by exact H. reflexivity. Qed.

(** ** Floor and round half to even *)

Lemma Rfloor_spec (y : R) : IZR (Rfloor y) <= y < IZR (Rfloor y) + 1.
Proof.
  unfold Rfloor. destruct (archimed y) as [H1 H2].
  rewrite minus_IZR. lra.
Qed.

Lemma Rfloor_unique (y : R) (z : Z) : IZR z <= y < IZR z + 1 -> Rfloor y = z.
Proof.
  intros [H1 H2]. unfold Rfloor.
  assert (E : up y = (z + 1)%Z).
  { symmetry. apply tech_up; rewrite plus_IZR; lra. }
  rewrite E. lia.
Qed.

Lemma Rceil_unique (y : R) (z : Z) : IZR z - 1 < y <= IZR z -> Rceil y = z.
Proof.
  intros [H1 H2]. unfold Rceil.
  rewrite (Rfloor_unique (- y) (- z)); [lia |].
  rewrite opp_IZR. lra.
Qed.

(** Integers around [Rfloor y]. *)
Lemma Z_around (f j : Z) : (j <= f - 1 \/ j = f \/ j = f + 1 \/ f + 2 <= j)%Z.
Proof. lia. Qed.

Lemma IZR_le_pred (f j : Z) : (j <= f - 1)%Z -> IZR j <= IZR f - 1.
Proof. intro H. apply IZR_le in H. rewrite minus_IZR in H. exact H. Qed.

Lemma IZR_ge_add2 (f j : Z) : (f + 2 <= j)%Z -> IZR f + 2 <= IZR j.
Proof. intro H. apply IZR_le in H. rewrite plus_IZR in H. exact H. Qed.

Ltac rabs_lra :=
  unfold Rabs in *;
  repeat match goal with
         | |- context [Rcase_abs ?x] => destruct (Rcase_abs x)
         | H : context [Rcase_abs ?x] |- _ => destruct (Rcase_abs x)
         end;
  lra.

(** [np.round] returns an integer nearest to its argument ... *)
Lemma round_half_even_nearest (y : R) (j : Z) :
  Rabs (y - IZR (round_half_even y)) <= Rabs (y - IZR j).
Proof.
  pose proof (Rfloor_spec y) as Hf.
  unfold round_half_even.
  set (f := Rfloor y) in *.
  destruct (Z_around f j) as [Hj | [Hj | [Hj | Hj]]];
    [apply IZR_le_pred in Hj | subst j | subst j | apply IZR_ge_add2 in Hj];
    repeat rewrite plus_IZR;
    unfold Rltb; destruct (Rlt_dec (y - IZR f) (1 / 2));
    try destruct (Rlt_dec (1 / 2) (y - IZR f));
    try destruct (Z.even f); rewrite ?plus_IZR; rabs_lra.
Qed.

(** ... and, of two nearest integers, the even one. *)
Lemma round_half_even_tie (y : R) (j : Z) :
  j <> round_half_even y ->
  Rabs (y - IZR (round_half_even y)) = Rabs (y - IZR j) ->
  Z.even (round_half_even y) = true.
Proof.
  pose proof (Rfloor_spec y) as Hf.
  unfold round_half_even.
  set (f := Rfloor y) in *.
  intros Hne Heq.
  destruct (Z_around f j) as [Hj | [Hj | [Hj | Hj]]];
    [apply IZR_le_pred in Hj | subst j | subst j | apply IZR_ge_add2 in Hj];
    unfold Rltb in *; destruct (Rlt_dec (y - IZR f) (1 / 2));
    try destruct (Rlt_dec (1 / 2) (y - IZR f));
    destruct (Z.even f) eqn:Ef; cbv iota in *; rewrite ?plus_IZR in *;
    try (exfalso; apply Hne; reflexivity);
    try (exfalso; rabs_lra);
    try exact Ef;
    rewrite Z.even_add, Ef; reflexivity.
Qed.

Lemma round_half_even_lower (y : R) : y - 1 < IZR (round_half_even y).
Proof.
  pose proof (Rfloor_spec y) as Hf.
  unfold round_half_even.
  destruct (Rltb _ _); [lra |].
  destruct (Rltb _ _); [rewrite plus_IZR; lra |].
  destruct (Z.even _); [lra | rewrite plus_IZR; lra].
Qed.

(** The example of the specification: [5162.5] lies halfway between
    [5150] and [5175]; [np.round(5162.5 / 25) * 25] is [5150]. *)
Lemma round_half_even_5162_5 : round_half_even (5162.5 / 25) = 206%Z.
Proof.
  unfold round_half_even.
  rewrite (Rfloor_unique (5162.5 / 25) 206) by lra.
  rtest. reflexivity.
Qed.

(** ** Further arithmetic facts *)

Lemma div_le_bound (n d a b : R) : n <= a -> 0 <= a -> 0 < b <= d -> n / d <= a / b.
Proof.
  intros H1 H2 [H3 H4]. unfold Rdiv.
  apply Rle_trans with (a * / d).
  - apply Rmult_le_compat_r; [left; apply Rinv_0_lt_compat; lra | exact H1].
  - apply Rmult_le_compat_l; [exact H2 |]. apply Rinv_le_contravar; lra.
Qed.

Lemma sqrt_ge (x c : R) : 0 <= c -> c * c <= x -> c <= sqrt x.
Proof.
  intros H1 H2. rewrite <- (sqrt_square c) by exact H1.
  apply sqrt_le_1_alt. exact H2.
Qed.

Lemma pi_gt_3 : 3 < constants.pi.
Proof. pose proof PI2_3_2. unfold constants.pi. lra. Qed.

Lemma ceil_PR8 (PR0 : R) : 8 < PR0 <= 16 -> IZR (Rceil (PR0 / 8)) = 2.
Proof. intro H. rewrite (Rceil_unique (PR0 / 8) 2) by lra. reflexivity. Qed.

Lemma is_mech_feasible_walter (t : Tire) :
  is_mech_feasible t "walter" = (tt <- cord_tension_walter t ;; ret (flt tt (Num 338.0))).
Proof. reflexivity. Qed.

(** ** The tire [T21 PR] *)

Lemma new_tire_T21 (PR0 : R) : new_tire PR0 21 7 10 12 = Ok (T21 PR0).
Proof.
  unfold new_tire, Tire_init, is_zero. rtest.
  rewrite pydivR_ok by lra. reflexivity.
Qed.

Lemma F0_10 : F0_poly 10 = 1.44666596.
Proof. unfold F0_poly. lra. Qed.

Lemma P21_gt_100 (PR0 : R) : 10 <= PR0 -> 100 < P21 PR0.
Proof. intro H. unfold P21. rewrite F0_10. lra. Qed.

Lemma pressure_index_T21 (PR0 : R) : pressure_index (T21 PR0) = Ok (P21 PR0).
Proof.
  unfold pressure_index, ratio_of_ends_per_inch. cbn [T21 Lr Dm D PR]. rtest. cbn [andb].
  rewrite pydivR_ok by lra. cbn [bind].
  rewrite pydivR_ok by (rewrite F0_10; lra). reflexivity.
Qed.

Lemma lsc_T21 (PR0 : R) : load_supporting_capability (T21 PR0) = Ok (Pc21 PR0).
Proof.
  unfold load_supporting_capability. cbn [T21 Wm PR]. rtest.
  rewrite pydivR_ok by lra. reflexivity.
Qed.

Lemma inflation_pressure_T21 (PR0 : R) :
  10 <= PR0 -> inflation_pressure (T21 PR0) = Ok (Num (Ip21 PR0)).
Proof.
  intro H. pose proof (P21_gt_100 PR0 H).
  unfold inflation_pressure. rewrite lsc_T21. cbn [bind].
  unfold is_zero. cbn [T21 Pre SI]. rtest. cbn [String.eqb orb negb andb].
  rewrite pressure_index_T21. cbn [bind ret flt]. rtest. cbn [fadd fmul].
  reflexivity.
Qed.

Lemma Ip21_bounds (PR0 : R) : 10 <= PR0 <= 11 -> 0 < Ip21 PR0 <= 150.
Proof. intro H. unfold Ip21, Pc21, P21. rewrite F0_10. nra. Qed.

Lemma tension_T21 (PR0 : R) : 10 <= PR0 <= 11 ->
  exists x, cord_tension_walter (T21 PR0) = Ok (Num x) /\ x < 338.
Proof.
  intro H. pose proof (Ip21_bounds PR0 H) as HI.
  unfold cord_tension_walter. cbn [T21 Dm D PR SI].
  rewrite ceil_PR8 by lra.
  rewrite pydivR_ok by lra. cbn [bind].
  rewrite pydivR_ok by lra. cbn [bind].
  rewrite inflation_pressure_T21 by lra. cbn [bind].
  rewrite pydiv_num by lra.
  cbn [bind fmul fadd].
  set (sn := sin (45 * constants.degree)).
  assert (Hs : sn ^ 2 <= 1)
    by (pose proof (SIN_bound (45 * constants.degree)) as Hb; fold sn in Hb; nra).
  rewrite npdiv_num by nra. cbn [ret].
  eexists; split; [reflexivity |].
  set (cs := cos (30 * constants.degree)).
  set (K := 71e-6 * _ * _).
  assert (HK : K = 0) by (unfold K; unfold Rdiv; ring).
  rewrite HK, Rplus_0_r.
  assert (Hc : constants.pi * cs <= 4).
  { pose proof (COS_bound (30 * constants.degree)) as Hb. fold cs in Hb.
    pose proof PI_4. pose proof PI_RGT_0. unfold constants.pi. nra. }
  set (C := (21 / 2) ^ 2 * (1 - ((21 / 2 - (21 - 10) / 4) / (21 / 2)) ^ 2)).
  assert (HC : C = 441 / 4 * (803 / 1764)) by (unfold C; field).
  replace (constants.pi * Ip21 PR0 * (21 / 2) ^ 2 *
           ((1 - ((21 / 2 - (21 - 10) / 4) / (21 / 2)) ^ 2) * cs))
    with (Ip21 PR0 * (constants.pi * cs) * C) by (unfold C; ring).
  rewrite HC.
  assert (HQ : Ip21 PR0 * (constants.pi * cs) <= 600) by nra.
  apply Rle_lt_trans with (600 * (441 / 4 * (803 / 1764)) / (1360 * 2 * 0.19) * constants.lbf).
  - apply Rmult_le_compat_r; [unfold constants.lbf, constants.pound, constants.g; lra |].
    apply div_le_bound; lra.
  - unfold constants.lbf, constants.pound, constants.g. lra.
Qed.

Lemma mlc_T21 (PR0 : R) : 10 <= PR0 <= 11 ->
  exists L, max_load_capacity (T21 PR0) true = Ok (Num L) /\ 4000 <= L.
Proof.
  intro H. pose proof (P21_gt_100 PR0 (proj1 H)).
  unfold max_load_capacity, ground_contact_area.
  rewrite pressure_index_T21, lsc_T21. cbn [bind ret T21 Dm DF Wm].
  rewrite fsqrt_nonneg by lra. cbn [fmul].
  eexists; split; [reflexivity |].
  set (r := sqrt _).
  assert (Hr : 10 <= r) by (apply sqrt_ge; lra).
  pose proof pi_gt_3.
  assert (Hpr : 30 <= constants.pi * r) by nra.
  assert (HP : 140 <= P21 PR0 + Pc21 PR0) by (unfold P21, Pc21; rewrite F0_10; nra).
  replace (0.77 * constants.pi * (0.32 * (21 - 12) / 2) * r * (P21 PR0 + Pc21 PR0))
    with (0.77 * (0.32 * (21 - 12) / 2) * (constants.pi * r) * (P21 PR0 + Pc21 PR0)) by ring.
  nra.
Qed.

Lemma consts_nonzero : constants.R_gas <> 0 /\ (298.15 : R) <> 0 /\ (1000 : R) <> 0.
Proof. unfold constants.R_gas. repeat split; lra. Qed.

Lemma mass_T21 (PR0 : R) : 10 <= PR0 ->
  inflation_medium_mass (T21 PR0) = Ok (Num (mass21 PR0)).
Proof.
  intro H. pose proof consts_nonzero as [H1 [H2 H3]].
  unfold inflation_medium_mass. rewrite inflation_pressure_T21 by lra.
  cbn [bind ret fmul fadd T21 Dm D Wm].
  rewrite !npdiv_num by assumption. reflexivity.
Qed.

Lemma mass21_factor (PR0 : R) :
  mass21 PR0 = (Ip21 PR0 + 14.7) *
    (constants.psi * (constants.pi ^ 2 * 7 * ((21 - 10) / 2) * (10 + (21 - 10) / 2) / 4
     * constants.inch ^ 3) * 28.0134 / constants.R_gas / 298.15 / 1000).
Proof. unfold mass21. pose proof consts_nonzero as [H1 _]. field. split; [exact H1 | lra]. Qed.

Lemma mass21_coef_pos :
  0 < constants.psi * (constants.pi ^ 2 * 7 * ((21 - 10) / 2) * (10 + (21 - 10) / 2) / 4
       * constants.inch ^ 3) * 28.0134 / constants.R_gas / 298.15 / 1000.
Proof.
  pose proof PI_RGT_0.
  unfold constants.psi, constants.lbf, constants.pound, constants.g, constants.inch,
    constants.R_gas, constants.pi.
  assert (HX : 0 < PI ^ 2) by (apply pow_lt; exact H).
  set (X := PI ^ 2) in *. lra.
Qed.

Lemma mass21_lt : mass21 10 < mass21 11.
Proof.
  rewrite !mass21_factor. apply Rmult_lt_compat_r; [exact mass21_coef_pos |].
  unfold Ip21, Pc21, P21. rewrite F0_10. lra.
Qed.

Lemma mass21_pos (PR0 : R) : 10 <= PR0 <= 11 -> 0 < mass21 PR0.
Proof.
  intro H. rewrite mass21_factor. pose proof (Ip21_bounds PR0 H).
  apply Rmult_lt_0_compat; [lra | exact mass21_coef_pos].
Qed.

Lemma is_geo_valid_T21 (PR0 req : R) : 10 <= PR0 <= 11 -> req <= 4000 ->
  is_geo_valid [PR0; 21; 7; 10; 12] req = Ok (Some (T21 PR0)).
Proof.
  intros H Hr. unfold is_geo_valid.
  rewrite pydivR_ok by lra. cbn [bind]. rtest. cbn [orb].
  rewrite new_tire_T21. cbn [bind].
  destruct (mlc_T21 PR0 H) as [L [HL HL4]]. rewrite HL. cbn [bind flt]. rtest.
  rewrite is_mech_feasible_walter.
  destruct (tension_T21 PR0 H) as [x [Hx Hx338]]. rewrite Hx. cbn [bind ret flt]. rtest.
  reflexivity.
Qed.

(** ** Comparisons of floats *)

Lemma flt_irrefl (a : fl) : flt a a = false.
Proof. destruct a; cbn [flt]; try reflexivity. apply Rltb_f. lra. Qed.

Lemma flt_trans (a b c : fl) : flt a b = true -> flt b c = true -> flt a c = true.
Proof.
  destruct a, b, c; cbn [flt]; try discriminate; try reflexivity.
  rewrite !Rltb_spec. intros; lra.
Qed.

Lemma flt_asym (a b : fl) : flt a b = true -> flt b a = false.
Proof.
  intro H. destruct (flt b a) eqn:E; [| reflexivity].
  pose proof (flt_trans a b a H E) as F. rewrite flt_irrefl in F. discriminate F.
Qed.

(** ** The neighbourhood of random search *)

Lemma NoDup_map_cons (x : Z) (l : list (list Z)) : NoDup l -> NoDup (map (cons x) l).
Proof.
  induction 1 as [|a l Ha Hl IH]; cbn [map]; constructor; [| exact IH].
  intro Hin. apply in_map_iff in Hin as [b [Eb Hb]]. injection Eb as ->. contradiction.
Qed.

Lemma product_moves_nodup (n : nat) : NoDup (product_moves n).
Proof.
  induction n as [|n IH]; cbn [product_moves flat_map].
  - repeat constructor. intros [].
  - rewrite app_nil_r.
    apply NoDup_app; [apply NoDup_map_cons, IH | |].
    + apply NoDup_app; [apply NoDup_map_cons, IH | apply NoDup_map_cons, IH |].
      intros a H1 H2. apply in_map_iff in H1 as [b [<- _]].
      apply in_map_iff in H2 as [c [E _]]. discriminate.
    + intros a H1 H2. apply in_map_iff in H1 as [b [<- _]].
      apply in_app_or in H2 as [H2 | H2];
        apply in_map_iff in H2 as [c [E _]]; discriminate.
Qed.

Lemma product_moves_in (n : nat) (m : list Z) :
  In m (product_moves n) <->
  List.length m = n /\ Forall (fun z => z = (-1)%Z \/ z = 0%Z \/ z = 1%Z) m.
Proof.
  revert m. induction n as [|n IH]; intro m; cbn [product_moves].
  - split.
    + intros [<- | []]. split; [reflexivity | constructor].
    + intros [H _]. destruct m; [left; reflexivity | discriminate].
  - rewrite in_flat_map. split.
    + intros [x [Hx Hm]]. apply in_map_iff in Hm as [m' [<- Hm']].
      apply IH in Hm' as [Hl Hf]. cbn [List.length]. split; [rewrite Hl; reflexivity |].
      constructor; [| exact Hf].
      destruct Hx as [<- | [<- | [<- | []]]]; auto.
    + intros [Hl Hf]. destruct m as [|z m']; [discriminate |].
      inversion Hf as [|? ? Hz Hf']; subst.
      exists z. split.
      * destruct Hz as [-> | [-> | ->]]; cbn; auto.
      * apply in_map. apply IH. split; [injection Hl; auto | exact Hf'].
Qed.

(** ** [explore] *)

Lemma explore_app numpy md req ib l1 l2 :
  explore numpy md req ib (l1 ++ l2) = bind (explore numpy md req ib l1) (fun ib' => explore numpy md req ib' l2).
Proof.
  revert ib. induction l1 as [|m l1 IH]; intro ib; [reflexivity|].
  cbn [app explore]. destruct (md m) as [[dim|]|e]; cbn [bind]; [| apply IH | reflexivity].
  destruct (a_is_geo_valid numpy dim req) as [[t|]|e]; cbn [bind]; [| apply IH | reflexivity].
  destruct (a_mass t) as [m1|e]; cbn [bind]; [| reflexivity].
  destruct (a_mass ib) as [m2|e]; cbn [bind]; [| reflexivity].
  destruct (flt m1 m2); apply IH.
Qed.

Lemma explore_skip numpy md req ib l :
  Forall (fun m => md m = Ok None) l -> explore numpy md req ib l = Ok ib.
Proof.
  intro H. revert ib. induction H as [|m l Hm Hl IH]; intro ib; [reflexivity|].
  cbn [explore]. rewrite Hm. cbn [bind]. apply IH.
Qed.

Lemma explore_ext numpy md md' req ib l :
  Forall (fun m => md m = md' m) l -> explore numpy md req ib l = explore numpy md' req ib l.
Proof.
  intro H. revert ib. induction H as [|m l Hm Hl IH]; intro ib; [reflexivity|].
  cbn [explore]. rewrite Hm. destruct (md' m) as [[dim|]|e]; cbn [bind]; [| apply IH | reflexivity].
  destruct (a_is_geo_valid numpy dim req) as [[t|]|e]; cbn [bind]; [| apply IH | reflexivity].
  destruct (a_mass t) as [m1|e]; cbn [bind]; [| reflexivity].
  destruct (a_mass ib) as [m2|e]; cbn [bind]; [| reflexivity].
  destruct (flt m1 m2); apply IH.
Qed.

(** The tire [explore] returns is its start or a tire accepted by
    [a_is_geo_valid] at an in-bounds move, of strictly lower mass than the
    start; and no in-bounds feasible neighbour has a strictly lower mass. *)
Lemma explore_best numpy md req l : forall ib0 ib,
  explore numpy md req ib0 l = Ok ib ->
  (ib = ib0 \/
   (exists m dim, In m l /\ md m = Ok (Some dim) /\ a_is_geo_valid numpy dim req = Ok (Some ib)) /\
   (exists mb m0, a_mass ib = Ok mb /\ a_mass ib0 = Ok m0 /\
                  flt mb m0 = true)) /\
  (forall m dim t', In m l -> md m = Ok (Some dim) -> a_is_geo_valid numpy dim req = Ok (Some t') ->
     exists mt mb, a_mass t' = Ok mt /\ a_mass ib = Ok mb /\
                   flt mt mb = false).
Proof.
  induction l as [|m l IH]; intros ib0 ib H.
  - cbn [explore ret] in H. injection H as <-. split; [left; reflexivity | intros ? ? ? []].
  - cbn [explore] in H.
    destruct (md m) as [[dim|]|e] eqn:Emd in H; cbn [bind] in H; [| | discriminate H].
    + destruct (a_is_geo_valid numpy dim req) as [[t|]|e] eqn:Eg in H; cbn [bind] in H; [| | discriminate H].
      * destruct (a_mass t) as [m1|e] eqn:E1 in H; cbn [bind] in H; [| discriminate H].
        destruct (a_mass ib0) as [m2|e] eqn:E2 in H; cbn [bind] in H; [| discriminate H].
        destruct (flt m1 m2) eqn:Elt in H.
        -- destruct (IH t ib H) as [[-> | [[m' [dim' [Hin [Hmd Hg]]]] [mb [m0 [Hb [H0 Hlt]]]]]] Hall].
           ++ split.
              ** right. split; [exists m, dim; split; [left; reflexivity | split; assumption] |].
                 exists m1, m2. auto.
              ** intros m' dim' t' [<- | Hin] Hmd Hg.
                 --- rewrite Emd in Hmd. injection Hmd as <-. rewrite Eg in Hg.
                     injection Hg as <-. exists m1, m1. split; [exact E1 |].
                     split; [exact E1 | apply flt_irrefl].
                 --- exact (Hall m' dim' t' Hin Hmd Hg).
           ++ rewrite E1 in H0. injection H0 as <-. split.
              ** right. split; [exists m', dim'; split; [right; exact Hin | split; assumption] |].
                 exists mb, m2. exact (conj Hb (conj E2 (flt_trans _ _ _ Hlt Elt))).
              ** intros m'' dim'' t' [<- | Hin'] Hmd' Hg'.
                 --- rewrite Emd in Hmd'. injection Hmd' as <-. rewrite Eg in Hg'.
                     injection Hg' as <-. exists m1, mb. split; [exact E1 |].
                     split; [exact Hb | apply flt_asym, Hlt].
                 --- exact (Hall m'' dim'' t' Hin' Hmd' Hg').
        -- destruct (IH ib0 ib H) as [Hcase Hall]. split.
           ++ destruct Hcase as [-> | [[m' [dim' [Hin [Hmd Hg]]]] Hlt]]; [left; reflexivity |].
              right. split; [exists m', dim'; split; [right; exact Hin | split; assumption] |].
              exact Hlt.
           ++ intros m' dim' t' [<- | Hin] Hmd Hg.
              ** rewrite Emd in Hmd. injection Hmd as <-. rewrite Eg in Hg. injection Hg as <-.
                 destruct Hcase as [-> | [_ [mb [m0 [Hb [H0 Hlt]]]]]].
                 --- exists m1, m2. auto.
                 --- rewrite E2 in H0. injection H0 as <-. exists m1, mb.
                     split; [exact E1 |]. split; [exact Hb |].
                     destruct (flt m1 mb) eqn:E; [| reflexivity].
                     rewrite (flt_trans _ _ _ E Hlt) in Elt. discriminate.
              ** exact (Hall m' dim' t' Hin Hmd Hg).
      * destruct (IH ib0 ib H) as [Hcase Hall]. split.
        -- destruct Hcase as [-> | [[m' [dim' [Hin [Hmd Hg]]]] Hlt]]; [left; reflexivity |].
           right. split; [exists m', dim'; split; [right; exact Hin | split; assumption] |].
           exact Hlt.
        -- intros m' dim' t' [<- | Hin] Hmd Hg.
           ++ rewrite Emd in Hmd. injection Hmd as <-. rewrite Eg in Hg. discriminate Hg.
           ++ exact (Hall m' dim' t' Hin Hmd Hg).
    + destruct (IH ib0 ib H) as [Hcase Hall]. split.
      * destruct Hcase as [-> | [[m' [dim' [Hin [Hmd Hg]]]] Hlt]]; [left; reflexivity |].
        right. split; [exists m', dim'; split; [right; exact Hin | split; assumption] |].
        exact Hlt.
      * intros m' dim' t' [<- | Hin] Hmd Hg.
        -- rewrite Emd in Hmd. discriminate Hmd.
        -- exact (Hall m' dim' t' Hin Hmd Hg).
Qed.

(** ** One iteration of random search from [T21 11] *)

Lemma move_options_split9 :
  move_options = firstn 40 move_options ++ [(-1)%Z; 0%Z; 0%Z; 0%Z; 0%Z] ::
                 firstn 80 (skipn 41 move_options) ++ [0%Z; 0%Z; 0%Z; 0%Z; 0%Z] ::
                 skipn 122 move_options.
Proof. vm_compute. reflexivity. Qed.

Lemma none9 (l : list (list Z)) :
  forallb (fun m => match expected9 m with None => true | Some _ => false end) l = true ->
  Forall (fun m => Ok (expected9 m) = @Ok (option (list R)) None) l.
Proof.
  induction l as [|m l IH]; intro H; constructor.
  - cbn [forallb] in H. destruct (expected9 m); [discriminate | reflexivity].
  - cbn [forallb] in H. apply andb_prop in H. apply IH, H.
Qed.

Ltac rtest_prune :=
  repeat (first [ rewrite Rltb_t by lra | rewrite Rltb_f by lra
    | rewrite Rleb_t by lra | rewrite Rleb_f by lra ]; cbn [andb]).

Lemma move_dim9 :
  Forall (fun m => cont_move_dim scopes9 1 design_var O [11; 21; 7; 10; 12] m = Ok (expected9 m)) move_options.
Proof.
  unfold move_options. cbn [product_moves flat_map map app design_var List.length].
  repeat (apply Forall_cons;
    [ cbn -[IZR Rleb Rltb Rplus Rmult]; rtest_prune;
      cbn -[IZR Rplus Rmult]; unfold ret; try reflexivity; repeat f_equal; lra | ]).
  apply Forall_nil.
Qed.

Lemma explore9_expected (req : R) : req <= 4000 ->
  explore false (fun m => Ok (expected9 m)) req (PyT (T21 11)) move_options = Ok (PyT (T21 10)).
Proof.
  intro Hr. rewrite move_options_split9.
  rewrite explore_app, explore_skip by (apply none9; vm_compute; reflexivity).
  cbn [bind explore].
  change (expected9 [(-1)%Z; 0%Z; 0%Z; 0%Z; 0%Z]) with (Some [10; 21; 7; 10; 12]). cbv beta iota.
  unfold a_is_geo_valid. rewrite is_geo_valid_T21 by lra. cbn [bind ret option_map a_mass].
  rewrite !mass_T21 by lra. cbn [bind flt].
  rewrite (Rltb_t _ _ mass21_lt).
  rewrite explore_app, explore_skip by (apply none9; vm_compute; reflexivity).
  cbn [bind explore].
  change (expected9 [0%Z; 0%Z; 0%Z; 0%Z; 0%Z]) with (Some [11; 21; 7; 10; 12]). cbv beta iota.
  unfold a_is_geo_valid. rewrite is_geo_valid_T21 by lra. cbn [bind ret option_map a_mass].
  rewrite !mass_T21 by lra. cbn [bind flt].
  rewrite (Rltb_f _ _ (Rlt_le _ _ mass21_lt)).
  apply explore_skip. apply none9; vm_compute; reflexivity.
Qed.

Lemma rs_iteration_cases clock numpy md req runtime fitness start c s r s' :
  rs_iteration clock numpy md req runtime fitness start c s = Ok (r, s') ->
  exists ib, explore numpy (md (a_key_dim c)) req c move_options = Ok ib /\
   (atire_eqb ib c = true -> r = Stop c /\ s' = s) /\
   (atire_eqb ib c = false -> exists mc mi rel,
       a_mass c = Ok mc /\ a_mass ib = Ok mi /\
       a_div (a_is_np c || a_is_np ib) (fsub mc mi) mc = Ok rel /\
       (fle rel (Num fitness) = true -> r = Stop ib /\ s' = s) /\
       (fle rel (Num fitness) = false ->
          s' = mkSt (rng_pos s) (S (clk_pos s)) /\
          r = (if Rleb runtime (clock (clk_pos s) - start) then Stop ib else Continue ib))).
Proof.
  unfold rs_iteration, sbind, lift, sret, time_now.
  destruct (explore numpy (md (a_key_dim c)) req c move_options) as [ib|e]; [| discriminate].
  intro H. exists ib. split; [reflexivity |].
  destruct (atire_eqb ib c).
  - injection H as <- <-. split; [auto | discriminate].
  - split; [discriminate | intros _].
    destruct (a_mass c) as [mc|e] eqn:Ec in H; [| discriminate].
    destruct (a_mass ib) as [mi|e] eqn:Ei in H; [| discriminate].
    destruct (a_div (a_is_np c || a_is_np ib) (fsub mc mi) mc) as [rel|e] eqn:Er in H;
      [| discriminate].
    exists mc, mi, rel. do 3 (split; [assumption |]).
    destruct (fle rel (Num fitness)).
    + injection H as <- <-. split; [auto | discriminate].
    + split; [discriminate | intros _]. cbn in H.
      destruct (Rleb runtime (clock (clk_pos s) - start)); injection H as <- <-; auto.
Qed.

Lemma rs_main_loop_step clock numpy md req runtime fitness start k c s t s1 :
  rs_iteration clock numpy md req runtime fitness start c s = Ok (Continue t, s1) ->
  rs_main_loop clock numpy md req runtime fitness start (S k) c s =
  rs_main_loop clock numpy md req runtime fitness start k t s1.
Proof. intro H. cbn [rs_main_loop]. unfold sbind. rewrite H. reflexivity. Qed.

Lemma explore_md9 (req : R) : req <= 4000 ->
  explore false (md9 (a_key_dim (PyT (T21 11)))) req (PyT (T21 11)) move_options
  = Ok (PyT (T21 10)).
Proof.
  intro Hr. rewrite (explore_ext _ _ (fun m => Ok (expected9 m))).
  - apply explore9_expected, Hr.
  - exact move_dim9.
Qed.

Lemma tire_eqb_T21 : atire_eqb (PyT (T21 10)) (PyT (T21 11)) = false.
Proof.
  unfold atire_eqb, np_models.tire_eqb, a_np, to_np, T21. cbn [Pre SI PR np_models.Pre
    np_models.SI np_models.PR]. rewrite (Reqb_t 0 0), (Reqb_f 10 11) by lra.
  reflexivity.
Qed.

Lemma rs_iteration9 clock req runtime fitness start s : req <= 4000 ->
  rs_iteration clock false md9 req runtime fitness start (PyT (T21 11)) s =
  (if Rleb ((mass21 11 + - mass21 10) / mass21 11) fitness then Ok (Stop (PyT (T21 10)), s)
   else if Rleb runtime (clock (clk_pos s) - start)
   then Ok (Stop (PyT (T21 10)), mkSt (rng_pos s) (S (clk_pos s)))
   else Ok (Continue (PyT (T21 10)), mkSt (rng_pos s) (S (clk_pos s)))).
Proof.
  intro Hr. unfold rs_iteration. unfold sbind at 1, lift at 1. rewrite (explore_md9 req Hr).
  rewrite tire_eqb_T21. unfold sbind, lift. cbn [a_mass a_is_np orb a_div].
  rewrite !mass_T21 by lra.
  cbn [fsub fadd fneg]. rewrite pydiv_num by (pose proof (mass21_pos 11); lra).
  cbn [fle]. destruct (Rleb _ fitness); [reflexivity |].
  unfold time_now, sret. cbn. destruct (Rleb runtime _); reflexivity.
Qed.

(** ** Feasibility gates *)

Lemma mech_walter_ok (t : Tire) :
  is_mech_feasible t "walter" = Ok true ->
  exists tt, cord_tension_walter t = Ok tt /\ flt tt (Num 338.0) = true.
Proof.
  rewrite is_mech_feasible_walter. destruct (cord_tension_walter t) as [tt|e]; cbn [bind ret];
    [| discriminate]. intro H. injection H as H. exists tt. auto.
Qed.

Lemma np_mech_walter_ok (t : np_models.Tire) (b : bool) :
  np_models.is_mech_feasible t "walter" = Ok b ->
  flt (np_models.cord_tension_walter t) (Num 338.0) = b.
Proof. unfold np_models.is_mech_feasible. cbn. intro H. injection H as H. exact H. Qed.

Lemma idx_nth {A} (l : list A) (i : nat) (a d : A) : idx l i = Ok a -> nth i l d = a.
Proof.
  unfold idx. destruct (nth_error l i) eqn:E; [| discriminate].
  intro H. injection H as <-. apply nth_error_nth, E.
Qed.

(** Case analysis on a hypothesis [gate ... = Ok v]: split every [bind]
    and every test, discarding the branches that raise. *)
Ltac gate_inv H :=
  unfold bind, ret in H;
  repeat (cbv beta iota in H;
    match type of H with
    | match ?m with Ok _ => _ | Raise _ => _ end = _ =>
        let E := fresh "E" in destruct m eqn:E in H; [| discriminate H]
    | (if negb ?b then _ else _) = _ => let E := fresh "E" in destruct b eqn:E in H; cbn [negb] in H
    | (if ?b then _ else _) = _ => let E := fresh "E" in destruct b eqn:E in H
    end).

(** Close the branches of [gate_inv] that return a rejection, without
    unfolding the real-number computations. *)
Ltac gate_leaf H :=
  lazymatch type of H with
  | Ok ?a = Ok ?b =>
      injection H as H; try discriminate H;
      try (subst; lazymatch goal with
                  | Hv : ?x <> ?x |- _ => exact (False_ind _ (Hv eq_refl))
                  end)
  | _ => idtac
  end.

(** ** The genetic algorithm on [gene25] *)

Lemma cal_fitness_gene25 : cal_fitness gene25 = Ok PInf.
Proof.
  unfold cal_fitness, gene25. cbn [idx nth_error bind].
  rewrite pydivR_ok by lra. cbn [bind]. rewrite (Rleb_t 21 25) by lra. reflexivity.
Qed.

Lemma new_tire_25 : new_tire 10 21 7 10 25 = Ok (mkTire EmptyString 0 10 21 7 10 25 (21 / 10)).
Proof.
  unfold new_tire, Tire_init, is_zero. rewrite (Reqb_f 10 0), (Reqb_f 25 0) by lra.
  rewrite pydivR_ok by lra. reflexivity.
Qed.

Lemma ga_init_population_gene urand fuel req scopes g k ind s :
  g <> [] -> GA_Individual_new g = Ok ind ->
  ga_init_population urand fuel req scopes g k s = Ok (repeat ind k, s).
Proof.
  intros Hg Hi. induction k as [|k IH]; [reflexivity |].
  cbn [ga_init_population]. destruct g as [|x g]; [contradiction |].
  unfold sbind at 1, lift. rewrite Hi. unfold sbind. rewrite IH. reflexivity.
Qed.

(** ** Random search returns accepted tires *)





Lemma Rleb_false (a b : R) : Rleb a b = false -> b < a.
Proof. unfold Rleb. destruct (Rle_dec a b); [discriminate | intros _; lra]. Qed.

Lemma Rltb_false (a b : R) : Rltb a b = false -> b <= a.
Proof. unfold Rltb. destruct (Rlt_dec a b); [discriminate | intros _; lra]. Qed.


(** ** Tires of Python floats and of numpy scalars

    Where the Python-float code returns without raising, the same code on
    numpy scalars returns the same values. *)

Lemma Reqb_false (a b : R) : Reqb a b = false -> a <> b.
Proof. unfold Reqb. destruct (Req_dec_T a b); [discriminate | intros _; assumption]. Qed.


Lemma Tire_init_np Pre0 SI0 PR0 Dm0 Wm0 D0 DF0 RD0 FH0 t :
  Tire_init Pre0 SI0 PR0 Dm0 Wm0 D0 DF0 RD0 FH0 = Ok t ->
  np_models.Tire_init Pre0 SI0 PR0 Dm0 Wm0 D0 DF0 RD0 FH0 = to_np t.
Proof.
  unfold Tire_init, np_models.Tire_init, pydivR. cbv zeta.
  destruct (Reqb (if is_zero D0 then RD0 else D0) 0) eqn:E; cbn [bind ret]; [discriminate |].
  intro H. injection H as <-. unfold to_np, npdiv. cbn [Pre SI PR Dm Wm D DF Lr].
  rewrite E. reflexivity.
Qed.

Lemma new_tire_np PR0 Dm0 Wm0 D0 DF0 t :
  new_tire PR0 Dm0 Wm0 D0 DF0 = Ok t -> np_models.new_tire PR0 Dm0 Wm0 D0 DF0 = to_np t.
Proof. apply Tire_init_np. Qed.

Lemma ratio_np (t : Tire) :
  np_models.ratio_of_ends_per_inch (to_np t) = Num (ratio_of_ends_per_inch t).
Proof.
  unfold np_models.ratio_of_ends_per_inch, ratio_of_ends_per_inch. cbv zeta.
  cbn [to_np np_models.Lr flt fle].
  destruct (Rltb 1.5 (Lr t)), (Rltb (Lr t) 2.2), (Rleb 2.2 (Lr t)), (Rltb (Lr t) 5),
    (Rleb (Lr t) 1.5); cbn [andb fsub fadd fneg fmul fpow]; f_equal; ring.
Qed.

Lemma pressure_index_np (t : Tire) (P : R) :
  pressure_index t = Ok P -> np_models.pressure_index (to_np t) = Num P.
Proof.
  unfold pressure_index, np_models.pressure_index. cbv zeta. rewrite ratio_np.
  cbn [to_np np_models.D np_models.Dm np_models.PR].
  unfold pydivR at 1. destruct (Reqb (2 * Dm t) 0) eqn:E1; cbn [bind]; [discriminate |].
  rewrite (npdiv_num _ _ (Reqb_false _ _ E1)). cbn [fadd fmul].
  unfold pydivR. clear E1.
  destruct (Reqb ((Dm t - D t) / 4 * (2.5 + D t / (2 * Dm t)) * F0_poly (D t)) 0) eqn:E2;
    [discriminate |].
  intro H. injection H as <-. rewrite (npdiv_num _ _ (Reqb_false _ _ E2)). reflexivity.
Qed.

Lemma lsc_np (t : Tire) (Pc : R) :
  load_supporting_capability t = Ok Pc -> np_models.load_supporting_capability (to_np t) = Num Pc.
Proof.
  unfold load_supporting_capability, np_models.load_supporting_capability.
  cbn [to_np np_models.Wm np_models.PR].
  destruct (Rltb (Wm t) 5.5); [intro H; injection H as <-; reflexivity |].
  unfold pydivR. destruct (Reqb (Wm t ^ 2) 0) eqn:E; [discriminate |].
  intro H. injection H as <-. exact (npdiv_num _ _ (Reqb_false _ _ E)).
Qed.

Lemma gca_np (t : Tire) (b : R) :
  np_models.ground_contact_area (to_np t) b = ground_contact_area t b.
Proof. reflexivity. Qed.

Lemma mlc_np (t : Tire) (exact : bool) (v : fl) :
  max_load_capacity t exact = Ok v -> np_models.max_load_capacity (to_np t) exact = v.
Proof.
  unfold max_load_capacity, np_models.max_load_capacity. cbv zeta.
  destruct (pressure_index t) as [P|e] eqn:EP; cbn [bind]; [| discriminate].
  destruct (load_supporting_capability t) as [Pc|e] eqn:EPc; cbn [bind]; [| discriminate].
  rewrite gca_np, (pressure_index_np _ _ EP), (lsc_np _ _ EPc). cbn [fadd].
  destruct exact; intro H; injection H as <-; reflexivity.
Qed.







(** ** The retry loops *)

Lemma round_half_even_0 : round_half_even 0 = 0%Z.
Proof.
  pose proof (round_half_even_nearest 0 0) as H.
  rewrite Rminus_0_r, Rminus_0_l, Rabs_R0, Rabs_Ropp in H.
  pose proof (Rabs_pos (IZR (round_half_even 0))).
  assert (E : IZR (round_half_even 0) = 0).
  { destruct (Rcase_abs (IZR (round_half_even 0))) as [Hn | Hp].
    - rewrite Rabs_left in H by exact Hn. lra.
    - rewrite Rabs_right in H by exact Hp. lra. }
  apply eq_IZR, E.
Qed.

Lemma new_tire_Tflat : new_tire 10 21 7 10 21 = Ok Tflat.
Proof.
  unfold new_tire, Tire_init, is_zero. rewrite (Reqb_f 10 0), (Reqb_f 21 0) by lra.
  rewrite pydivR_ok by lra. reflexivity.
Qed.

Lemma mlc_Tflat : max_load_capacity Tflat false = Ok (Num 0).
Proof.
  unfold max_load_capacity.
  change (pressure_index Tflat) with (pressure_index (T21 10)). rewrite pressure_index_T21.
  change (load_supporting_capability Tflat) with (load_supporting_capability (T21 10)).
  rewrite lsc_T21. cbn [bind ret].
  unfold ground_contact_area. cbn [Tflat Dm DF Wm].
  replace (0.32 * (21 - 21) / 2) with 0 by lra.
  rewrite fsqrt_nonneg by lra. cbn [fmul].
  replace (0.77 * constants.pi * 0 * sqrt ((21 - 0) * (7 - 0)) * (P21 10 + Pc21 10))
    with 0 by ring.
  rewrite npdiv_num by lra. cbn [fround fmul].
  replace (0 / 25) with 0 by (unfold Rdiv; ring).
  rewrite round_half_even_0. rewrite Rmult_0_l. reflexivity.
Qed.

Lemma bayesOps_final_flat : bayesOps_final 1000 pflat = None.
Proof.
  unfold bayesOps_final, pflat. cbn [x_PR x_Dm x_Wm x_D x_DF].
  rewrite (new_tire_np _ _ _ _ _ _ new_tire_Tflat), (mlc_np _ _ _ mlc_Tflat).
  cbn [fle]. rewrite Rleb_f by lra. reflexivity.
Qed.

Lemma bayesOps_loop_result n attempt req c t :
  bayesOps_loop n attempt req c = Ok t ->
  exists k, (k < n)%nat /\ bayesOps_final req (attempt (S (c + k))) = Some t /\
            (forall j, (j < k)%nat -> bayesOps_final req (attempt (S (c + j))) = None).
Proof.
  revert c. induction n as [|n IH]; intros c H; [discriminate H |].
  cbn [bayesOps_loop] in H.
  destruct (bayesOps_final req (attempt (S c))) as [t'|] eqn:E; cbn [ret] in H.
  - injection H as <-. exists O. rewrite Nat.add_0_r.
    split; [lia |]. split; [exact E | intros j Hj; lia].
  - destruct (IH (S c) H) as [k [Hkn [Hk Hj]]]. exists (S k). split; [lia |]. split.
    + rewrite Nat.add_succ_r. exact Hk.
    + intros j Hjk. destruct j as [|j]; [rewrite Nat.add_0_r; exact E |].
      rewrite Nat.add_succ_r. apply Hj. lia.
Qed.

Lemma bayesOps_loop_none n attempt req c :
  (forall k, bayesOps_final req (attempt k) = None) ->
  bayesOps_loop n attempt req c = Raise NoFuel.
Proof.
  intro H. revert c. induction n as [|n IH]; intro c; [reflexivity |].
  cbn [bayesOps_loop]. rewrite H. apply IH.
Qed.



(** ** Bayesian optimisation on concrete points *)

Lemma mlc_false_of_true (t : Tire) (v : fl) :
  max_load_capacity t true = Ok v ->
  max_load_capacity t false = Ok (fmul (fround (npdiv v (Num 25))) (Num 25)).
Proof.
  unfold max_load_capacity.
  destruct (pressure_index t) as [P|e]; cbn [bind]; [| discriminate].
  destruct (load_supporting_capability t) as [Pc|e]; cbn [bind ret]; [| discriminate].
  intro H. injection H as <-. reflexivity.
Qed.

Lemma mlc_rounded_lower (t : Tire) (L : R) :
  max_load_capacity t true = Ok (Num L) ->
  exists x, max_load_capacity t false = Ok (Num x) /\ L - 25 < x.
Proof.
  intro H. rewrite (mlc_false_of_true t _ H). rewrite npdiv_num by lra.
  cbn [fround fmul]. eexists; split; [reflexivity |].
  pose proof (round_half_even_lower (L / 25)). lra.
Qed.




Lemma bayesOps_final_p21 : bayesOps_final 1000 p21 = Some (to_np (T21 10)).
Proof.
  unfold bayesOps_final, p21. cbn [x_PR x_Dm x_Wm x_D x_DF].
  rewrite (new_tire_np _ _ _ _ _ _ (new_tire_T21 10)).
  destruct (mlc_T21 10) as [L [HL HL']]; [lra |].
  destruct (mlc_rounded_lower _ _ HL) as [x [Hx Hx']]. rewrite (mlc_np _ _ _ Hx).
  cbn [fle]. rewrite Rleb_t by lra. reflexivity.
Qed.


(** ** Results of the retry loops and the random initialisation *)

Lemma bayesOps_final_some req p t :
  bayesOps_final req p = Some t ->
  np_models.new_tire p.(x_PR) p.(x_Dm) p.(x_Wm) p.(x_D) p.(x_DF) = t /\
  fle (Num req) (np_models.max_load_capacity t false) = true.
Proof.
  unfold bayesOps_final.
  destruct (fle (Num req) _) eqn:Ef; intro H; [| discriminate H].
  injection H as <-. split; [reflexivity | exact Ef].
Qed.






(** ** Results of Bayesian optimisation *)

Lemma bayesOps_opt_result n attempt req t :
  bayesOps_opt n attempt req = Ok t ->
  exists k, np_models.new_tire (attempt k).(x_PR) (attempt k).(x_Dm) (attempt k).(x_Wm)
                               (attempt k).(x_D) (attempt k).(x_DF) = t /\
    fle (Num req) (np_models.max_load_capacity t false) = true.
Proof.
  intro H.
  destruct (bayesOps_loop_result n attempt req O t H) as [k [_ [Hk _]]].
  exists (S k). exact (bayesOps_final_some _ _ _ Hk).
Qed.

Lemma bayesOps_loop_late21 (B : nat) : forall m c, (c + m = B)%nat ->
  bayesOps_loop (S m) (late21 B) 1000 c = Ok (to_np (T21 10)).
Proof.
  induction m as [|m IH]; intros c Hc; cbn [bayesOps_loop].
  - unfold late21. replace (S c <=? B)%nat with false by (symmetry; apply Nat.leb_gt; lia).
    rewrite bayesOps_final_p21. reflexivity.
  - unfold late21 at 1. replace (S c <=? B)%nat with true by (symmetry; apply Nat.leb_le; lia).
    rewrite bayesOps_final_flat. apply IH. lia.
Qed.

(** ** Domain failures: [Tneg] and division by zero *)

Lemma gca_sqrt_neg (t : Tire) (b : R) :
  (t.(Dm) - b * (t.(Dm) - t.(DF)) / 2) * (t.(Wm) - b * (t.(Dm) - t.(DF)) / 2) < 0 ->
  ground_contact_area t b = NaN.
Proof.
  intro H. unfold ground_contact_area. rewrite fsqrt_neg by exact H. reflexivity.
Qed.

Lemma mlc_nan (t : Tire) (P Pc : R) :
  ground_contact_area t 0.32 = NaN -> pressure_index t = Ok P ->
  load_supporting_capability t = Ok Pc ->
  max_load_capacity t true = Ok NaN /\ max_load_capacity t false = Ok NaN.
Proof.
  intros HA HP HC. unfold max_load_capacity. rewrite HA, HP, HC. split; reflexivity.
Qed.

Lemma is_geo_valid_nan_accept (PR0 Dm0 Wm0 D0 DF0 req : R) (t : Tire) :
  Wm0 <> 0 -> D0 < DF0 < Dm0 -> 0.5 <= (Dm0 - D0) / 2 / Wm0 <= 1 ->
  new_tire PR0 Dm0 Wm0 D0 DF0 = Ok t -> max_load_capacity t true = Ok NaN ->
  is_mech_feasible t "walter" = Ok true ->
  is_geo_valid [PR0; Dm0; Wm0; D0; DF0] req = Ok (Some t).
Proof.
  intros HW HD Ha Ht HL Hm. unfold is_geo_valid.
  rewrite pydivR_ok by exact HW. cbn [bind]. rtest. cbn [orb].
  rewrite Ht. cbn [bind]. rewrite HL. cbn [bind flt]. rewrite Hm. reflexivity.
Qed.

Lemma is_geo_valid_Wm0 (PR0 Dm0 D0 DF0 req : R) :
  is_geo_valid [PR0; Dm0; 0; D0; DF0] req = Raise ZeroDivisionError.
Proof. unfold is_geo_valid. rewrite pydivR_zero. reflexivity. Qed.

Lemma is_geo_valid_D0 (PR0 Dm0 Wm0 DF0 req : R) :
  Wm0 <> 0 -> 0 < DF0 < Dm0 -> 0.5 <= (Dm0 - 0) / 2 / Wm0 <= 1 ->
  is_geo_valid [PR0; Dm0; Wm0; 0; DF0] req = Raise ZeroDivisionError.
Proof.
  intros HW HD Ha. unfold is_geo_valid.
  rewrite pydivR_ok by exact HW. cbn [bind]. rtest. cbn [orb].
  unfold new_tire, Tire_init, is_zero. rtest.
  rewrite pydivR_zero. reflexivity.
Qed.

Lemma F0_m3 : F0_poly (-3) = 3.2940149210472.
Proof. unfold F0_poly. lra. Qed.

Lemma new_tire_Tneg : new_tire 10 (-1) 1 (-3) (-2) = Ok Tneg.
Proof.
  unfold new_tire, Tire_init, is_zero. rtest.
  rewrite pydivR_ok by lra. reflexivity.
Qed.

Lemma pressure_index_Tneg : exists P, pressure_index Tneg = Ok P /\ 300 < P < 400.
Proof.
  unfold pressure_index, ratio_of_ends_per_inch. cbn [Tneg Lr Dm D PR]. rtest. cbn [andb].
  rewrite pydivR_ok by lra. cbn [bind].
  rewrite F0_m3. rewrite pydivR_ok by lra.
  eexists; split; [reflexivity |]. split; lra.
Qed.

Lemma lsc_Tneg : load_supporting_capability Tneg = Ok 10.
Proof. unfold load_supporting_capability. cbn [Tneg Wm PR]. rtest. reflexivity. Qed.

Lemma inflation_pressure_Tneg :
  exists I, inflation_pressure Tneg = Ok (Num I) /\ 300 < I < 420.
Proof.
  destruct pressure_index_Tneg as [P [HP HPb]].
  unfold inflation_pressure. rewrite lsc_Tneg. cbn [bind].
  unfold is_zero. cbn [Tneg Pre SI]. rtest. cbn [String.eqb orb negb andb].
  rewrite HP. cbn [bind ret flt]. rtest. cbn [fadd fmul].
  eexists; split; [reflexivity | lra].
Qed.

Lemma tension_Tneg : exists x, cord_tension_walter Tneg = Ok (Num x) /\ x < 338.
Proof.
  destruct inflation_pressure_Tneg as [I [HI HIb]].
  unfold cord_tension_walter. cbn [Tneg Dm D PR SI].
  rewrite ceil_PR8 by lra.
  rewrite pydivR_ok by lra. cbn [bind].
  rewrite pydivR_ok by lra. cbn [bind].
  rewrite HI. cbn [bind].
  rewrite pydiv_num by lra.
  cbn [bind fmul fadd].
  set (sn := sin (45 * constants.degree)).
  assert (Hs : sn ^ 2 <= 1)
    by (pose proof (SIN_bound (45 * constants.degree)) as Hb; fold sn in Hb; nra).
  rewrite npdiv_num by nra. cbn [ret].
  eexists; split; [reflexivity |].
  set (cs := cos (30 * constants.degree)).
  set (K := 71e-6 * _ * _).
  assert (HK : K = 0) by (unfold K; unfold Rdiv; ring).
  rewrite HK, Rplus_0_r.
  pose proof (COS_bound (30 * constants.degree)) as Hb. fold cs in Hb.
  pose proof PI_4. pose proof PI_RGT_0.
  assert (Hc : - (constants.pi * cs) <= 4) by (unfold constants.pi; nra).
  replace (constants.pi * I * (-1 / 2) ^ 2 *
           ((1 - ((-1 / 2 - (-1 - -3) / 4) / (-1 / 2)) ^ 2) * cs))
    with (I * - (constants.pi * cs) * (3 / 4)) by (field).
  assert (HQ : I * - (constants.pi * cs) <= 1680) by nra.
  apply Rle_lt_trans with (1680 * (3 / 4) / (1360 * 2 * 0.19) * constants.lbf).
  - apply Rmult_le_compat_r; [unfold constants.lbf, constants.pound, constants.g; lra |].
    apply div_le_bound; lra.
  - unfold constants.lbf, constants.pound, constants.g. lra.
Qed.

Lemma mlc_Tneg : max_load_capacity Tneg true = Ok NaN.
Proof.
  destruct pressure_index_Tneg as [P [HP _]].
  assert (HA : ground_contact_area Tneg 0.32 = NaN)
    by (apply gca_sqrt_neg; cbn [Tneg Dm DF Wm]; nra).
  exact (proj1 (mlc_nan Tneg P 10 HA HP lsc_Tneg)).
Qed.

Lemma is_mech_feasible_Tneg : is_mech_feasible Tneg "walter" = Ok true.
Proof.
  rewrite is_mech_feasible_walter.
  destruct tension_Tneg as [x [Hx Hx338]]. rewrite Hx. cbn [bind ret flt]. rtest.
  reflexivity.
Qed.

Lemma is_geo_valid_Tneg (req : R) : is_geo_valid [10; -1; 1; -3; -2] req = Ok (Some Tneg).
Proof.
  apply is_geo_valid_nan_accept; try lra.
  - exact new_tire_Tneg.
  - exact mlc_Tneg.
  - exact is_mech_feasible_Tneg.
Qed.

(* ================================================================== *)
(** * The claims *)

(** ** Ratio of ends per inch *)

(** C2.  [ratio_of_ends_per_inch] is piecewise in [Lr = Dm/D]: the linear
    formula [1.475 - 0.331 Lr] on [(1.5, 2.2)] and on [Lr <= 1.5] (so [Lr = 1.5]
    and [Lr = 1.5 - eps] use the same linear branch), the degree-5
    polynomial on [[2.2, 5)], and for [Lr >= 5] (so at [5] and at [5 + eps])
    the constant value of that polynomial at [5]: no extrapolation. *)
Theorem ratio_of_ends_per_inch_piecewise (t : Tire) :
  (1.5 < t.(Lr) < 2.2 -> ratio_of_ends_per_inch t = 1.475 - 0.331 * t.(Lr)) /\
  (2.2 <= t.(Lr) < 5 ->
     ratio_of_ends_per_inch t =
       -0.007651 * t.(Lr) ^ 5 + 0.14362 * t.(Lr) ^ 4 - 1.0668308 * t.(Lr) ^ 3
       + 3.9519228 * t.(Lr) ^ 2 - 7.4168297 * t.(Lr) + 6.3261135) /\
  (t.(Lr) <= 1.5 -> ratio_of_ends_per_inch t = 1.475 - 0.331 * t.(Lr)) /\
  (5 <= t.(Lr) ->
     ratio_of_ends_per_inch t =
       -0.007651 * 5 ^ 5 + 0.14362 * 5 ^ 4 - 1.0668308 * 5 ^ 3
       + 3.9519228 * 5 ^ 2 - 7.4168297 * 5 + 6.3261135).
Proof.
  unfold ratio_of_ends_per_inch.
  repeat split; intros; rtest; reflexivity.
Qed.

Lemma ratio_of_ends_per_inch_piecewise_witness :
  ratio_of_ends_per_inch (tire_with_Lr 1.8) = 1.475 - 0.331 * 1.8 /\
  ratio_of_ends_per_inch (tire_with_Lr 3) =
    -0.007651 * 3 ^ 5 + 0.14362 * 3 ^ 4 - 1.0668308 * 3 ^ 3
    + 3.9519228 * 3 ^ 2 - 7.4168297 * 3 + 6.3261135 /\
  ratio_of_ends_per_inch (tire_with_Lr 1.5) = 1.475 - 0.331 * 1.5 /\
  ratio_of_ends_per_inch (tire_with_Lr 5.5) =
    -0.007651 * 5 ^ 5 + 0.14362 * 5 ^ 4 - 1.0668308 * 5 ^ 3
    + 3.9519228 * 5 ^ 2 - 7.4168297 * 5 + 6.3261135.
Proof.
  split; [apply (proj1 (ratio_of_ends_per_inch_piecewise (tire_with_Lr 1.8)));
          cbn [tire_with_Lr Lr]; lra |].
  split; [apply (proj1 (proj2 (ratio_of_ends_per_inch_piecewise (tire_with_Lr 3))));
          cbn [tire_with_Lr Lr]; lra |].
  split; [apply (proj1 (proj2 (proj2 (ratio_of_ends_per_inch_piecewise (tire_with_Lr 1.5)))));
          cbn [tire_with_Lr Lr]; lra |].
  apply (proj2 (proj2 (proj2 (ratio_of_ends_per_inch_piecewise (tire_with_Lr 5.5)))));
    cbn [tire_with_Lr Lr]; lra.
Defined.

(** ** Rounding of the load capacity *)

Lemma Rabs_25 (a : R) : Rabs (25 * a) = 25 * Rabs a.
Proof. rewrite Rabs_mult, (Rabs_right 25) by lra. reflexivity. Qed.

(** C3.  [max_load_capacity(exact=False)] is [max_load_capacity(exact=True)]
    rounded to a multiple [25 k] of 25 with [k] nearest to the exact value
    divided by 25, and on an exact tie (such as [5162.5], see
    [round_half_even_5162_5]) [k] is the even one: one rule for all
    inputs.  An exact value that is NaN or infinite is returned unchanged,
    and an exception of the exact computation is raised by both. *)
Theorem max_load_capacity_rounded (t : Tire) :
  match max_load_capacity t true with
  | Ok (Num x) =>
      exists k : Z,
        max_load_capacity t false = Ok (Num (25 * IZR k)) /\
        (forall j : Z, Rabs (x - 25 * IZR k) <= Rabs (x - 25 * IZR j)) /\
        (forall j : Z, j <> k -> Rabs (x - 25 * IZR k) = Rabs (x - 25 * IZR j) ->
                       Z.even k = true)
  | Ok v => max_load_capacity t false = Ok v
  | Raise e => max_load_capacity t false = Raise e
  end.
Proof.
  unfold max_load_capacity.
  destruct (pressure_index t) as [P|e]; [|reflexivity]. cbn [bind].
  destruct (load_supporting_capability t) as [Pc|e]; [|reflexivity]. cbn [bind ret].
  destruct (fmul _ _) as [x| | |].
  - exists (round_half_even (x / 25)).
    rewrite npdiv_num by lra. cbn [fround fmul].
    split; [rewrite Rmult_comm; reflexivity |].
    split.
    + intro j. pose proof (round_half_even_nearest (x / 25) j) as H.
      replace (x - 25 * IZR (round_half_even (x / 25)))
        with (25 * (x / 25 - IZR (round_half_even (x / 25)))) by field.
      replace (x - 25 * IZR j) with (25 * (x / 25 - IZR j)) by field.
      rewrite !Rabs_25. lra.
    + intros j Hne Heq. apply (round_half_even_tie (x / 25) j Hne).
      replace (x - 25 * IZR (round_half_even (x / 25)))
        with (25 * (x / 25 - IZR (round_half_even (x / 25)))) in Heq by field.
      replace (x - 25 * IZR j) with (25 * (x / 25 - IZR j)) in Heq by field.
      rewrite !Rabs_25 in Heq. lra.
  - unfold npdiv, fround, fmul, inf_times. rtest. reflexivity.
  - unfold npdiv, fround, fmul, inf_times. rtest. reflexivity.
  - reflexivity.
Qed.

(** ** One iteration of random search *)

Lemma rs_iteration9_continue :
  rs_iteration (fun _ => 0) false md9 1000 900 0 0 (PyT (T21 11)) (mkSt 0 0) =
    Ok (Continue (PyT (T21 10)), mkSt 0 1).
Proof.
  rewrite rs_iteration9 by lra. pose proof (mass21_pos 11) as P. pose proof mass21_lt.
  rewrite Rleb_f.
  - cbn [clk_pos rng_pos]. rewrite Rleb_f by lra. reflexivity.
  - apply Rdiv_lt_0_compat; lra.
Qed.

(** C9.  The neighbourhood of one random-search iteration is the list of
    the 243 distinct moves of [product([-1, 0, 1], repeat=5)].  Each move
    the move generator keeps in bounds is checked by [is_geo_valid] (on
    numpy scalars in [rs_discrete], on Python floats in [rs_continuous]);
    the tire kept is the current best or an accepted neighbour of strictly
    lower inflation-medium mass, and no accepted neighbour is strictly
    lighter than it.  If the kept tire equals the current best, the
    iteration stops with it.  Otherwise the relative mass decrease [rel] is
    computed: when [rel <= fitness] it stops with the new tire; otherwise
    it reads the clock and stops with the new tire once [runtime] has
    elapsed, and continues from it if not.  A [Continue] step is followed
    by the next iteration from the new tire. *)
Theorem rs_iteration_neighbourhood :
  List.length move_options = 243%nat /\ NoDup move_options /\
  (forall m, In m move_options <->
     List.length m = 5%nat /\ Forall (fun z => z = (-1)%Z \/ z = 0%Z \/ z = 1%Z) m) /\
  (forall clock numpy md req runtime fitness start c s r s',
     rs_iteration clock numpy md req runtime fitness start c s = Ok (r, s') ->
     exists ib,
       explore numpy (md (a_key_dim c)) req c move_options = Ok ib /\
       (ib = c \/
        (exists m dim, In m move_options /\ md (a_key_dim c) m = Ok (Some dim) /\
                       a_is_geo_valid numpy dim req = Ok (Some ib)) /\
        (exists mb mc, a_mass ib = Ok mb /\ a_mass c = Ok mc /\ flt mb mc = true)) /\
       (forall m dim t', In m move_options -> md (a_key_dim c) m = Ok (Some dim) ->
          a_is_geo_valid numpy dim req = Ok (Some t') ->
          exists mt mb, a_mass t' = Ok mt /\ a_mass ib = Ok mb /\ flt mt mb = false) /\
       (atire_eqb ib c = true -> r = Stop c /\ s' = s) /\
       (atire_eqb ib c = false -> exists mc mi rel,
          a_mass c = Ok mc /\ a_mass ib = Ok mi /\
          a_div (a_is_np c || a_is_np ib) (fsub mc mi) mc = Ok rel /\
          (fle rel (Num fitness) = true -> r = Stop ib /\ s' = s) /\
          (fle rel (Num fitness) = false ->
             s' = mkSt (rng_pos s) (S (clk_pos s)) /\
             r = (if Rleb runtime (clock (clk_pos s) - start) then Stop ib else Continue ib)))) /\
  (forall clock numpy md req runtime fitness start k c s t s1,
     rs_iteration clock numpy md req runtime fitness start c s = Ok (Continue t, s1) ->
     rs_main_loop clock numpy md req runtime fitness start (S k) c s =
     rs_main_loop clock numpy md req runtime fitness start k t s1).
Proof.
  split; [vm_compute; reflexivity |].
  split; [apply product_moves_nodup |].
  split; [intro m; apply product_moves_in |].
  split; [| exact rs_main_loop_step].
  intros clock numpy md req runtime fitness start c s r s' H.
  destruct (rs_iteration_cases clock numpy md req runtime fitness start c s r s' H)
    as [ib [Ex [Heq Hne]]].
  destruct (explore_best _ _ _ _ _ _ Ex) as [Hcase Hall].
  exists ib. split; [exact Ex |]. split; [exact Hcase |]. split; [exact Hall |].
  split; [exact Heq | exact Hne].
Qed.

Lemma rs_iteration_neighbourhood_witness :
  rs_iteration (fun _ => 0) false md9 1000 900 0 0 (PyT (T21 11)) (mkSt 0 0) =
    Ok (Continue (PyT (T21 10)), mkSt 0 1) /\
  exists ib, explore false (md9 (a_key_dim (PyT (T21 11)))) 1000 (PyT (T21 11)) move_options
             = Ok ib.
Proof.
  assert (H : rs_iteration (fun _ => 0) false md9 1000 900 0 0 (PyT (T21 11)) (mkSt 0 0) =
              Ok (Continue (PyT (T21 10)), mkSt 0 1)) by exact rs_iteration9_continue.
  split; [exact H |].
  destruct (proj1 (proj2 (proj2 (proj2 rs_iteration_neighbourhood)))
              (fun _ => 0) false md9 1000 900 0 0 (PyT (T21 11)) (mkSt 0 0) _ _ H)
    as [ib [E _]].
  exists ib. exact E.
Defined.

(** C9, differs: with [fitness] equal to the relative decrease of a
    strictly improving step from [T21 11] to [T21 10] the iteration stops
    (the test is [<=]), and with a decrease above [fitness] it also stops
    once [runtime] has elapsed, instead of adopting the point and
    repeating. *)
Lemma rs_iteration_neighbourhood_counterexample :
  atire_eqb (PyT (T21 10)) (PyT (T21 11)) = false /\
  0 < (mass21 11 + - mass21 10) / mass21 11 /\
  rs_iteration (fun _ => 0) false md9 1000 900 ((mass21 11 + - mass21 10) / mass21 11) 0
    (PyT (T21 11)) (mkSt 0 0) = Ok (Stop (PyT (T21 10)), mkSt 0 0) /\
  rs_iteration (fun _ => 1000) false md9 1000 900 0 0 (PyT (T21 11)) (mkSt 0 0) =
    Ok (Stop (PyT (T21 10)), mkSt 0 1).
Proof.
  pose proof (mass21_pos 11) as P. pose proof mass21_lt.
  assert (Hrel : 0 < (mass21 11 + - mass21 10) / mass21 11)
    by (apply Rdiv_lt_0_compat; lra).
  split; [exact tire_eqb_T21 |]. split; [exact Hrel |]. split.
  - rewrite rs_iteration9 by lra. rewrite Rleb_t by lra. reflexivity.
  - rewrite rs_iteration9 by lra. rewrite Rleb_f by lra.
    cbn [clk_pos rng_pos]. rewrite Rleb_t by lra. reflexivity.
Qed.

(** ** Mechanical feasibility in the gates *)

(** C10.  Every candidate accepted by one of the feasibility gates passes
    [is_mech_feasible] with the ["walter"] cord-tension model: the cord
    tension of the tire built from it is strictly below 338.0.  Accepted
    means: [Some t] from [is_geo_valid] (on Python floats, and on the numpy
    scalars of [rs_discrete]); a fitness other than [inf] from
    [GA_Individual.cal_fitness] and from [PSO_Particle.calc_obj] (on the
    particle's numpy position); a value other than the penalty [-1e24] from
    the Bayesian objective (on numpy scalars). *)
Theorem gates_require_mech_feasible :
  (forall dim req t, is_geo_valid dim req = Ok (Some t) ->
     is_mech_feasible t "walter" = Ok true /\
     exists tt, cord_tension_walter t = Ok tt /\ flt tt (Num 338.0) = true) /\
  (forall chromosome v, cal_fitness chromosome = Ok v -> v <> PInf ->
     exists t, new_tire (nth 0 chromosome 0) (nth 1 chromosome 0) (nth 2 chromosome 0)
                        (nth 3 chromosome 0) (nth 4 chromosome 0) = Ok t /\
     is_mech_feasible t "walter" = Ok true /\
     exists tt, cord_tension_walter t = Ok tt /\ flt tt (Num 338.0) = true) /\
  (forall dim req t, np_models.is_geo_valid dim req = Ok (Some t) ->
     np_models.is_mech_feasible t "walter" = Ok true /\
     flt (np_models.cord_tension_walter t) (Num 338.0) = true) /\
  (forall position req v, np_models.calc_obj position req = Ok v -> v <> PInf ->
     exists t, np_models.new_tire (nth 0 position 0) (nth 1 position 0) (nth 2 position 0)
                                  (nth 3 position 0) (nth 4 position 0) = t /\
     np_models.is_mech_feasible t "walter" = Ok true /\
     flt (np_models.cord_tension_walter t) (Num 338.0) = true) /\
  (forall req Dm0 Wm0 D0 DF0 PR0 v, np_models.objective_func req Dm0 Wm0 D0 DF0 PR0 = Ok v ->
     v <> Num bayes_penalty ->
     exists t, np_models.new_tire PR0 Dm0 Wm0 D0 DF0 = t /\
     np_models.is_mech_feasible t "walter" = Ok true /\
     flt (np_models.cord_tension_walter t) (Num 338.0) = true).
Proof.
  split; [| split; [| split; [| split]]].
  - intros dim req t H.
    destruct dim as [|PR0 [|Dm0 [|Wm0 [|D0 [|DF0 [|x l]]]]]]; try discriminate H.
    unfold is_geo_valid in H. gate_inv H; gate_leaf H; subst.
    split; [assumption | apply mech_walter_ok; assumption].
  - intros ch v H Hv. unfold cal_fitness in H. gate_inv H; gate_leaf H; subst.
    rewrite (idx_nth _ _ _ 0 E), (idx_nth _ _ _ 0 E0), (idx_nth _ _ _ 0 E1),
      (idx_nth _ _ _ 0 E3), (idx_nth _ _ _ 0 E5).
    eexists. split; [eassumption |]. split; [assumption | apply mech_walter_ok; assumption].
  - intros dim req t H.
    destruct dim as [|PR0 [|Dm0 [|Wm0 [|D0 [|DF0 [|x l]]]]]]; try discriminate H.
    unfold np_models.is_geo_valid in H. cbv zeta in H. gate_inv H; gate_leaf H; subst.
    split; [assumption | apply np_mech_walter_ok; assumption].
  - intros pos req v H Hv. unfold np_models.calc_obj in H. cbv zeta in H.
    gate_inv H; gate_leaf H; subst.
    rewrite (idx_nth _ _ _ 0 E), (idx_nth _ _ _ 0 E0), (idx_nth _ _ _ 0 E1),
      (idx_nth _ _ _ 0 E2), (idx_nth _ _ _ 0 E4).
    eexists. split; [reflexivity |]. split; [assumption | apply np_mech_walter_ok; assumption].
  - intros req Dm0 Wm0 D0 DF0 PR0 v H Hv. unfold np_models.objective_func in H. cbv zeta in H.
    gate_inv H; gate_leaf H; subst.
    eexists. split; [reflexivity |]. split; [assumption | apply np_mech_walter_ok; assumption].
Qed.

Lemma gates_require_mech_feasible_witness :
  is_geo_valid [10; 21; 7; 10; 12] 1000 = Ok (Some (T21 10)) /\
  is_mech_feasible (T21 10) "walter" = Ok true.
Proof.
  assert (H : is_geo_valid [10; 21; 7; 10; 12] 1000 = Ok (Some (T21 10)))
    by (apply is_geo_valid_T21; lra).
  split; [exact H |].
  exact (proj1 (proj1 gates_require_mech_feasible _ _ _ H)).
Defined.

(** ** Hyperparameters of the genetic algorithm *)

(** C8.  A population size below 3 makes [ga_opt] raise [ValueError]
    before it reads the clock or builds a population.  The mutation
    probability is checked only by [GA_Individual.mate], which raises
    [ValueError] when it lies outside [[0, 1]]; [ga_opt] itself does not
    check it, and with [n_iter = 0] its result does not depend on it. *)
Theorem ga_opt_config_errors :
  (forall urand clock fuel req_Lm speed_index scopes pop_size prob_mutate init_gene n_iter
          runtime conv_fitness s,
     (pop_size < 3)%Z ->
     ga_opt urand clock fuel req_Lm speed_index scopes pop_size prob_mutate init_gene n_iter
            runtime conv_fitness s = Raise ValueError) /\
  (forall urand par1 par2 scopes prob_mutate s,
     prob_mutate < 0 \/ 1 < prob_mutate ->
     mate urand par1 par2 scopes prob_mutate s = Raise ValueError) /\
  (forall urand clock fuel req_Lm speed_index scopes pop_size prob_mutate prob_mutate'
          init_gene runtime conv_fitness s,
     ga_opt urand clock fuel req_Lm speed_index scopes pop_size prob_mutate init_gene O
            runtime conv_fitness s =
     ga_opt urand clock fuel req_Lm speed_index scopes pop_size prob_mutate' init_gene O
            runtime conv_fitness s).
Proof.
  split; [| split].
  - intros urand clock fuel req_Lm speed_index scopes pop_size prob_mutate init_gene n_iter
      runtime conv_fitness s H.
    unfold ga_opt. apply Z.ltb_lt in H. rewrite H. reflexivity.
  - intros urand par1 par2 scopes prob_mutate s H. unfold mate.
    destruct H as [H | H].
    + rewrite (Rltb_t prob_mutate 0 H), orb_true_r. reflexivity.
    + rewrite (Rltb_t 1 prob_mutate H). reflexivity.
  - intros. reflexivity.
Qed.

Lemma ga_opt_config_errors_witness :
  ga_opt (fun _ => 0) (fun _ => 0) O 1000 0 scopes9 2 0.1 [] O 900 1e-3 (mkSt 0 0) =
    Raise ValueError /\
  mate (fun _ => 0) (mkInd [] PInf) (mkInd [] PInf) scopes9 2 (mkSt 0 0) = Raise ValueError.
Proof.
  split.
  - apply (proj1 ga_opt_config_errors). lia.
  - apply (proj1 (proj2 ga_opt_config_errors)). lra.
Defined.

(** C8, differs: a mutation probability of 2 raises nothing; with
    [n_iter = 0] and [pop_size = 3], [ga_opt] returns the tire of the
    initial gene. *)
Lemma ga_opt_config_errors_counterexample :
  ga_opt (fun _ => 0) (fun _ => 0) O 1000 0 scopes9 3 2 gene25 O 900 1e-3 (mkSt 0 0) =
  Ok (mkTire EmptyString 0 10 21 7 10 25 (21 / 10), mkSt 0 1).
Proof.
  unfold ga_opt. cbn [Z.ltb Z.compare Pos.compare Pos.compare_cont].
  unfold sbind at 1, time_now. cbv beta iota.
  change (Z.to_nat 3) with 3%nat.
  unfold sbind at 1. rewrite (ga_init_population_gene _ _ _ _ _ _ (mkInd gene25 PInf));
    [| discriminate | unfold GA_Individual_new; rewrite cal_fitness_gene25; reflexivity].
  cbn. unfold tire_of_ind. cbn. unfold gene25. cbn. rewrite new_tire_25. reflexivity.
Qed.

(** ** Retries of gradient-based optimisation *)




(** ** Re-validation and retries of Bayesian optimisation *)

(** C6.  [bayesOps_opt] re-checks the final candidate of every run of
    [_bayesOps_opt] with the rounded [max_load_capacity() >= req_Lm] and
    reruns the whole optimisation when the check fails: every returned tire
    is [Tire(PR, Dm, Wm, D, DF)] of some candidate and passed that check, a
    failed first candidate leads to a second run, and when every candidate
    fails no run returns.  The number of retries has no bound.  The tire
    is built from the optimiser's numpy scalars. *)
Theorem bayesOps_opt_revalidates :
  (forall n attempt req t, bayesOps_opt n attempt req = Ok t ->
     exists k, np_models.new_tire (attempt k).(x_PR) (attempt k).(x_Dm) (attempt k).(x_Wm)
                                  (attempt k).(x_D) (attempt k).(x_DF) = t /\
       fle (Num req) (np_models.max_load_capacity t false) = true) /\
  (forall n attempt req, bayesOps_final req (attempt 1%nat) = None ->
     bayesOps_opt (S n) attempt req = bayesOps_loop n attempt req 1) /\
  (forall n attempt req, (forall k, bayesOps_final req (attempt k) = None) ->
     bayesOps_opt n attempt req = Raise NoFuel).
Proof.
  split; [| split].
  - exact bayesOps_opt_result.
  - intros n attempt req H. unfold bayesOps_opt. cbn [bayesOps_loop].
    rewrite H. reflexivity.
  - intros n attempt req H. exact (bayesOps_loop_none n attempt req O H).
Qed.

Lemma bayesOps_opt_revalidates_witness :
  bayesOps_opt 1 (fun _ => p21) 1000 = Ok (to_np (T21 10)) /\
  fle (Num 1000) (np_models.max_load_capacity (to_np (T21 10)) false) = true.
Proof.
  assert (H : bayesOps_opt 1 (fun _ => p21) 1000 = Ok (to_np (T21 10))).
  { unfold bayesOps_opt. cbn [bayesOps_loop]. rewrite bayesOps_final_p21. reflexivity. }
  split; [exact H |].
  destruct (proj1 bayesOps_opt_revalidates _ _ _ _ H) as [k [_ HL]]. exact HL.
Defined.

(** C6, differs: no bound [B] on the number of runs serves every
    sequence of candidates; the one that fails the check [B] times and then
    succeeds returns a tire, but not within [B] runs. *)
Lemma bayesOps_opt_revalidates_counterexample :
  ~ exists B, forall attempt,
      (exists n t, bayesOps_opt n attempt 1000 = Ok t) ->
      exists t, bayesOps_opt B attempt 1000 = Ok t.
Proof.
  intros [B H].
  destruct (H (late21 B)) as [t Ht].
  { exists (S B), (to_np (T21 10)). apply bayesOps_loop_late21. lia. }
  destruct (bayesOps_loop_result B (late21 B) 1000 O t Ht) as [k [Hk [Hf _]]].
  unfold late21 in Hf. replace (S (0 + k) <=? B)%nat with true in Hf
    by (symmetry; apply Nat.leb_le; lia).
  rewrite bayesOps_final_flat in Hf. discriminate Hf.
Qed.

(** ** Termination of the loops *)














(** ** Feasibility of the returned designs *)








(** ** Domain failures *)

(** C5.  No typed error guards the domain of the model: a negative argument
    of the square root in [ground_contact_area] gives NaN, which
    [max_load_capacity] passes on; [is_geo_valid] then accepts the design
    when its geometry and [is_mech_feasible] pass.  A zero divisor raises
    [ZeroDivisionError], which [is_geo_valid] does not catch: [Wm = 0] in
    the aspect ratio, and [D = 0] with valid geometry when building the
    [Tire]. *)

Theorem domain_failures_unguarded :
  (forall t b,
     (t.(Dm) - b * (t.(Dm) - t.(DF)) / 2) * (t.(Wm) - b * (t.(Dm) - t.(DF)) / 2) < 0 ->
     ground_contact_area t b = NaN) /\
  (forall t P Pc,
     ground_contact_area t 0.32 = NaN -> pressure_index t = Ok P ->
     load_supporting_capability t = Ok Pc ->
     max_load_capacity t true = Ok NaN /\ max_load_capacity t false = Ok NaN) /\
  (forall PR0 Dm0 Wm0 D0 DF0 req t,
     Wm0 <> 0 -> D0 < DF0 < Dm0 -> 0.5 <= (Dm0 - D0) / 2 / Wm0 <= 1 ->
     new_tire PR0 Dm0 Wm0 D0 DF0 = Ok t -> max_load_capacity t true = Ok NaN ->
     is_mech_feasible t "walter" = Ok true ->
     is_geo_valid [PR0; Dm0; Wm0; D0; DF0] req = Ok (Some t)) /\
  (forall PR0 Dm0 D0 DF0 req,
     is_geo_valid [PR0; Dm0; 0; D0; DF0] req = Raise ZeroDivisionError) /\
  (forall PR0 Dm0 Wm0 DF0 req,
     Wm0 <> 0 -> 0 < DF0 < Dm0 -> 0.5 <= (Dm0 - 0) / 2 / Wm0 <= 1 ->
     is_geo_valid [PR0; Dm0; Wm0; 0; DF0] req = Raise ZeroDivisionError).
Proof.
  split; [exact gca_sqrt_neg |].
  split; [exact mlc_nan |].
  split; [exact is_geo_valid_nan_accept |].
  split; [exact is_geo_valid_Wm0 | exact is_geo_valid_D0].
Qed.

Lemma domain_failures_unguarded_witness :
  ground_contact_area Tneg 0.32 = NaN /\
  is_geo_valid [10; -1; 1; -3; -2] 1000 = Ok (Some Tneg) /\
  is_geo_valid [10; 14; 10; 0; 5] 1000 = Raise ZeroDivisionError.
Proof.
  split; [| split].
  - apply (proj1 domain_failures_unguarded). cbn [Tneg Dm DF Wm]. nra.
  - apply (proj1 (proj2 (proj2 domain_failures_unguarded))); try lra.
    + exact new_tire_Tneg.
    + exact mlc_Tneg.
    + exact is_mech_feasible_Tneg.
  - apply (proj2 (proj2 (proj2 (proj2 domain_failures_unguarded)))); lra.
Defined.

(** C5, differs: [Tneg] has a NaN load capacity and passes [is_geo_valid],
    and a design with [Wm = 0] makes [is_geo_valid] raise
    [ZeroDivisionError]. *)
Lemma domain_failures_unguarded_counterexample :
  max_load_capacity Tneg true = Ok NaN /\
  is_geo_valid [10; -1; 1; -3; -2] 1000 = Ok (Some Tneg) /\
  is_geo_valid [10; 21; 0; 10; 12] 1000 = Raise ZeroDivisionError.
Proof.
  split; [exact mlc_Tneg | split; [exact (is_geo_valid_Tneg 1000) | exact (is_geo_valid_Wm0 _ _ _ _ _)]].
Qed.

(* ================================================================== *)
(** * Further properties of the code *)

(** ** Tires and geometry checks *)

(** X2. A tire accepted by [is_geo_valid dim req_Lm] is accepted, the same,
    for every smaller required load. *)
Theorem is_geo_valid_req_monotone dim req req' t :
  req' <= req -> is_geo_valid dim req = Ok (Some t) -> is_geo_valid dim req' = Ok (Some t).
Proof.
  intros Hr H. unfold is_geo_valid in *.
  destruct dim as [|a [|b [|c [|d [|e [|f l]]]]]]; try discriminate H.
  destruct (pydivR ((b - d) / 2) c) as [asp|x]; cbn [bind] in *; [| discriminate H].
  destruct (Rleb b e || Rleb e d || Rltb asp 0.5 || Rltb 1 asp); [discriminate H |].
  destruct (new_tire a b c d e) as [t0|x]; cbn [bind] in *; [| discriminate H].
  destruct (max_load_capacity t0 true) as [L|x]; cbn [bind] in *; [| discriminate H].
  destruct (flt L (Num req)) eqn:E; [discriminate H |].
  replace (flt L (Num req')) with false; [exact H |].
  destruct L; cbn [flt] in *; try reflexivity; [| discriminate E].
  symmetry. apply Rltb_f. apply Rltb_false in E. lra.
Qed.

Lemma is_geo_valid_req_monotone_witness :
  is_geo_valid [10; 21; 7; 10; 12] 4000 = Ok (Some (T21 10)) /\
  is_geo_valid [10; 21; 7; 10; 12] 3000 = Ok (Some (T21 10)).
Proof.
  assert (H : is_geo_valid [10; 21; 7; 10; 12] 4000 = Ok (Some (T21 10)))
    by (apply is_geo_valid_T21; lra).
  split; [exact H |]. apply (is_geo_valid_req_monotone _ 4000); [lra | exact H].
Defined.

(** X6. [load_supporting_capability] never raises, and it is positive when
    the ply rating is. *)
Theorem load_supporting_capability_spec t :
  exists Pc, load_supporting_capability t = Ok Pc /\ (0 < t.(PR) -> 0 < Pc).
Proof.
  unfold load_supporting_capability.
  destruct (Rltb t.(Wm) 5.5) eqn:E.
  - exists t.(PR). split; [reflexivity | auto].
  - apply Rltb_false in E. rewrite pydivR_ok by (apply pow_nonzero; lra).
    eexists; split; [reflexivity |]. intro H.
    apply Rdiv_lt_0_compat; [| apply pow_lt; lra]. nra.
Qed.

(** X7. [np.where(scope == x)[0][0]] is the index of the first occurrence
    of [x], and raises [IndexError] when [x] does not occur. *)
Theorem np_where_first_spec arr x :
  (forall i, np_where_first arr x = Ok i ->
     nth_error arr i = Some x /\ forall j y, (j < i)%nat -> nth_error arr j = Some y -> y <> x) /\
  (~ In x arr -> np_where_first arr x = Raise IndexError).
Proof.
  induction arr as [|a arr IH]; cbn [np_where_first]; split.
  - discriminate.
  - reflexivity.
  - intros i H. destruct (Reqb a x) eqn:E.
    + injection H as <-. unfold Reqb in E. destruct (Req_dec_T a x); [| discriminate].
      subst. split; [reflexivity | intros; lia].
    + destruct (np_where_first arr x) as [k|e] eqn:Ek; cbn [bind] in H; [| discriminate].
      injection H as <-. destruct (proj1 IH k eq_refl) as [Hk Hb].
      split; [exact Hk |]. intros [|j] y Hj Hy.
      * injection Hy as <-. unfold Reqb in E. destruct (Req_dec_T a x); [discriminate | exact n].
      * apply (Hb j y); [lia | exact Hy].
  - intro Hn. rewrite Reqb_f by (intro Z; apply Hn; left; exact Z).
    rewrite (proj2 IH) by (intro Z; apply Hn; right; exact Z). reflexivity.
Qed.

(** X8. With [n_iter = 0], [rs_discrete] and [rs_continuous] never return a
    tire. *)
Theorem rs_search_no_iterations clock draw numpy md fuel req runtime fitness init_dim s t s' :
  rs_search clock draw numpy md fuel req O runtime fitness init_dim s <> Ok (Some t, s').
Proof.
  unfold rs_search, sbind. cbv beta iota.
  destruct (time_now clock s) as [[st s1]|e]; [| discriminate].
  destruct (match init_dim with [] => sret None
            | _ => lift (a_is_geo_valid false init_dim req) end s1)
    as [[o s2]|e]; [| discriminate].
  destruct (match o with Some t0 => sret (Some t0)
            | None => rs_init_loop clock draw numpy fuel req runtime st end s2)
    as [[[t0|] s3]|e]; [| discriminate | discriminate].
  cbn [rs_main_loop sret]. unfold sraise. discriminate.
Qed.

(** X9. A tire whose flange diameter equals its mean diameter (with
    [Dm * Wm >= 0]) has no ground contact area: its maximum load capacity,
    exact or rounded, is 0. *)
Theorem flat_tire_zero_load t P Pc :
  t.(DF) = t.(Dm) -> 0 <= t.(Dm) * t.(Wm) ->
  pressure_index t = Ok P -> load_supporting_capability t = Ok Pc ->
  max_load_capacity t true = Ok (Num 0) /\ max_load_capacity t false = Ok (Num 0).
Proof.
  intros HF HW HP HC. unfold max_load_capacity, ground_contact_area.
  rewrite HP, HC, HF. cbn [bind ret].
  replace ((t.(Dm) - 0.32 * (t.(Dm) - t.(Dm)) / 2) * (t.(Wm) - 0.32 * (t.(Dm) - t.(Dm)) / 2))
    with (t.(Dm) * t.(Wm)) by (unfold Rdiv; ring).
  rewrite fsqrt_nonneg by exact HW. cbn [fmul].
  replace (0.77 * constants.pi * (0.32 * (t.(Dm) - t.(Dm)) / 2) * sqrt (t.(Dm) * t.(Wm)) * (P + Pc))
    with 0 by (unfold Rdiv; ring).
  split; [reflexivity |].
  rewrite npdiv_num by lra. unfold Rdiv. rewrite Rmult_0_l. cbn [fround].
  rewrite round_half_even_0. cbn [fmul]. rewrite Rmult_0_l. reflexivity.
Qed.

Lemma flat_tire_zero_load_witness :
  max_load_capacity Tflat true = Ok (Num 0) /\ max_load_capacity Tflat false = Ok (Num 0).
Proof.
  apply (flat_tire_zero_load Tflat (P21 10) (Pc21 10)).
  - reflexivity.
  - cbn. lra.
  - exact (pressure_index_T21 10).
  - exact (lsc_T21 10).
Defined.

(** ** Random draws and moves *)

Lemma smapM_ok {A B} (f : A -> SM B) (P : A -> B -> Prop) (l : list A) :
  (forall x s, In x l -> exists b, f x s = Ok (b, mkSt (S (rng_pos s)) (clk_pos s)) /\ P x b) ->
  forall s, exists bs, smapM f l s = Ok (bs, mkSt (rng_pos s + List.length l) (clk_pos s)) /\
    Forall2 P l bs.
Proof.
  induction l as [|a l IH]; intros Hf s.
  - exists []. split; [cbn; rewrite Nat.add_0_r; destruct s; reflexivity | constructor].
  - destruct (Hf a s (or_introl eq_refl)) as [b [Hb Pb]].
    destruct (IH (fun x s0 Hx => Hf x s0 (or_intror Hx)) (mkSt (S (rng_pos s)) (clk_pos s)))
      as [bs [Hbs Pbs]].
    exists (b :: bs). split; [| constructor; assumption].
    cbn [smapM]. unfold sbind. rewrite Hb, Hbs. cbn [rng_pos clk_pos List.length].
    unfold sret. do 3 f_equal. lia.
Qed.

Lemma smapM_raise {A B} (f : A -> SM B) (e : exn) (l : list A) :
  (forall x s, In x l -> (exists b s', f x s = Ok (b, s')) \/ f x s = Raise e) ->
  (exists x, In x l /\ forall s, f x s = Raise e) ->
  forall s, smapM f l s = Raise e.
Proof.
  induction l as [|a l IH]; intros Hf [x [Hx Hr]] s; [destruct Hx |].
  cbn [smapM]. unfold sbind.
  destruct Hx as [<- | Hx].
  - rewrite Hr. reflexivity.
  - destruct (Hf a s (or_introl eq_refl)) as [[b [s' Hb]] | Hb]; rewrite Hb; [| reflexivity].
    rewrite (IH (fun y s0 Hy => Hf y s0 (or_intror Hy)) (ex_intro _ x (conj Hx Hr)) s').
    reflexivity.
Qed.

Lemma randint_lt (urand : nat -> R) (n : nat) (s : St) :
  0 <= urand (rng_pos s) < 1 -> (0 < n)%nat ->
  exists i, randint urand n s = Ok (i, mkSt (S (rng_pos s)) (clk_pos s)) /\ (i < n)%nat.
Proof.
  intros Hu Hn. destruct n as [|n']; [lia |].
  eexists; split; [reflexivity |].
  set (y := urand (rng_pos s) * INR (S n')).
  pose proof (Rfloor_spec y) as [H1 H2].
  assert (Hy : 0 <= y < INR (S n')).
  { unfold y. pose proof (pos_INR (S n')). pose proof (lt_0_INR (S n') Hn). nra. }
  rewrite INR_IZR_INZ in Hy.
  assert (Hf0 : (-1 < Rfloor y)%Z) by (apply lt_IZR; lra).
  assert (Hf1 : (Rfloor y < Z.of_nat (S n'))%Z) by (apply lt_IZR; lra).
  lia.
Qed.

(** X10. [np.random.choice] raises [ValueError] on an empty list, and
    otherwise returns an element of the list with one random draw. *)
Theorem choice_spec {A} urand (l : list A) (s : St) :
  choice urand [] s = @Raise (A * St) ValueError /\
  (0 <= urand (rng_pos s) < 1 -> l <> [] ->
   exists a, choice urand l s = Ok (a, mkSt (S (rng_pos s)) (clk_pos s)) /\ In a l).
Proof.
  split; [reflexivity |]. intros Hu Hl.
  destruct l as [|x l']; [contradiction |].
  destruct (randint_lt urand (List.length (x :: l')) s Hu ltac:(cbn; lia)) as [i [Hi Hlt]].
  unfold choice. unfold sbind. rewrite Hi. unfold lift, idx.
  destruct (nth_error (x :: l') i) as [a|] eqn:E.
  - exists a. split; [reflexivity | exact (nth_error_In _ _ E)].
  - apply nth_error_None in E. lia.
Qed.

(** X11. With [np.random.rand()] in [[0, 1)], the random initial dimensions
    of [rs_continuous] take five draws and lie in their scopes, below the
    upper bound of a non-empty scope. *)
Theorem cont_draw_in_scopes urand scopes :
  (forall k, 0 <= urand k < 1) -> (forall v, fst (scopes v) <= snd (scopes v)) ->
  forall s, exists dims,
    cont_draw urand scopes s = Ok (dims, mkSt (rng_pos s + 5) (clk_pos s)) /\
    Forall2 (fun v x => fst (scopes v) <= x <= snd (scopes v) /\
                        (fst (scopes v) < snd (scopes v) -> x < snd (scopes v)))
            design_var dims.
Proof.
  intros Hu Hs s. unfold cont_draw.
  apply (smapM_ok _ (fun v x => fst (scopes v) <= x <= snd (scopes v) /\
                        (fst (scopes v) < snd (scopes v) -> x < snd (scopes v)))).
  intros v s0 _. eexists; split; [reflexivity |].
  pose proof (Hu (rng_pos s0)). pose proof (Hs v). split; [split |]; [nra | nra | intro; nra].
Qed.

Lemma cont_draw_in_scopes_witness : exists dims,
  cont_draw (fun _ => 0) scopes9 (mkSt 0 0) = Ok (dims, mkSt 5 0).
Proof.
  destruct (cont_draw_in_scopes (fun _ => 0) scopes9 ltac:(intro; lra)
              ltac:(intro v; destruct v; cbn; lra) (mkSt 0 0)) as [dims [H _]].
  exists dims. exact H.
Defined.

(** X12. The random initial dimensions of [rs_discrete] take five draws and
    are elements of their scope arrays; an empty scope array raises
    [ValueError]. *)
Theorem disc_draw_in_scopes urand scopes :
  (forall k, 0 <= urand k < 1) ->
  ((forall v, scopes v <> []) ->
   forall s, exists dims,
     disc_draw urand scopes s = Ok (dims, mkSt (rng_pos s + 5) (clk_pos s)) /\
     Forall2 (fun v x => In x (scopes v)) design_var dims) /\
  ((exists v, scopes v = []) -> forall s, disc_draw urand scopes s = Raise ValueError).
Proof.
  intros Hu. unfold disc_draw. split.
  - intros Hs s. apply (smapM_ok _ (fun v x => In x (scopes v))).
    intros v s0 _. unfold sbind.
    destruct (randint_lt urand (List.length (scopes v)) s0 (Hu _)) as [i [Hi Hlt]].
    { destruct (scopes v) eqn:E; [exact (False_ind _ (Hs v E)) | cbn; lia]. }
    rewrite Hi. unfold lift, idx.
    destruct (nth_error (scopes v) i) as [a|] eqn:E.
    + exists a. split; [reflexivity | exact (nth_error_In _ _ E)].
    + apply nth_error_None in E. lia.
  - intros [v0 Hv0] s. apply smapM_raise.
    + intros v s0 _. unfold sbind.
      destruct (scopes v) as [|a l] eqn:E.
      * right. reflexivity.
      * left. destruct (randint_lt urand (List.length (scopes v)) s0 (Hu _)) as [i [Hi Hlt]].
        { rewrite E; cbn; lia. }
        rewrite E in Hi, Hlt. rewrite Hi. unfold lift, idx.
        destruct (nth_error (a :: l) i) as [b|] eqn:F.
        -- exists b, (mkSt (S (rng_pos s0)) (clk_pos s0)). reflexivity.
        -- apply nth_error_None in F. lia.
    + exists v0. split; [destruct v0; cbn; tauto |]. intro s0. rewrite Hv0. reflexivity.
Qed.

Lemma disc_draw_in_scopes_witness :
  disc_draw (fun _ => 0) (fun _ => []) (mkSt 0 0) = Raise ValueError.
Proof.
  apply (proj2 (disc_draw_in_scopes (fun _ => 0) (fun _ => []) ltac:(intro; lra))).
  exists vPR. reflexivity.
Defined.

(** X13. [create_gnome] takes five draws and returns five genes in their
    scopes followed by [req_Lm]. *)
Theorem create_gnome_shape urand req scopes :
  (forall k, 0 <= urand k <= 1) -> (forall v, fst (scopes v) <= snd (scopes v)) ->
  forall s, exists genes,
    create_gnome urand req scopes s = Ok (genes ++ [req], mkSt (rng_pos s + 5) (clk_pos s)) /\
    Forall2 (fun v x => fst (scopes v) <= x <= snd (scopes v)) design_var genes.
Proof.
  intros Hu Hs s. unfold create_gnome, sbind.
  destruct (smapM_ok (fun v => mutated_gene urand (scopes v))
              (fun v x => fst (scopes v) <= x <= snd (scopes v)) design_var) with (s := s)
    as [genes [Hg Pg]].
  { intros v s0 _. eexists; split; [reflexivity |].
    pose proof (Hu (rng_pos s0)). pose proof (Hs v). split; nra. }
  exists genes. rewrite Hg. split; [reflexivity | exact Pg].
Qed.

Lemma create_gnome_shape_witness : exists genes,
  create_gnome (fun _ => 0) 1000 scopes9 (mkSt 0 0) = Ok (genes ++ [1000], mkSt 5 0).
Proof.
  destruct (create_gnome_shape (fun _ => 0) 1000 scopes9 ltac:(intro; lra)
              ltac:(intro v; destruct v; cbn; lra) (mkSt 0 0)) as [g [H _]].
  exists g. exact H.
Defined.

Lemma cont_move_dim_spec scopes step : forall vars ind dim move nd,
  cont_move_dim scopes step vars ind dim move = Ok (Some nd) ->
  List.length nd = List.length vars /\
  forall i v, nth_error vars i = Some v -> exists c m x,
    nth_error dim (ind + i) = Some c /\ nth_error move (ind + i) = Some m /\
    nth_error nd i = Some x /\ x = c + IZR m * step /\
    fst (scopes v) <= x < snd (scopes v).
Proof.
  induction vars as [|v vs IH]; intros ind dim move nd H; cbn [cont_move_dim] in H.
  - injection H as <-. split; [reflexivity | intros [|i] w Hw; discriminate Hw].
  - unfold idx in H.
    destruct (nth_error dim ind) as [c|] eqn:Ec; cbn [bind] in H; [| discriminate H].
    destruct (nth_error move ind) as [m|] eqn:Em; cbn [bind] in H; [| discriminate H].
    destruct (Rleb (fst (scopes v)) (c + IZR m * step) && Rltb (c + IZR m * step) (snd (scopes v)))
      eqn:Eb; [| discriminate H].
    destruct (cont_move_dim scopes step vs (S ind) dim move) as [[rest|]|e] eqn:Er;
      cbn [bind ret option_map] in H; try discriminate H.
    injection H as <-. destruct (IH _ _ _ _ Er) as [Hl Hr].
    split; [cbn; rewrite Hl; reflexivity |].
    intros [|i] w Hw.
    + injection Hw as <-. apply andb_true_iff in Eb as [E1 E2].
      apply Rleb_spec in E1. apply Rltb_spec in E2.
      exists c, m, (c + IZR m * step). rewrite Nat.add_0_r.
      repeat split; try assumption; reflexivity.
    + destruct (Hr i w Hw) as (c' & m' & x & H1 & H2 & H3 & H4 & H5).
      exists c', m', x. rewrite Nat.add_succ_r. exact (conj H1 (conj H2 (conj H3 (conj H4 H5)))).
Qed.

(** X14. A move that [rs_continuous] keeps gives five dimensions, each the
    current one plus the move times [step_size], in [[low, high)] of its
    scope. *)
Theorem cont_move_dim_in_scopes scopes step dim move nd :
  cont_move_dim scopes step design_var O dim move = Ok (Some nd) ->
  List.length nd = 5%nat /\
  forall i v, nth_error design_var i = Some v -> exists c m x,
    nth_error dim i = Some c /\ nth_error move i = Some m /\
    nth_error nd i = Some x /\ x = c + IZR m * step /\
    fst (scopes v) <= x < snd (scopes v).
Proof. intro H. exact (cont_move_dim_spec scopes step design_var O dim move nd H). Qed.

Lemma disc_move_dim_spec scopes step : forall vars ind dim move nd,
  disc_move_dim scopes step vars ind dim move = Ok (Some nd) ->
  Forall2 (fun v x => In x (scopes v)) vars nd.
Proof.
  induction vars as [|v vs IH]; intros ind dim move nd H; cbn [disc_move_dim] in H.
  - injection H as <-. constructor.
  - destruct (idx dim ind) as [c|]; cbn [bind] in H; [| discriminate H].
    destruct (np_where_first (scopes v) c) as [si|]; cbn [bind] in H; [| discriminate H].
    destruct (idx move ind) as [m|]; cbn [bind] in H; [| discriminate H].
    destruct (_ && _); [| discriminate H].
    unfold idx at 1 in H.
    destruct (nth_error (scopes v) _) as [val|] eqn:Ev; cbn [bind] in H; [| discriminate H].
    destruct (disc_move_dim scopes step vs (S ind) dim move) as [[rest|]|e] eqn:Er;
      cbn [bind ret option_map] in H; try discriminate H.
    injection H as <-. constructor; [exact (nth_error_In _ _ Ev) | exact (IH _ _ _ _ Er)].
Qed.

Lemma cont_move_dim_in_scopes_witness :
  List.length [10; 21; 7; 10; 12] = 5%nat /\
  forall i v, nth_error design_var i = Some v -> exists c m x,
    nth_error [11; 21; 7; 10; 12] i = Some c /\ nth_error [(-1)%Z; 0%Z; 0%Z; 0%Z; 0%Z] i = Some m /\
    nth_error [10; 21; 7; 10; 12] i = Some x /\ x = c + IZR m * 1 /\
    fst (scopes9 v) <= x < snd (scopes9 v).
Proof.
  apply cont_move_dim_in_scopes.
  assert (Hin : In [(-1)%Z; 0%Z; 0%Z; 0%Z; 0%Z] move_options).
  { rewrite move_options_split9. apply in_or_app. right. left. reflexivity. }
  exact (proj1 (Forall_forall _ _) move_dim9 _ Hin).
Defined.

(** X15. A move that [rs_discrete] keeps gives dimensions that are elements
    of their scope arrays. *)
Theorem disc_move_dim_in_scopes scopes step dim move nd :
  disc_move_dim scopes step design_var O dim move = Ok (Some nd) ->
  Forall2 (fun v x => In x (scopes v)) design_var nd.
Proof. intro H. exact (disc_move_dim_spec scopes step design_var O dim move nd H). Qed.

(** ** Sorting by fitness *)

Lemma insert_by_fitness_perm x l : Permutation (x :: l) (insert_by_fitness x l).
Proof.
  induction l as [|y l IH]; cbn [insert_by_fitness]; [reflexivity |].
  destruct (flt _ _); [reflexivity |].
  etransitivity; [apply perm_swap | constructor; exact IH].
Qed.

Lemma disc_move_dim_in_scopes_witness :
  disc_move_dim (fun _ => [1; 2]) 1 design_var O [1; 1; 1; 1; 1] [0%Z; 0%Z; 0%Z; 0%Z; 0%Z]
    = Ok (Some [1; 1; 1; 1; 1]) /\
  Forall2 (fun v x => In x [1; 2]) design_var [1; 1; 1; 1; 1].
Proof.
  assert (H : disc_move_dim (fun _ => [1; 2]) 1 design_var O [1; 1; 1; 1; 1]
                [0%Z; 0%Z; 0%Z; 0%Z; 0%Z] = Ok (Some [1; 1; 1; 1; 1])).
  { cbn. rewrite (Reqb_t 1 1) by reflexivity. reflexivity. }
  split; [exact H |]. exact (disc_move_dim_in_scopes (fun _ => [1; 2]) 1 _ _ _ H).
Defined.

Lemma insert_by_fitness_sorted x l : Sorted fit_le l -> Sorted fit_le (insert_by_fitness x l).
Proof.
  induction l as [|y l IH]; intro H; cbn [insert_by_fitness].
  - repeat constructor.
  - destruct (flt x.(fitness) y.(fitness)) eqn:E.
    + constructor; [exact H | constructor; unfold fit_le; exact (flt_asym _ _ E)].
    + apply Sorted_inv in H as [Hs Hh]. constructor; [exact (IH Hs) |].
      destruct l as [|z l']; cbn [insert_by_fitness].
      * constructor. exact E.
      * destruct (flt x.(fitness) z.(fitness)); constructor; [exact E |].
        apply HdRel_inv in Hh. exact Hh.
Qed.

Lemma sort_fold_spec l : forall acc, Sorted fit_le acc ->
  Permutation (acc ++ l) (fold_left (fun acc x => insert_by_fitness x acc) l acc) /\
  Sorted fit_le (fold_left (fun acc x => insert_by_fitness x acc) l acc).
Proof.
  induction l as [|x l IH]; intros acc Hacc; cbn [fold_left].
  - rewrite app_nil_r. split; [reflexivity | exact Hacc].
  - destruct (IH (insert_by_fitness x acc) (insert_by_fitness_sorted x acc Hacc)) as [Hp Hs].
    split; [| exact Hs].
    etransitivity; [| exact Hp].
    etransitivity; [apply Permutation_sym, Permutation_middle |].
    change (x :: acc ++ l) with ((x :: acc) ++ l).
    apply Permutation_app_tail, insert_by_fitness_perm.
Qed.

Lemma sort_by_fitness_perm l : Permutation l (sort_by_fitness l).
Proof. exact (proj1 (sort_fold_spec l [] (Sorted_nil _))). Qed.

Lemma flt_total_trans (a b c : fl) : a <> NaN -> b <> NaN -> c <> NaN ->
  flt b a = false -> flt c b = false -> flt c a = false.
Proof.
  intros Ha Hb Hc H1 H2.
  destruct a as [x| | |], b as [y| | |], c as [z| | |];
    cbn [flt] in *; try congruence;
    try (apply Rltb_false in H1); try (apply Rltb_false in H2);
    try reflexivity; apply Rltb_f; lra.
Qed.

Lemma sorted_head_min : forall rest h,
  Sorted fit_le (h :: rest) -> Forall (fun x => x.(fitness) <> NaN) (h :: rest) ->
  Forall (fit_le h) rest.
Proof.
  induction rest as [|z rest IH]; intros h Hs Hn; [constructor |].
  apply Sorted_inv in Hs as [Hs Hh]. apply HdRel_inv in Hh.
  apply Forall_cons_iff in Hn as [Hnh Hn].
  pose proof (IH z Hs Hn) as Hz. apply Forall_cons_iff in Hn as [Hnz Hn'].
  constructor; [exact Hh |].
  apply Forall_forall. intros y Hy.
  pose proof (proj1 (Forall_forall _ _) Hz y Hy) as Hzy.
  pose proof (proj1 (Forall_forall _ _) Hn' y Hy) as Hny.
  exact (flt_total_trans _ _ _ Hnh Hnz Hny Hh Hzy).
Qed.

(** X16. [sorted(population, key=lambda x: x.fitness)] is a permutation of
    the population in non-decreasing fitness; without NaN fitness its head
    has the least fitness. *)
Theorem sort_by_fitness_spec l :
  Permutation l (sort_by_fitness l) /\
  Sorted (fun a b => flt b.(fitness) a.(fitness) = false) (sort_by_fitness l) /\
  (Forall (fun x => x.(fitness) <> NaN) l -> forall h rest, sort_by_fitness l = h :: rest ->
     forall y, In y l -> flt y.(fitness) h.(fitness) = false).
Proof.
  destruct (sort_fold_spec l [] (Sorted_nil _)) as [Hp Hs]. cbn [app] in Hp.
  fold (sort_by_fitness l) in Hp, Hs.
  split; [exact Hp | split; [exact Hs |]].
  intros Hn h rest Eq y Hy.
  rewrite Eq in Hs, Hp.
  pose proof (Permutation_Forall Hp Hn) as Hn'.
  destruct (Permutation_in _ Hp Hy) as [<- | Hin]; [apply flt_irrefl |].
  exact (proj1 (Forall_forall _ _) (sorted_head_min rest h Hs Hn') y Hin).
Qed.

(** ** The genetic algorithm *)

Lemma sbind_inv {A B} (m : SM A) (k : A -> SM B) s b s' :
  sbind m k s = Ok (b, s') -> exists a s1, m s = Ok (a, s1) /\ k a s1 = Ok (b, s').
Proof. unfold sbind. destruct (m s) as [[a s1]|e]; [eauto | discriminate]. Qed.

Lemma lift_inv {A} (m : M A) s a s' : lift m s = Ok (a, s') -> m = Ok a /\ s' = s.
Proof. unfold lift. destruct m as [x|e]; [intros H; injection H as -> ->; auto | discriminate]. Qed.

Lemma sret_inv {A} (x : A) s a s' : sret x s = Ok (a, s') -> a = x /\ s' = s.
Proof. unfold sret. intros H; injection H as -> ->; auto. Qed.

Lemma mate_genes_spec urand scopes pm :
  (forall k, 0 <= urand k <= 1) -> (forall v, fst (scopes v) <= snd (scopes v)) ->
  forall g1 g2 i s genes s',
  mate_genes urand scopes pm i g1 g2 s = Ok (genes, s') ->
  List.length genes = Nat.min (List.length g1) (List.length g2) /\
  forall j g, nth_error genes j = Some g ->
    nth_error g1 j = Some g \/ nth_error g2 j = Some g \/
    exists v, nth_error design_var (i + j) = Some v /\ fst (scopes v) <= g <= snd (scopes v).
Proof.
  intros Hu Hs. induction g1 as [|a1 r1 IH]; intros g2 i s genes s' H.
  - apply sret_inv in H as [-> _]. split; [reflexivity |].
    intros [|j] g Hj; discriminate Hj.
  - destruct g2 as [|a2 r2].
    + apply sret_inv in H as [-> _].
      split; [cbn; lia | intros [|j] g Hj; discriminate Hj].
    + cbn [mate_genes] in H.
      apply sbind_inv in H as (u & s1 & Hr & H). unfold rand in Hr.
      injection Hr as <- <-.
      apply sbind_inv in H as (g & s2 & Hg & H).
      apply sbind_inv in H as (rest & s3 & Hrest & H).
      apply sret_inv in H as [-> _].
      destruct (IH r2 (S i) s2 rest s3 Hrest) as [Hl Hr].
      split; [cbn; rewrite Hl; reflexivity |].
      intros [|j] g' Hj.
      * injection Hj as <-. rewrite Nat.add_0_r. cbn [nth_error].
        destruct (Rltb _ ((1 - pm) / 2)).
        { apply sret_inv in Hg as [-> _]. left; reflexivity. }
        destruct (Rltb _ (1 - pm)).
        { apply sret_inv in Hg as [-> _]. right; left; reflexivity. }
        right; right.
        apply sbind_inv in Hg as (v & s4 & Hv & Hg).
        apply lift_inv in Hv as [Hv ->]. unfold idx in Hv.
        destruct (nth_error design_var i) as [v'|]; [injection Hv as -> | discriminate Hv].
        exists v. split; [reflexivity |].
        unfold mutated_gene in Hg. apply sbind_inv in Hg as (w & s5 & Hw & Hg).
        unfold rand in Hw. injection Hw as Hw _. apply sret_inv in Hg as [-> _].
        assert (Hw1 : 0 <= w <= 1) by (rewrite <- Hw; apply Hu).
        pose proof (Hs v). split; nra.
      * cbn [nth_error] in Hj. rewrite Nat.add_succ_r. exact (Hr j g' Hj).
Qed.

Lemma GA_Individual_new_ok ch c : GA_Individual_new ch = Ok c -> ind_ok c /\ c.(chromosome) = ch.
Proof.
  unfold GA_Individual_new, bind, ret, ind_ok.
  destruct (cal_fitness ch) eqn:E; [| discriminate]. intro H; injection H as <-. auto.
Qed.

Lemma new_tire_plain PR0 Dm0 Wm0 D0 DF0 t :
  new_tire PR0 Dm0 Wm0 D0 DF0 = Ok t -> t.(Pre) = EmptyString /\ t.(SI) = 0.
Proof.
  unfold new_tire, Tire_init, bind, ret.
  destruct (pydivR _ _); [| discriminate]. intro H; injection H as <-. auto.
Qed.

Lemma inflation_pressure_plain t v :
  t.(Pre) = EmptyString -> t.(SI) = 0 -> inflation_pressure t = Ok v -> exists x, v = Num x.
Proof.
  intros HP HS. unfold inflation_pressure, bind, ret. rewrite HP, HS.
  unfold is_zero. rewrite Reqb_t by reflexivity. cbn [String.eqb orb negb andb].
  destruct (load_supporting_capability t) as [Pc|]; [| discriminate].
  destruct (pressure_index t) as [P|]; [| discriminate].
  intro H; injection H as <-.
  cbn [flt]. destruct (Rltb 100 P); cbn; eexists; reflexivity.
Qed.

Lemma mass_plain t m :
  t.(Pre) = EmptyString -> t.(SI) = 0 -> inflation_medium_mass t = Ok m -> exists x, m = Num x.
Proof.
  intros HP HS. unfold inflation_medium_mass, bind, ret.
  destruct (inflation_pressure t) as [v|] eqn:E; [| discriminate].
  destruct (inflation_pressure_plain t v HP HS E) as [x ->].
  intro H; injection H as <-. destruct consts_nonzero as (H1 & H2 & H3).
  cbn [fadd fmul npdiv]. rewrite (Reqb_f _ _ H1). cbn [npdiv].
  rewrite (Reqb_f _ _ H2). cbn [npdiv]. rewrite (Reqb_f _ _ H3). eexists; reflexivity.
Qed.

Lemma cal_fitness_range ch f : cal_fitness ch = Ok f -> f = PInf \/ exists x, f = Num x.
Proof.
  unfold cal_fitness. intro H. gate_inv H; try (injection H as <-; left; reflexivity).
  destruct (new_tire_plain _ _ _ _ _ _ E6) as [HP HS].
  right. exact (mass_plain _ _ HP HS H).
Qed.

Lemma sort_head_min l h rest :
  Forall (fun x => x.(fitness) <> NaN) l -> sort_by_fitness l = h :: rest ->
  forall y, In y l -> flt y.(fitness) h.(fitness) = false.
Proof.
  destruct (sort_fold_spec l [] (Sorted_nil _)) as [Hp Hs]. cbn [app] in Hp.
  fold (sort_by_fitness l) in Hp, Hs.
  intros Hn Eq y Hy. rewrite Eq in Hs, Hp.
  pose proof (Permutation_Forall Hp Hn) as Hn'.
  destruct (Permutation_in _ Hp Hy) as [<- | Hin]; [apply flt_irrefl |].
  exact (proj1 (Forall_forall _ _) (sorted_head_min rest h Hs Hn') y Hin).
Qed.

Lemma ind_ok_not_nan c : ind_ok c -> c.(fitness) <> NaN.
Proof.
  intro H. destruct (cal_fitness_range _ _ H) as [-> | [x ->]]; discriminate.
Qed.

Lemma removelast_length {A} (l : list A) : List.length (removelast l) = (List.length l - 1)%nat.
Proof.
  destruct l as [|a l]; [reflexivity |].
  rewrite (app_removelast_last a (l := a :: l)) at 2 by discriminate.
  rewrite length_app. cbn [List.length]. lia.
Qed.

Lemma removelast_nth {A} (l : list A) j x : nth_error (removelast l) j = Some x -> nth_error l j = Some x.
Proof.
  destruct l as [|a l]; [intro H; destruct j; discriminate H |].
  intro H. rewrite (app_removelast_last a (l := a :: l)) by discriminate.
  rewrite nth_error_app1; [exact H |]. apply nth_error_Some. rewrite H. discriminate.
Qed.

Lemma last_gene_ok l x : last_gene l = Ok x -> l <> [] /\ x = last l 0.
Proof.
  unfold last_gene. destruct (rev l) as [|y r] eqn:E; [discriminate |].
  intro H; injection H as <-.
  assert (Hl : l = rev r ++ [y]) by (rewrite <- (rev_involutive l), E; reflexivity).
  split; [rewrite Hl; intro H; apply app_eq_nil in H as [_ H]; discriminate H |].
  rewrite Hl, last_last. reflexivity.
Qed.

Lemma mate_inv urand p1 p2 scopes pm s c s' :
  mate urand p1 p2 scopes pm s = Ok (c, s') ->
  0 <= pm <= 1 /\ ind_ok c /\
  exists genes l s1, mate_genes urand scopes pm O (removelast p1.(chromosome))
                        (removelast p2.(chromosome)) s = Ok (genes, s1) /\
    last_gene p1.(chromosome) = Ok l /\ c.(chromosome) = genes ++ [l].
Proof.
  unfold mate. destruct (Rltb 1 pm) eqn:E1; [discriminate |].
  destruct (Rltb pm 0) eqn:E2; [discriminate |]. cbn [orb].
  apply Rltb_false in E1, E2. intro H.
  apply sbind_inv in H as (genes & s1 & Hg & H).
  apply sbind_inv in H as (l & s2 & Hl & H).
  apply lift_inv in Hl as [Hl ->]. apply lift_inv in H as [H ->].
  apply GA_Individual_new_ok in H as [Hok Hc].
  split; [lra | split; [exact Hok |]]. eauto 6.
Qed.

Lemma ga_children_ok urand n pop ps scopes pm s cs s' :
  ga_children urand n pop ps scopes pm s = Ok (cs, s') ->
  List.length cs = n /\ Forall ind_ok cs.
Proof.
  revert s cs s'. induction n as [|n IH]; intros s cs s' H.
  - apply sret_inv in H as [-> _]. split; [reflexivity | constructor].
  - cbn [ga_children] in H.
    apply sbind_inv in H as (q1 & s1 & _ & H).
    apply sbind_inv in H as (q2 & s2 & _ & H).
    apply sbind_inv in H as (c & s3 & Hc & H).
    apply sbind_inv in H as (rest & s4 & Hr & H).
    apply sret_inv in H as [-> _].
    destruct (IH _ _ _ Hr) as [Hl Hf].
    destruct (mate_inv _ _ _ _ _ _ _ _ Hc) as (_ & Hok & _).
    split; [cbn; rewrite Hl; reflexivity | constructor; assumption].
Qed.

(** X17. A child of [mate] comes from a [prob_mutate] in [[0, 1]], has the
    fitness of its chromosome, ends with the last gene of parent 1, and its
    other genes, as many as the shorter parent has, each come from parent 1
    or parent 2 at the same position or lie in the variable's scope. *)
Theorem mate_child urand scopes p1 p2 pm s c s' :
  (forall k, 0 <= urand k <= 1) -> (forall v, fst (scopes v) <= snd (scopes v)) ->
  mate urand p1 p2 scopes pm s = Ok (c, s') ->
  0 <= pm <= 1 /\ cal_fitness c.(chromosome) = Ok c.(fitness) /\
  p1.(chromosome) <> [] /\
  exists genes, c.(chromosome) = genes ++ [last p1.(chromosome) 0] /\
    List.length genes = Nat.min (List.length p1.(chromosome) - 1) (List.length p2.(chromosome) - 1) /\
    forall j g, nth_error genes j = Some g ->
      nth_error p1.(chromosome) j = Some g \/ nth_error p2.(chromosome) j = Some g \/
      exists v, nth_error design_var j = Some v /\ fst (scopes v) <= g <= snd (scopes v).
Proof.
  intros Hu Hs H.
  destruct (mate_inv _ _ _ _ _ _ _ _ H) as (Hpm & Hok & genes & l & s1 & Hg & Hl & Hc).
  apply last_gene_ok in Hl as [Hne ->].
  destruct (mate_genes_spec _ _ _ Hu Hs _ _ _ _ _ _ Hg) as [Hlen Hj].
  split; [exact Hpm | split; [exact Hok | split; [exact Hne |]]].
  exists genes. split; [exact Hc |]. split.
  - rewrite Hlen, !removelast_length. reflexivity.
  - intros j g Hjg. destruct (Hj j g Hjg) as [H1 | [H2 | H3]].
    + left. exact (removelast_nth _ _ _ H1).
    + right; left. exact (removelast_nth _ _ _ H2).
    + right; right. exact H3.
Qed.

Lemma mate_ind25 :
  mate (fun _ => 0) ind25 ind25 scopes9 0.5 (mkSt 0 0) = Ok (ind25, mkSt 5 0).
Proof.
  unfold mate. rewrite (Rltb_f 1 0.5), (Rltb_f 0.5 0) by lra. cbn [orb].
  unfold ind25, gene25. cbn - [Rltb].
  unfold sbind, rand, sret, lift. cbn - [Rltb].
  rewrite (Rltb_t 0 ((1 - 0.5) / 2)) by lra. cbn.
  unfold GA_Individual_new. fold gene25. rewrite cal_fitness_gene25. reflexivity.
Qed.

Lemma mate_child_witness :
  mate (fun _ => 0) ind25 ind25 scopes9 0.5 (mkSt 0 0) = Ok (ind25, mkSt 5 0) /\
  0 <= 0.5 <= 1 /\ cal_fitness ind25.(chromosome) = Ok ind25.(fitness) /\
  ind25.(chromosome) <> [] /\
  exists genes, ind25.(chromosome) = genes ++ [last ind25.(chromosome) 0] /\
    List.length genes = Nat.min (List.length ind25.(chromosome) - 1) (List.length ind25.(chromosome) - 1) /\
    forall j g, nth_error genes j = Some g ->
      nth_error ind25.(chromosome) j = Some g \/ nth_error ind25.(chromosome) j = Some g \/
      exists v, nth_error design_var j = Some v /\ fst (scopes9 v) <= g <= snd (scopes9 v).
Proof.
  split; [exact mate_ind25 |].
  apply (mate_child (fun _ => 0) scopes9 ind25 ind25 0.5 (mkSt 0 0) ind25 (mkSt 5 0)).
  - intro; lra.
  - intro v; destruct v; cbn; lra.
  - exact mate_ind25.
Defined.

Lemma elite_size ps :
  let s0 := if (ps <=? 10)%Z then 1%Z else (ps / 10)%Z in
  (Nat.min (Z.to_nat s0) (Z.to_nat ps) + Z.to_nat (ps - s0))%nat = Z.to_nat ps /\
  (1 <= Z.to_nat s0)%nat.
Proof.
  cbv zeta. destruct (Z.leb_spec ps 10).
  - lia.
  - pose proof (Z.div_mod ps 10 ltac:(lia)). pose proof (Z.mod_pos_bound ps 10 ltac:(lia)).
    lia.
Qed.

(** X18. A generation of [ga_opt] that goes on keeps [pop_size]
    individuals with consistent fitness, puts one of least fitness first,
    keeps the previous first individual, and changes [curr_best] only to a
    lower fitness, that of the new first individual. *)
Theorem ga_generation_step urand clock ps scopes pm runtime conv start pop cb s pop' cb' s' :
  Forall ind_ok pop -> List.length pop = Z.to_nat ps ->
  ga_generation urand clock ps scopes pm runtime conv start pop cb s = Ok (GNext pop' cb', s') ->
  List.length pop' = Z.to_nat ps /\ Forall ind_ok pop' /\
  exists best rest, pop' = best :: rest /\
    (forall y, In y pop' -> flt y.(fitness) best.(fitness) = false) /\
    (forall x, hd_error pop = Some x -> In x pop') /\
    (cb' = cb \/ (cb' = best.(fitness) /\ flt best.(fitness) cb = true)).
Proof.
  intros Hpop Hlen H. unfold ga_generation in H.
  destruct (elite_size ps) as [Hsz Hs1].
  set (s0 := if (ps <=? 10)%Z then 1%Z else (ps / 10)%Z) in H, Hsz, Hs1.
  apply sbind_inv in H as (children & s1 & Hc & H).
  destruct (ga_children_ok _ _ _ _ _ _ _ _ _ Hc) as [Hcl Hcok].
  apply sbind_inv in H as (best & s2 & Hb & H). apply lift_inv in Hb as [Hb ->].
  apply sbind_inv in H as (r & s3 & Hr & H).
  set (pop0 := sort_by_fitness (firstn (Z.to_nat s0) pop ++ children)) in *.
  assert (Hcb : match r with inl _ => True
                | inr c => c = cb \/ (c = best.(fitness) /\ flt best.(fitness) cb = true) end).
  { destruct (flt best.(fitness) cb) eqn:Ef in Hr.
    - apply sbind_inv in Hr as (rel & s5 & _ & Hr).
      destruct (_ && _).
      + apply sbind_inv in Hr as (t & s6 & _ & Hr). apply sret_inv in Hr as [-> _]. exact I.
      + apply sret_inv in Hr as [-> _]. right; split; [reflexivity | exact Ef].
    - apply sret_inv in Hr as [-> _]. left; reflexivity. }
  destruct r as [t|c0].
  { apply sret_inv in H as [H _]. discriminate H. }
  apply sbind_inv in H as (tnow & s4 & _ & H).
  destruct (Rleb _ _).
  { apply sbind_inv in H as (t & s5 & _ & H). apply sret_inv in H as [H _]. discriminate H. }
  apply sret_inv in H as [H _]. injection H as -> ->.
  pose proof (sort_by_fitness_perm (firstn (Z.to_nat s0) pop ++ children)) as Hp.
  fold pop0 in Hp.
  assert (Hall : Forall ind_ok (firstn (Z.to_nat s0) pop ++ children)).
  { apply Forall_app. split; [| exact Hcok].
    rewrite <- (firstn_skipn (Z.to_nat s0) pop) in Hpop.
    apply Forall_app in Hpop. exact (proj1 Hpop). }
  unfold idx in Hb. destruct pop0 as [|b rest] eqn:E0; [discriminate Hb |].
  injection Hb as ->.
  split; [| split].
  - rewrite <- (Permutation_length Hp), length_app, length_firstn, Hcl, Hlen. exact Hsz.
  - exact (Permutation_Forall Hp Hall).
  - exists best, rest. split; [reflexivity | split; [| split; [| exact Hcb]]].
    + intros y Hy. apply (sort_head_min _ _ _ (Forall_impl _ ind_ok_not_nan Hall) E0).
      apply (Permutation_in _ (Permutation_sym Hp) Hy).
    + intros x Hx. apply (Permutation_in _ Hp). apply in_or_app. left.
      destruct pop as [|a pop]; [discriminate Hx |]. injection Hx as ->.
      destruct (Z.to_nat s0) as [|k]; [lia |]. left; reflexivity.
Qed.

Lemma ga_generation_ind25 :
  ga_generation (fun _ => 0) (fun _ => 0) 1 scopes9 0.5 1 0 0 [ind25] PInf (mkSt 0 0)
    = Ok (GNext [ind25] PInf, mkSt 0 1).
Proof.
  unfold ga_generation. cbn.
  unfold sbind, lift, sret, time_now. cbn.
  rewrite (Rleb_f 1 (0 - 0)) by lra. reflexivity.
Qed.

Lemma ga_generation_step_witness :
  ga_generation (fun _ => 0) (fun _ => 0) 1 scopes9 0.5 1 0 0 [ind25] PInf (mkSt 0 0)
    = Ok (GNext [ind25] PInf, mkSt 0 1) /\
  List.length [ind25] = Z.to_nat 1 /\ Forall ind_ok [ind25] /\
  exists best rest, [ind25] = best :: rest /\
    (forall y, In y [ind25] -> flt y.(fitness) best.(fitness) = false) /\
    (forall x, hd_error [ind25] = Some x -> In x [ind25]) /\
    (PInf = PInf \/ (PInf = best.(fitness) /\ flt best.(fitness) PInf = true)).
Proof.
  split; [exact ga_generation_ind25 |].
  apply (ga_generation_step (fun _ => 0) (fun _ => 0) 1 scopes9 0.5 1 0 0 [ind25] PInf (mkSt 0 0)
           [ind25] PInf (mkSt 0 1)).
  - constructor; [exact cal_fitness_gene25 | constructor].
  - reflexivity.
  - exact ga_generation_ind25.
Defined.

Lemma ga_init_while_ok urand fuel req scopes g s g' s' :
  ind_ok g -> ga_init_while urand fuel req scopes g s = Ok (g', s') ->
  ind_ok g' /\ feqb g'.(fitness) PInf = false.
Proof.
  revert g s. induction fuel as [|f IH]; intros g s Hg H; cbn [ga_init_while] in H.
  - destruct (feqb g.(fitness) PInf) eqn:E; [discriminate H |].
    apply sret_inv in H as [-> _]. auto.
  - destruct (feqb g.(fitness) PInf) eqn:E.
    + apply sbind_inv in H as (ch & s1 & _ & H).
      apply sbind_inv in H as (g1 & s2 & Hg1 & H).
      apply lift_inv in Hg1 as [Hg1 ->]. apply GA_Individual_new_ok in Hg1 as [Hok _].
      exact (IH _ _ Hok H).
    + apply sret_inv in H as [-> _]. auto.
Qed.

(** X19. The initial population of [ga_opt] has the requested size and
    consistent fitness: all copies of [init_gene] when it is given, all of
    finite fitness otherwise. *)
Theorem ga_init_population_ok urand fuel req scopes init_gene k s pop s' :
  ga_init_population urand fuel req scopes init_gene k s = Ok (pop, s') ->
  List.length pop = k /\ Forall ind_ok pop /\
  (init_gene = [] -> Forall (fun c => exists m, c.(fitness) = Num m) pop) /\
  (init_gene <> [] -> Forall (fun c => c.(chromosome) = init_gene) pop).
Proof.
  revert s pop s'. induction k as [|k IH]; intros s pop s' H; cbn [ga_init_population] in H.
  - apply sret_inv in H as [-> _]. repeat split; intros; constructor.
  - apply sbind_inv in H as (g & s1 & Hg & H).
    apply sbind_inv in H as (rest & s2 & Hr & H). apply sret_inv in H as [-> _].
    destruct (IH _ _ _ Hr) as (Hl & Hok & Hnum & Hch).
    destruct init_gene as [|x xs].
    + apply sbind_inv in Hg as (g0 & s3 & Hg0 & Hg).
      apply lift_inv in Hg0 as [Hg0 ->]. apply GA_Individual_new_ok in Hg0 as [Hok0 _].
      destruct (ga_init_while_ok _ _ _ _ _ _ _ _ Hok0 Hg) as [Hokg Hne].
      split; [cbn; rewrite Hl; reflexivity | split; [constructor; assumption | split]].
      * intros _. constructor; [| exact (Hnum eq_refl)].
        destruct (cal_fitness_range _ _ Hokg) as [E | E]; [| exact E].
        rewrite E in Hne. discriminate Hne.
      * intros C; contradiction.
    + apply lift_inv in Hg as [Hg ->]. apply GA_Individual_new_ok in Hg as [Hokg Hc].
      split; [cbn; rewrite Hl; reflexivity | split; [constructor; assumption | split]].
      * intros C; discriminate C.
      * intros _. constructor; [exact Hc | apply Hch; discriminate].
Qed.

Lemma ga_init_population_ok_witness :
  ga_init_population (fun _ => 0) 1 1000 scopes9 gene25 2 (mkSt 0 0) = Ok ([ind25; ind25], mkSt 0 0) /\
  List.length [ind25; ind25] = 2%nat /\ Forall ind_ok [ind25; ind25] /\
  (gene25 = [] -> Forall (fun c => exists m, c.(fitness) = Num m) [ind25; ind25]) /\
  (gene25 <> [] -> Forall (fun c => c.(chromosome) = gene25) [ind25; ind25]).
Proof.
  assert (H : ga_init_population (fun _ => 0) 1 1000 scopes9 gene25 2 (mkSt 0 0)
                = Ok ([ind25; ind25], mkSt 0 0)).
  { apply (ga_init_population_gene _ _ _ _ gene25 2 ind25); [discriminate |].
    unfold GA_Individual_new. rewrite cal_fitness_gene25. reflexivity. }
  split; [exact H | exact (ga_init_population_ok _ _ _ _ _ _ _ _ _ H)].
Defined.

(** ** The main loop of random search *)

Lemma no_heavier_trans a b c : no_heavier a b -> no_heavier b c -> no_heavier a c.
Proof.
  intros [-> | (ma & mb & Ha & Hb & Hab)] [-> | (mb' & mc & Hb' & Hc & Hbc)].
  - left; reflexivity.
  - right; eauto.
  - right; eauto.
  - right. rewrite Hb in Hb'. injection Hb' as <-. exists ma, mc. eauto using flt_trans.
Qed.

(** X20. The search loop of random search returns its starting tire or a
    tire with a strictly lighter inflation medium. *)
Theorem rs_main_loop_lighter clock numpy md req runtime fitness start n :
  forall c s t s',
  rs_main_loop clock numpy md req runtime fitness start n c s = Ok (t, s') ->
  t = c \/ exists mt mc, a_mass t = Ok mt /\ a_mass c = Ok mc /\ flt mt mc = true.
Proof.
  change (forall c s t s',
            rs_main_loop clock numpy md req runtime fitness start n c s = Ok (t, s') ->
            no_heavier t c).
  induction n as [|k IH]; intros c s t s' H; cbn [rs_main_loop] in H.
  - apply sret_inv in H as [-> _]. left; reflexivity.
  - apply sbind_inv in H as (r & s1 & Hr & H).
    destruct (rs_iteration_cases _ _ _ _ _ _ _ _ _ _ _ Hr) as (ib & Hexp & Heq & Hneq).
    assert (Hib : no_heavier ib c).
    { destruct (explore_best _ _ _ _ _ _ Hexp) as [[-> | [_ Hl]] _]; [left | right]; auto. }
    destruct (atire_eqb ib c) eqn:Et.
    + destruct (Heq eq_refl) as [-> _]. apply sret_inv in H as [-> _]. left; reflexivity.
    + destruct (Hneq eq_refl) as (mc & mi & rel & _ & _ & _ & Hs & Hc).
      destruct (fle rel (Num fitness)).
      * destruct (Hs eq_refl) as [-> _]. apply sret_inv in H as [-> _]. exact Hib.
      * destruct (Hc eq_refl) as [_ ->].
        destruct (Rleb _ _).
        -- apply sret_inv in H as [-> _]. exact Hib.
        -- exact (no_heavier_trans _ _ _ (IH _ _ _ _ H) Hib).
Qed.

Lemma rs_main_loop_lighter_witness :
  rs_main_loop (fun _ => 0) false md9 1000 900 0 0 1 (PyT (T21 11)) (mkSt 0 0) =
    Ok (PyT (T21 10), mkSt 0 1) /\
  (PyT (T21 10) = PyT (T21 11) \/ exists mt mc, a_mass (PyT (T21 10)) = Ok mt /\
     a_mass (PyT (T21 11)) = Ok mc /\ flt mt mc = true).
Proof.
  assert (H : rs_main_loop (fun _ => 0) false md9 1000 900 0 0 1 (PyT (T21 11)) (mkSt 0 0)
                = Ok (PyT (T21 10), mkSt 0 1)).
  { cbn [rs_main_loop]. unfold sbind at 1. rewrite rs_iteration9_continue. reflexivity. }
  split; [exact H | exact (rs_main_loop_lighter _ _ _ _ _ _ _ _ _ _ _ _ H)].
Defined.

(** ** The particle swarm *)

Lemma zip_with_length f a b : List.length a = List.length b ->
  List.length (zip_with f a b) = List.length a.
Proof.
  revert b. induction a as [|x a IH]; intros [|y b] H; cbn in *; try lia.
  rewrite IH; lia.
Qed.

Lemma np_binop_same f a b : List.length a = List.length b ->
  np_binop f a b = Ok (zip_with f a b).
Proof. intro H. unfold np_binop. rewrite H, Nat.eqb_refl. reflexivity. Qed.

Lemma np_scale_length k a : List.length (np_scale k a) = List.length a.
Proof. apply length_map. Qed.

Lemma update_position_cases urand obj c1 c2 w g p s o p' s' :
  update_position urand obj c1 c2 w g p s = Ok ((o, p'), s') ->
  obj p'.(position) = Ok o /\
  ((p'.(best_position) = p'.(position) /\ p'.(best_obj) = o /\ fle o p.(best_obj) = true) \/
   (p'.(best_position) = p.(best_position) /\ p'.(best_obj) = p.(best_obj) /\
    fle o p.(best_obj) = false)).
Proof.
  unfold update_position. intro H.
  do 7 (apply sbind_inv in H as (? & ? & ? & H)).
  apply sbind_inv in H as (no & s8 & Ho & H). apply lift_inv in Ho as [Ho ->].
  destruct (fle no p.(best_obj)) eqn:E; apply sret_inv in H as [H _]; injection H as -> ->;
    cbn [position best_position best_obj]; split; auto.
Qed.

(** X21. [update_position] returns the objective of the new position, keeps
    [best_obj] the objective of [best_position], never raises [best_obj]
    (when it is not NaN), and moves the best to the new position when the
    new objective is not larger. *)
Theorem update_position_best urand obj c1 c2 w gbest p s o p' s' :
  update_position urand obj c1 c2 w gbest p s = Ok ((o, p'), s') ->
  obj p'.(position) = Ok o /\
  (obj p.(best_position) = Ok p.(best_obj) -> obj p'.(best_position) = Ok p'.(best_obj)) /\
  (p.(best_obj) <> NaN -> fle p'.(best_obj) p.(best_obj) = true) /\
  (fle o p.(best_obj) = true -> p'.(best_position) = p'.(position) /\ p'.(best_obj) = o).
Proof.
  intro H. destruct (update_position_cases _ _ _ _ _ _ _ _ _ _ _ H) as
    [Ho [(Hbp & Hbo & Hle) | (Hbp & Hbo & Hle)]].
  - rewrite Hbp, Hbo. auto 6.
  - rewrite Hbp, Hbo. split; [exact Ho | split; [auto | split]].
    + intro Hn. destruct p.(best_obj) as [x| | |]; cbn; try reflexivity; [| contradiction].
      apply Rleb_t. lra.
    + intro C. rewrite C in Hle. discriminate Hle.
Qed.

Lemma update_position_particle0 : exists o p' s',
  update_position (fun _ => 0) (fun _ => ret (Num 1)) 1 1 1 [0] particle0 (mkSt 0 0)
    = Ok ((o, p'), s').
Proof.
  do 3 eexists. unfold update_position, particle0. cbn.
  unfold sbind, rand, lift, sret. cbn.
  rewrite (Rleb_t 1 1) by lra. reflexivity.
Qed.

Lemma update_position_best_witness : exists o p' s',
  update_position (fun _ => 0) (fun _ => ret (Num 1)) 1 1 1 [0] particle0 (mkSt 0 0)
    = Ok ((o, p'), s') /\
  ret (Num 1) = Ok o /\
  (ret (Num 1) = Ok particle0.(best_obj) -> ret (Num 1) = Ok p'.(best_obj)) /\
  (particle0.(best_obj) <> NaN -> fle p'.(best_obj) particle0.(best_obj) = true) /\
  (fle o particle0.(best_obj) = true -> p'.(best_position) = p'.(position) /\ p'.(best_obj) = o).
Proof.
  destruct update_position_particle0 as (o & p' & s' & H).
  exists o, p', s'. split; [exact H |].
  exact (update_position_best (fun _ => 0) (fun _ => ret (Num 1)) 1 1 1 [0] particle0
           (mkSt 0 0) o p' s' H).
Defined.

(** X22. When position, velocity, best position and global best have one
    length [n], [update_position] keeps that length for the particle's
    arrays and takes two draws; it raises only what the objective raises
    at a position of length [n]. *)
Theorem update_position_shape urand obj c1 c2 w gbest p n s :
  List.length p.(position) = n -> List.length p.(velocity) = n ->
  List.length p.(best_position) = n -> List.length gbest = n ->
  (forall o p' s', update_position urand obj c1 c2 w gbest p s = Ok ((o, p'), s') ->
     List.length p'.(position) = n /\ List.length p'.(velocity) = n /\
     List.length p'.(best_position) = n /\ s' = mkSt (S (S (rng_pos s))) (clk_pos s)) /\
  (forall e, update_position urand obj c1 c2 w gbest p s = Raise e ->
     exists pos, List.length pos = n /\ obj pos = Raise e).
Proof.
  intros Hp Hv Hb Hg.
  set (r1 := urand (rng_pos s)). set (r2 := urand (S (rng_pos s))).
  set (d1 := zip_with Rminus p.(best_position) p.(position)).
  set (a1 := zip_with Rplus (np_scale w p.(velocity)) (np_scale (c1 * r1) d1)).
  set (d2 := zip_with Rminus gbest p.(position)).
  set (vel := zip_with Rplus a1 (np_scale (c2 * r2) d2)).
  set (pos := zip_with Rplus p.(position) vel).
  assert (Ld1 : List.length d1 = n) by (unfold d1; rewrite zip_with_length; lia).
  assert (La1 : List.length a1 = n)
    by (unfold a1; rewrite zip_with_length; rewrite !np_scale_length; lia).
  assert (Ld2 : List.length d2 = n) by (unfold d2; rewrite zip_with_length; lia).
  assert (Lvel : List.length vel = n)
    by (unfold vel; rewrite zip_with_length; rewrite ?np_scale_length; lia).
  assert (Lpos : List.length pos = n) by (unfold pos; rewrite zip_with_length; lia).
  assert (Eq : update_position urand obj c1 c2 w gbest p s =
    match obj pos with
    | Ok no => Ok (if fle no p.(best_obj) then (no, mkParticle pos vel pos no)
                   else (no, mkParticle pos vel p.(best_position) p.(best_obj)),
                   mkSt (S (S (rng_pos s))) (clk_pos s))
    | Raise e => Raise e
    end).
  { unfold update_position, sbind, rand, lift, sret. cbn [rng_pos clk_pos].
    rewrite (np_binop_same _ p.(best_position) p.(position)) by lia. fold r1 d1.
    rewrite np_binop_same by (rewrite !np_scale_length; lia). fold a1.
    rewrite (np_binop_same _ gbest p.(position)) by lia. cbn [rng_pos clk_pos]. fold r2 d2.
    rewrite np_binop_same by (rewrite np_scale_length; lia). fold vel.
    rewrite np_binop_same by lia. fold pos.
    destruct (obj pos) as [no|e]; [| reflexivity].
    destruct (fle no p.(best_obj)); reflexivity. }
  rewrite Eq. clear Eq. split.
  - intros o p' s' H. destruct (obj pos) as [no|e]; [| discriminate H].
    injection H as H <-.
    destruct (fle no p.(best_obj)); injection H as _ <-; cbn; auto.
  - intros e H. exists pos. split; [exact Lpos |].
    destruct (obj pos) as [no|e']; [discriminate H | injection H as ->; reflexivity].
Qed.

Lemma update_position_shape_witness :
  (forall o p' s', update_position (fun _ => 0) (fun _ => ret (Num 1)) 1 1 1 [0] particle0 (mkSt 0 0)
       = Ok ((o, p'), s') ->
     List.length p'.(position) = 1%nat /\ List.length p'.(velocity) = 1%nat /\
     List.length p'.(best_position) = 1%nat /\ s' = mkSt 2 0) /\
  (forall e, update_position (fun _ => 0) (fun _ => ret (Num 1)) 1 1 1 [0] particle0 (mkSt 0 0)
       = Raise e -> exists pos : list R, List.length pos = 1%nat /\ ret (Num 1) = @Raise fl e).
Proof.
  apply (update_position_shape (fun _ => 0) (fun _ => ret (Num 1)) 1 1 1 [0] particle0 1 (mkSt 0 0));
    reflexivity.
Defined.

Lemma smapM_rand_clock {A} (f : A -> SM R) l s bs s' :
  (forall a s0 b s1, f a s0 = Ok (b, s1) -> clk_pos s1 = clk_pos s0) ->
  smapM f l s = Ok (bs, s') -> clk_pos s' = clk_pos s.
Proof.
  intro Hf. revert s bs s'. induction l as [|a l IH]; intros s bs s' H; cbn [smapM] in H.
  - apply sret_inv in H as [_ ->]. reflexivity.
  - apply sbind_inv in H as (b & s1 & Hb & H).
    apply sbind_inv in H as (rest & s2 & Hr & H). apply sret_inv in H as [_ ->].
    rewrite (IH _ _ _ Hr). exact (Hf _ _ _ _ Hb).
Qed.

Lemma PSO_Particle_new_inv urand obj scopes s p s' :
  PSO_Particle_new urand obj scopes s = Ok (p, s') ->
  obj p.(position) = Ok p.(best_obj) /\ p.(best_position) = p.(position) /\
  clk_pos s' = clk_pos s.
Proof.
  unfold PSO_Particle_new. intro H.
  apply sbind_inv in H as (pos & s1 & Hpos & H).
  apply sbind_inv in H as (vel & s2 & Hvel & H).
  apply sbind_inv in H as (b & s3 & Hb & H). apply lift_inv in Hb as [Hb ->].
  apply sret_inv in H as [-> ->]. cbn. split; [exact Hb | split; [reflexivity |]].
  assert (Hr : forall s0 b s4, rand urand s0 = Ok (b, s4) -> clk_pos s4 = clk_pos s0)
    by (intros s0 b0 s4 E; unfold rand in E; injection E as _ <-; reflexivity).
  rewrite (smapM_rand_clock _ _ _ _ _ (fun _ => Hr) Hvel).
  refine (smapM_rand_clock _ _ _ _ _ _ Hpos).
  intros v s0 b0 s4 E. apply sbind_inv in E as (u & s5 & Eu & E).
  apply sret_inv in E as [_ ->]. exact (Hr _ _ _ Eu).
Qed.

Lemma pso_init_while_inv urand obj fuel scopes s p s' :
  pso_init_while urand obj fuel scopes s = Ok (p, s') ->
  pso_ok obj p.(position) p.(best_obj) /\ clk_pos s' = clk_pos s.
Proof.
  revert s. induction fuel as [|f IH]; intros s H; cbn [pso_init_while] in H.
  - discriminate H.
  - apply sbind_inv in H as (q & s1 & Hq & H).
    destruct (PSO_Particle_new_inv _ _ _ _ _ _ Hq) as (Ho & _ & Hc).
    destruct (flt q.(best_obj) PInf) eqn:E.
    + apply sret_inv in H as [-> ->]. split; [split; assumption | exact Hc].
    + rewrite <- Hc. exact (IH _ H).
Qed.

Lemma pso_init_inv urand obj fuel scopes n s ps s' :
  pso_init urand obj fuel scopes n s = Ok (ps, s') ->
  Forall (fun p => pso_ok obj p.(position) p.(best_obj)) ps /\ clk_pos s' = clk_pos s.
Proof.
  revert s ps s'. induction n as [|n IH]; intros s ps s' H; cbn [pso_init] in H.
  - apply sret_inv in H as [-> ->]. split; [constructor | reflexivity].
  - apply sbind_inv in H as (p & s1 & Hp & H).
    apply sbind_inv in H as (rest & s2 & Hr & H). apply sret_inv in H as [-> ->].
    destruct (IH _ _ _ Hr) as [Hf Hc]. destruct (pso_init_while_inv _ _ _ _ _ _ _ Hp) as [Hok Hc1].
    split; [constructor; assumption | congruence].
Qed.

Lemma argmin_from_bound l : forall i bi bv, (bi < i)%nat ->
  (argmin_from l i bi bv < i + List.length l)%nat.
Proof.
  induction l as [|x l IH]; intros i bi bv H; cbn [argmin_from List.length].
  - lia.
  - destruct (_ && _); [specialize (IH (S i) i x) | specialize (IH (S i) bi bv)]; lia.
Qed.

Lemma np_argmin_bound l i : np_argmin l = Ok i -> (i < List.length l)%nat.
Proof.
  destruct l as [|x l]; [discriminate |]. intro H; injection H as <-.
  pose proof (argmin_from_bound l 1 0 x ltac:(lia)). cbn. lia.
Qed.

Lemma pso_sweep_inv {TT : Type} urand clock obj (to_tire : list R -> M TT) c1 c2 w runtime conv st todo :
  forall done gpos gobj s r s',
  pso_ok obj gpos gobj ->
  pso_sweep urand clock obj to_tire c1 c2 w runtime conv st todo done gpos gobj s = Ok (r, s') ->
  match r with
  | inl t => pso_result obj to_tire clock runtime st t
  | inr (_, gp, go) => pso_ok obj gp go
  end.
Proof.
  induction todo as [|p rest IH]; intros done gpos gobj s r s' Hg H; cbn [pso_sweep] in H.
  - apply sret_inv in H as [-> _]. exact Hg.
  - apply sbind_inv in H as ([pbest p'] & s1 & Hu & H).
    destruct (update_position_cases _ _ _ _ _ _ _ _ _ _ _ Hu) as [Ho _].
    apply sbind_inv in H as (g & s2 & Hgs & H).
    assert (Hgm : match g with
                  | inl t => pso_result obj to_tire clock runtime st t
                  | inr (gp, go) => pso_ok obj gp go
                  end).
    { destruct (flt pbest gobj) eqn:Ef.
      - assert (Hfin : flt pbest PInf = true) by exact (flt_trans _ _ _ Ef (proj2 Hg)).
        destruct (fle _ _).
        + apply sbind_inv in Hgs as (t & s3 & Ht & Hgs). apply lift_inv in Ht as [Ht ->].
          apply sret_inv in Hgs as [-> _]. exists p'.(position). split; [exact Ht |].
          left. exists pbest. split; assumption.
        + apply sret_inv in Hgs as [-> _]. split; assumption.
      - apply sret_inv in Hgs as [-> _]. exact Hg. }
    destruct g as [t | [gp go]].
    + apply sret_inv in H as [-> _]. exact Hgm.
    + apply sbind_inv in H as (tnow & s3 & Ht & H).
      unfold time_now in Ht. injection Ht as Ht _.
      destruct (Rleb runtime (tnow - st)) eqn:Er.
      * apply sbind_inv in H as (t & s4 & Htt & H). apply lift_inv in Htt as [Htt ->].
        apply sret_inv in H as [-> _]. exists p'.(position). split; [exact Htt |].
        right. exists (clk_pos s2). rewrite Ht. apply Rleb_spec in Er. exact Er.
      * exact (IH _ _ _ _ _ _ Hgm H).
Qed.

Lemma pso_loop_inv {TT : Type} urand clock obj (to_tire : list R -> M TT) c1 c2 w runtime conv st n :
  forall ps gpos gobj s t s',
  pso_ok obj gpos gobj ->
  pso_loop urand clock obj to_tire c1 c2 w runtime conv st n ps gpos gobj s = Ok (t, s') ->
  pso_result obj to_tire clock runtime st t.
Proof.
  induction n as [|n IH]; intros ps gpos gobj s t s' Hg H; cbn [pso_loop] in H.
  - apply lift_inv in H as [H _]. exists gpos. split; [exact H | left; eauto].
  - apply sbind_inv in H as (r & s1 & Hs & H).
    pose proof (pso_sweep_inv _ _ _ _ _ _ _ _ _ _ _ _ _ _ _ _ _ Hg Hs) as Hr.
    destruct r as [t0 | [[ps' gp] go]].
    + apply sret_inv in H as [-> _]. exact Hr.
    + exact (IH _ _ _ _ _ _ Hr H).
Qed.

(** X23. A tire returned by [pso_opt] is built from a position of finite
    objective, or is returned once [runtime] has passed since the start. *)
Theorem pso_opt_result {TT : Type} urand clock obj (to_tire : list R -> M TT) fuel scopes n_particles c1 c2 w n_iter
    runtime conv s t s' :
  pso_opt urand clock obj to_tire fuel scopes n_particles c1 c2 w n_iter runtime conv s
    = Ok (t, s') ->
  exists pos, to_tire pos = Ok t /\
    ((exists v, obj pos = Ok v /\ flt v PInf = true) \/
     (exists k, runtime <= clock k - clock (clk_pos s))).
Proof.
  unfold pso_opt. intro H.
  apply sbind_inv in H as (ps & s1 & Hps & H).
  destruct (pso_init_inv _ _ _ _ _ _ _ _ Hps) as [Hall Hc].
  apply sbind_inv in H as (i & s2 & Hi & H). apply lift_inv in Hi as [Hi ->].
  apply sbind_inv in H as (gb & s3 & Hgb & H). apply lift_inv in Hgb as [Hgb ->].
  apply sbind_inv in H as (st & s4 & Hst & H).
  unfold time_now in Hst. injection Hst as Hst _. rewrite Hc in Hst.
  assert (Hok : pso_ok obj gb.(position) gb.(best_obj)).
  { unfold idx in Hgb. destruct (nth_error ps i) eqn:E; [| discriminate Hgb].
    injection Hgb as <-. apply nth_error_In in E.
    exact (proj1 (Forall_forall _ _) Hall _ E). }
  destruct (pso_loop_inv _ _ _ _ _ _ _ _ _ _ _ _ _ _ _ _ _ Hok H) as (pos & Ht & Hr).
  exists pos. split; [exact Ht |]. rewrite Hst. exact Hr.
Qed.

Lemma pso_opt_T21 : exists s',
  pso_opt (fun _ => 0) (fun _ => 0) (fun _ => ret (Num 1)) (fun _ => ret (T21 10)) 1 scopes9 1
    1 1 1 1 1 0 (mkSt 0 0) = Ok (T21 10, s').
Proof.
  eexists. unfold pso_opt. change (Z.to_nat 1) with 1%nat.
  unfold pso_init, pso_init_while, PSO_Particle_new, rand_vec, pso_loop, pso_sweep, update_position.
  cbn. unfold sbind, rand, lift, sret, time_now. cbn.
  rewrite (Rleb_t 1 1) by lra. cbn.
  rewrite (Rltb_f 1 1) by lra. cbn.
  rewrite (Rleb_f 1 (0 - 0)) by lra. reflexivity.
Qed.

Lemma pso_opt_result_witness : exists s',
  pso_opt (fun _ => 0) (fun _ => 0) (fun _ => ret (Num 1)) (fun _ => ret (T21 10)) 1 scopes9 1
    1 1 1 1 1 0 (mkSt 0 0) = Ok (T21 10, s') /\
  exists pos : list R, ret (T21 10) = Ok (T21 10) /\
    ((exists v, ret (Num 1) = Ok v /\ flt v PInf = true) \/
     (exists k : nat, 1 <= 0 - 0)).
Proof.
  destruct pso_opt_T21 as [s' H]. exists s'. split; [exact H |].
  exact (pso_opt_result (fun _ => 0) (fun _ => 0) (fun _ => ret (Num 1)) (fun _ => ret (T21 10))
           1 scopes9 1 1 1 1 1 1 0 (mkSt 0 0) (T21 10) s' H).
Defined.

(** X24. [pso_opt] with no particles raises [ValueError] (from [np.argmin]
    of an empty list). *)
Theorem pso_opt_no_particles {TT : Type} urand clock obj (to_tire : list R -> M TT) fuel scopes n_particles c1 c2 w n_iter
    runtime conv s :
  (n_particles <= 0)%Z ->
  pso_opt urand clock obj to_tire fuel scopes n_particles c1 c2 w n_iter runtime conv s
    = Raise ValueError.
Proof.
  intro Hn. unfold pso_opt. replace (Z.to_nat n_particles) with O by lia. reflexivity.
Qed.

Lemma pso_opt_no_particles_witness :
  pso_opt (fun _ => 0) (fun _ => 0) (fun _ => ret (Num 1)) (fun _ => ret (T21 10)) 1 scopes9 0
    1 1 1 1 1 0 (mkSt 0 0) = Raise ValueError.
Proof. apply pso_opt_no_particles. lia. Defined.

(** ** Finite fitness *)

Lemma cal_fitness_T21 (PR0 req : R) : 10 <= PR0 <= 11 -> req <= 4000 ->
  cal_fitness [PR0; 21; 7; 10; 12; req] = Ok (Num (mass21 PR0)).
Proof.
  intros H Hr. unfold cal_fitness, idx. cbn [nth_error bind].
  rewrite pydivR_ok by lra. cbn [bind]. rtest. cbn [orb bind].
  rewrite new_tire_T21. cbn [bind].
  destruct (mlc_T21 PR0 H) as [L [HL HL4]]. rewrite HL. cbn [bind flt]. rtest.
  rewrite is_mech_feasible_walter.
  destruct (tension_T21 PR0 H) as [x [Hx Hx338]]. rewrite Hx. cbn [bind ret flt negb]. rtest.
  cbn [negb]. apply mass_T21. lra.
Qed.

(** X25. A finite [cal_fitness] certifies the chromosome: [Wm <> 0],
    [D < DF < Dm], an aspect ratio in [[0.5, 1]], and a tire whose exact
    maximum load reaches [req_Lm] (or is NaN), that is feasible by Walter's
    cord tension, and whose inflation medium mass is the fitness. *)
Theorem cal_fitness_finite ch v :
  cal_fitness ch = Ok v -> v <> PInf ->
  let PR0 := nth 0 ch 0 in let Dm0 := nth 1 ch 0 in let Wm0 := nth 2 ch 0 in
  let D0 := nth 3 ch 0 in let DF0 := nth 4 ch 0 in
  Wm0 <> 0 /\ D0 < DF0 < Dm0 /\ 0.5 <= (Dm0 - D0) / 2 / Wm0 <= 1 /\
  exists t L, new_tire PR0 Dm0 Wm0 D0 DF0 = Ok t /\
    max_load_capacity t true = Ok L /\ (L = NaN \/ fle (Num (nth 5 ch 0)) L = true) /\
    is_mech_feasible t "walter" = Ok true /\ inflation_medium_mass t = Ok v.
Proof.
  intros H Hv. unfold cal_fitness in H. gate_inv H; gate_leaf H; subst; try congruence.
  rewrite (idx_nth _ _ _ 0 E), (idx_nth _ _ _ 0 E0), (idx_nth _ _ _ 0 E1),
    (idx_nth _ _ _ 0 E3), (idx_nth _ _ _ 0 E5), (idx_nth _ _ _ 0 E8).
  cbv zeta.
  unfold pydivR in E2. destruct (Reqb a1 0) eqn:Ez; [discriminate E2 |].
  injection E2 as <-. unfold Reqb in Ez. destruct (Req_dec_T a1 0); [discriminate Ez |].
  apply orb_false_iff in E4 as [E4 Eb]. apply orb_false_iff in E4 as [E4 Ea].
  apply orb_false_iff in E4 as [E4 E4'].
  apply Rleb_false in E4, E4'. apply Rltb_false in Ea, Eb.
  split; [assumption | split; [lra | split; [lra |]]].
  exists a5, a6. split; [assumption | split; [assumption | split; [| split; assumption]]].
  destruct a6 as [x| | |]; cbn [flt fle] in E9 |- *; [| auto | discriminate | auto].
  right. apply Rltb_false in E9. apply Rleb_t. exact E9.
Qed.

Lemma cal_fitness_finite_witness :
  cal_fitness [10; 21; 7; 10; 12; 1000] = Ok (Num (mass21 10)) /\
  (7 <> 0 /\ 10 < 12 < 21 /\ 0.5 <= (21 - 10) / 2 / 7 <= 1 /\
   exists t L, new_tire 10 21 7 10 12 = Ok t /\
     max_load_capacity t true = Ok L /\ (L = NaN \/ fle (Num 1000) L = true) /\
     is_mech_feasible t "walter" = Ok true /\ inflation_medium_mass t = Ok (Num (mass21 10))).
Proof.
  assert (H : cal_fitness [10; 21; 7; 10; 12; 1000] = Ok (Num (mass21 10)))
    by (apply cal_fitness_T21; lra).
  split; [exact H |].
  exact (cal_fitness_finite _ _ H ltac:(discriminate)).
Defined.

